(** * The state-space recursion of [src/ssfun.cpp]

    A shallow embedding of the five routines of the smoothing core
    ([ssfitter], [ssfitterbackcast], [ssforecaster], [sserrorer],
    [ssoptimizer]) and of the Armadillo operations they are written with.

    - Matrices are kept the way Armadillo keeps them: a row count, a column
      count and one column-major buffer.  The source relies on that layout
      (it gathers lagged states with linear indices and repairs non-finite
      entries from the neighbouring buffer position), so the embedding does
      too.
    - [arma::uword] values are integers modulo [2^64]; every subtraction the
      source performs on them is written with its wrap-around.  (With
      [ARMA_32BIT_WORD] the modulus is [2^32]; the proofs only use that the
      buffers are shorter than the modulus.)  Row counts and loop counters
      ([int], [unsigned int]) are naturals: the embedding assumes they fit
      their C types.  One counter leaves the naturals: the first backward
      loop of [ssfitterbackcast] compares its [int] counter with an
      [unsigned int], and the counter [-1] passes that guard; the turns it
      takes below zero are embedded with the conversions of C.
    - Armadillo checks element access and operand shapes and throws on a
      violation.  Every operation that can throw returns an [option];
      [None] is the exception.
    - The arithmetic on [double] is a parameter ([Scalar]): the theorems hold
      for every interpretation of the operations, and two interpretations are
      provided to run the code, IEEE binary64 and exact rationals extended
      with one non-finite value. *)

From Stdlib Require Import String Floats QArith Qabs Qreduction ZArith List Lia Bool.
Import ListNotations.

Set Implicit Arguments.
Local Open Scope nat_scope.

(** ** Scalars *)

Class Scalar (R : Type) := {
  zero : R;
  add : R -> R -> R;
  sub : R -> R -> R;
  mul : R -> R -> R;
  div : R -> R -> R;
  of_nat : nat -> R;          (* a count converted to the element type *)
  is_finite : R -> bool;      (* arma_isfinite *)
  NA_REAL : R                 (* R's missing-value sentinel *)
}.

(** ** Exceptions *)

Notation "x <- e ;; k" := (match e with Some x => k | None => None end)
  (at level 61, e at next level, right associativity).
Notation "' p <- e ;; k" := (match e with Some p => k | None => None end)
  (at level 61, p pattern, e at next level, right associativity).

Fixpoint mapM {A B} (f : A -> option B) (l : list A) : option (list B) :=
  match l with
  | [] => Some []
  | a :: l' => b <- f a ;; bs <- mapM f l' ;; Some (b :: bs)
  end.

(** A counted [for] loop over the listed values of the counter. *)
Fixpoint loop {S} (body : nat -> S -> option S) (ixs : list nat) (s : S) : option S :=
  match ixs with
  | [] => Some s
  | i :: ixs' => s' <- body i s ;; loop body ixs' s'
  end.

(** ** A loop whose [int] counter counts down

    [for (...; guard(i); i = i - 1)], followed from a given value of the
    counter, which may be below zero. *)

(** [i = i - 1]: no defined result at the least [int]. *)
Definition int_pred (i : Z) : option Z :=
  if (- 2 ^ 31 <? i)%Z then Some (i - 1)%Z else None.

(** [2^k - 1] turns of the loop at most: [inl s] once the guard has failed,
    [inr (i', s)] while the loop is running, then at the counter [i']. *)
Fixpoint turns_below {St} (k : nat) (guard : Z -> bool) (body : Z -> St -> option St)
    (i : Z) (s : St) : option (St + Z * St) :=
  match k with
  | 0 => Some (inr (i, s))
  | S k' =>
      if guard i then
        s1 <- body i s ;;
        i1 <- int_pred i ;;
        r <- turns_below k' guard body i1 s1 ;;
        match r with
        | inl s' => Some (inl s')
        | inr (i', s') => turns_below k' guard body i' s'
        end
      else Some (inl s)
  end.

(** The loop, given [2^k - 1] turns to end. *)
Definition loop_from {St} (k : nat) (guard : Z -> bool) (body : Z -> St -> option St)
    (i : Z) (s : St) : option St :=
  r <- turns_below k guard body i s ;;
  match r with
  | inl s' => Some s'
  | inr _ => None
  end.

(** The loop from the counter [-1] on.  It ends when the guard fails, when a
    turn raises, or when the counter leaves the [int]s: within the [2^31]
    values below zero, fewer than the [2^32 - 1] turns given here. *)
Definition loop_below {St} (guard : Z -> bool) (body : Z -> St -> option St) (s : St)
    : option St :=
  loop_from 32 guard body (-1) s.

Arguments loop_below : simpl never.

(** ** [arma::uword] and [unsigned int] *)

Definition uword_modulus : Z := 2 ^ 64.
Definition wrap (z : Z) : Z := z mod uword_modulus.

Definition uint_modulus : Z := 2 ^ 32.
Definition wrap_uint (z : Z) : Z := z mod uint_modulus.

Definition in_bounds (p : Z) (n : nat) : bool :=
  ((0 <=? p) && (p <? Z.of_nat n))%Z.

(** The bounds check of an access at index [p] of [n] items: the index, when
    it passes. *)
Definition checked (p : Z) (n : nat) : option nat :=
  if in_bounds p n then Some (Z.to_nat p) else None.

(** [max(lags)]: Armadillo throws on an empty vector. *)
Definition max_uvec (l : list nat) : option nat :=
  match l with
  | [] => None
  | a :: l' => Some (fold_left Nat.max l' a)
  end.

Fixpoint mapi_from {A B} (k : nat) (f : nat -> A -> B) (l : list A) : list B :=
  match l with
  | [] => []
  | a :: l' => f k a :: mapi_from (S k) f l'
  end.
Definition mapi {A B} (f : nat -> A -> B) (l : list A) : list B := mapi_from 0 f l.

(** [lags = maxlag - lags; for (i = 1; i < lagslength; i++) lags(i) = lags(i) + rowcount * i;] *)
Definition lag_offsets (rowcount maxlag : nat) (lags : list nat) : list Z :=
  mapi (fun k l =>
          let l1 := wrap (Z.of_nat maxlag - Z.of_nat l) in
          if k =? 0 then l1 else wrap (l1 + Z.of_nat (rowcount * k)))
       lags.

(** [lagrows = lags - maxlag + i] *)
Definition forward_lagrows (offs : list Z) (maxlag i : nat) : list Z :=
  map (fun l => wrap (wrap (l - Z.of_nat maxlag) + Z.of_nat i)) offs.

(** [backlags = lags; lags = maxlag - lags;
     for (i = 0; i < lagslength; i++) backlags(i) = obsallnew * (i+1) - lags(i);]
    The loop reads [lags] after it was replaced by [maxlag - lags]. *)
Definition backlag_offsets (obsallnew maxlag : nat) (lags : list nat) : list Z :=
  mapi (fun k l =>
          let l1 := wrap (Z.of_nat maxlag - Z.of_nat l) in
          wrap (Z.of_nat (obsallnew * (k + 1)) - l1))
       lags.

(** [lagrows = backlags + i - obsall] *)
Definition backward_lagrows (backlags : list Z) (obsall i : nat) : list Z :=
  map (fun b => wrap (wrap (b + Z.of_nat i) - Z.of_nat obsall)) backlags.

(** ** Armadillo matrices and vectors *)

Section Arma.
Context {R : Type} {SR : Scalar R}.

Record mat := Mat { n_rows : nat; n_cols : nat; mem : list R }.

Definition wf_mat (m : mat) : Prop := length (mem m) = n_rows m * n_cols m.

(** Unchecked access [m.at(r,c)] in the column-major buffer. *)
Definition at_ (m : mat) (r c : nat) : R := nth (r + c * n_rows m) (mem m) zero.

(** The matrix with entry [f r c] at row [r], column [c]. *)
Definition build (nr nc : nat) (f : nat -> nat -> R) : mat :=
  Mat nr nc (flat_map (fun c => map (fun r => f r c) (seq 0 nr)) (seq 0 nc)).

Definition zeros (nr nc : nat) : mat := build nr nc (fun _ _ => zero).

(** [m(p)] for a linear index, with Armadillo's bounds check. *)
Definition elem1 (m : mat) (p : Z) : option R :=
  if in_bounds p (length (mem m)) then Some (nth (Z.to_nat p) (mem m) zero) else None.

(** [m.elem(idx)], also written [m(idx)]: gather at linear indices. *)
Definition elem (m : mat) (idx : list Z) : option (list R) := mapM (elem1 m) idx.

Fixpoint upd {A} (p : nat) (v : A) (l : list A) : list A :=
  match l, p with
  | [], _ => []
  | _ :: l', 0 => v :: l'
  | a :: l', S p' => a :: upd p' v l'
  end.

(** [m.elem(idx) = vals]: scatter, in index order. *)
Fixpoint set_elem_list (l : list R) (idx : list Z) (vals : list R) : option (list R) :=
  match idx, vals with
  | [], [] => Some l
  | p :: idx', v :: vals' =>
      if in_bounds p (length l) then set_elem_list (upd (Z.to_nat p) v l) idx' vals' else None
  | _, _ => None
  end.

Definition set_elem (m : mat) (idx : list Z) (vals : list R) : option mat :=
  l <- set_elem_list (mem m) idx vals ;; Some (Mat (n_rows m) (n_cols m) l).

(** [find_nonfinite(m)]: the linear indices of the non-finite entries, ascending. *)
Definition find_nonfinite (m : mat) : list Z :=
  map Z.of_nat
      (filter (fun p => negb (is_finite (nth p (mem m) zero))) (seq 0 (length (mem m)))).

(** [m.elem(find_nonfinite(m)) = m.elem(find_nonfinite(m) - 1);]
    Source and target are the same matrix: Armadillo copies the gathered
    values before it writes. *)
Definition subst_prev (m : mat) : option mat :=
  let idx := find_nonfinite m in
  vals <- elem m (map (fun p => wrap (p - 1)) idx) ;;
  set_elem m idx vals.

(** [m.elem(find_nonfinite(m)) = m.elem(find_nonfinite(m) + 1);] *)
Definition subst_next (m : mat) : option mat :=
  let idx := find_nonfinite m in
  vals <- elem m (map (fun p => wrap (p + 1)) idx) ;;
  set_elem m idx vals.

(** [m.row(r)] read as a list of entries. *)
Definition row (m : mat) (r : nat) : option (list R) :=
  if r <? n_rows m then Some (map (at_ m r) (seq 0 (n_cols m))) else None.

(** [m.row(r) = trans(v)] for a column [v]: shapes must agree. *)
Definition set_row (m : mat) (r : nat) (v : list R) : option mat :=
  if (r <? n_rows m) && (length v =? n_cols m)
  then Some (build (n_rows m) (n_cols m)
               (fun i j => if i =? r then nth j v zero else at_ m i j))
  else None.

(** [m.submat(r1, c1, r2, c2)] with [uword] bounds. *)
Definition span_ok (a b : Z) (n : nat) : bool :=
  ((0 <=? a) && (a <=? b) && (b <? Z.of_nat n))%Z.

Definition submat (m : mat) (r1 c1 r2 c2 : Z) : option mat :=
  if span_ok r1 r2 (n_rows m) && span_ok c1 c2 (n_cols m)
  then Some (build (Z.to_nat (r2 - r1 + 1)) (Z.to_nat (c2 - c1 + 1))
               (fun r c => at_ m (Z.to_nat r1 + r) (Z.to_nat c1 + c)))
  else None.

(** [m.rows(r1, r2)] *)
Definition rows (m : mat) (r1 r2 : Z) : option mat :=
  if span_ok r1 r2 (n_rows m)
  then Some (build (Z.to_nat (r2 - r1 + 1)) (n_cols m)
               (fun r c => at_ m (Z.to_nat r1 + r) c))
  else None.

(** [m.submat(r1, c1, r2, c2) = src] *)
Definition set_submat (m : mat) (r1 c1 r2 c2 : Z) (src : mat) : option mat :=
  if span_ok r1 r2 (n_rows m) && span_ok c1 c2 (n_cols m)
     && (n_rows src =? Z.to_nat (r2 - r1 + 1)) && (n_cols src =? Z.to_nat (c2 - c1 + 1))
  then Some (build (n_rows m) (n_cols m)
               (fun r c =>
                  if (Z.to_nat r1 <=? r) && (r <=? Z.to_nat r2)
                     && (Z.to_nat c1 <=? c) && (c <=? Z.to_nat c2)
                  then at_ src (r - Z.to_nat r1) (c - Z.to_nat c1)
                  else at_ m r c))
  else None.

(** [m.resize(nr, nc)]: entries kept in place, new ones zero. *)
Definition resize (m : mat) (nr nc : nat) : mat :=
  build nr nc (fun r c => if (r <? n_rows m) && (c <? n_cols m) then at_ m r c else zero).

(** [m.set_size(nr, nc)].  Armadillo documents it as not preserving the
    elements.  When the element count shrinks its [Mat::init_warm] keeps the
    allocated buffer, so the matrix afterwards reads the first [nr * nc]
    entries of the old column-major buffer under the new row count; that is
    what is modelled.  (Releases that reallocate leave the entries
    uninitialised instead.)  Growth does not occur in the source. *)
Definition set_size (m : mat) (nr nc : nat) : mat :=
  Mat nr nc (firstn (nr * nc) (mem m) ++ repeat zero (nr * nc - length (mem m))).

(** *** Vectors ([arma::vec]) *)

(** [v(t)] *)
Definition vec_at (v : list R) (t : nat) : option R := nth_error v t.

(** [v.row(t) = x] or [v(t) = x] *)
Definition vec_set (v : list R) (t : nat) (x : R) : option (list R) :=
  if t <? length v then Some (upd t x v) else None.

(** [v.rows(a, b)] *)
Definition vec_rows (v : list R) (a b : Z) : option (list R) :=
  if span_ok a b (length v)
  then Some (firstn (Z.to_nat (b - a + 1)) (skipn (Z.to_nat a) v))
  else None.

(** Accumulation of a product of a row by a column, left to right. *)
Definition dotl (a b : list R) : R :=
  fold_left (fun acc xy => add acc (mul (fst xy) (snd xy))) (combine a b) zero.

(** [a * b] for a [1 x n] row and an [n x 1] column. *)
Definition dot (a b : list R) : option R :=
  if length a =? length b then Some (dotl a b) else None.

(** [F * x] for a column [x]. *)
Definition matvec (F : mat) (x : list R) : option (list R) :=
  if n_cols F =? length x
  then Some (map (fun r => dotl (map (at_ F r) (seq 0 (n_cols F))) x) (seq 0 (n_rows F)))
  else None.

Definition zipw (f : R -> R -> R) (a b : list R) : option (list R) :=
  if length a =? length b then Some (map (fun xy => f (fst xy) (snd xy)) (combine a b)) else None.

Definition vadd := zipw add.
Definition vsub := zipw sub.
Definition vdiv := zipw div.
Definition vscale (a : list R) (e : R) : list R := map (fun x => mul x e) a.

(** [accu(v)] and [mean(v)] *)
Definition accu (v : list R) : R := fold_left add v zero.
Definition mean (v : list R) : R := div (accu v) (of_nat (length v)).

(** [as_scalar(mean(v))]: the mean of an empty operand has no element, and
    [as_scalar] throws. *)
Definition as_scalar_mean (v : list R) : option R :=
  match v with
  | [] => None
  | _ => Some (mean v)
  end.

End Arma.

Arguments mat R : clear implicits.

(** ** The routines of [ssfun.cpp] *)

Section Routines.
Context {R : Type} {SR : Scalar R}.

(** What [ssfitter] and [ssfitterbackcast] return (an R list with these names). *)
Record fit := Fit { matxt : mat R; yfit : list R; errors : list R; xtreg : mat R }.

Definition fstate : Type := mat R * list R * list R.

(** The three assignments shared by the forward and the backward filter
    passes, for the gathered indices [lagrows], the period [t = i - maxlag]
    and the state row [i]:
<<
    matyfit.row(t) = matrixw.row(t) * matrixxt(lagrows) + wex.row(t) * trans(xtreg.row(t));
    materrors(t) = matyt(t) - matyfit(t);
    matrixxt.row(i) = trans(matrixF * matrixxt(lagrows) + matg / trans(matrixv.row(t)) * materrors(t));
>> *)
Definition filter_update (matrixF matrixw matrixv : mat R) (matyt matg : list R)
    (wex xtreg : mat R) (lagrows : list Z) (t i : nat) (st : fstate) : option fstate :=
  let '(matrixxt, matyfit, materrors) := st in
  x <- elem matrixxt lagrows ;;
  wr <- row matrixw t ;;
  wx <- dot wr x ;;
  er <- row wex t ;;
  xr <- row xtreg t ;;
  ex <- dot er xr ;;
  matyfit' <- vec_set matyfit t (add wx ex) ;;
  y <- vec_at matyt t ;;
  f <- vec_at matyfit' t ;;
  materrors' <- vec_set materrors t (sub y f) ;;
  Fx <- matvec matrixF x ;;
  vr <- row matrixv t ;;
  gv <- vdiv matg vr ;;
  e <- vec_at materrors' t ;;
  new <- vadd Fx (vscale gv e) ;;
  matrixxt' <- set_row matrixxt i new ;;
  Some (matrixxt', matyfit', materrors').

(** [matrixxt.row(i) = trans(matrixF * matrixxt(lagrows));] *)
Definition propagate_update (matrixF : mat R) (lagrows : list Z) (i : nat)
    (matrixxt : mat R) : option (mat R) :=
  x <- elem matrixxt lagrows ;;
  Fx <- matvec matrixF x ;;
  set_row matrixxt i Fx.

(** One turn of the loop of [ssfitter] (lines 35-40). *)
Definition ssfitter_step (matrixF matrixw matrixv : mat R) (matyt matg : list R)
    (wex xtreg : mat R) (offs : list Z) (maxlag : nat) (i : nat) (st : fstate)
    : option fstate :=
  '(xt1, matyfit, materrors) <-
     filter_update matrixF matrixw matrixv matyt matg wex xtreg
       (forward_lagrows offs maxlag i) (i - maxlag) i st ;;
  xt2 <- subst_prev xt1 ;;
  Some (xt2, matyfit, materrors).

Definition ssfitter (matrixxt matrixF matrixw matrixv : mat R) (matyt matg : list R)
    (lags : list nat) (wex xtreg : mat R) : option fit :=
  let obs := length matyt in
  let obsall := n_rows matrixxt in
  maxlag <- max_uvec lags ;;
  let offs := lag_offsets obsall maxlag lags in
  '(xt, matyfit, materrors) <-
     loop (ssfitter_step matrixF matrixw matrixv matyt matg wex xtreg offs maxlag)
          (seq maxlag (obsall - maxlag))
          (matrixxt, repeat zero obs, repeat zero obs) ;;
  Some (Fit xt matyfit materrors xtreg).

(** The four loops of one backcasting cycle (lines 110-143). *)
Definition backcast_tail_step (matrixF : mat R) (offs : list Z) (maxlag i : nat)
    (st : fstate) : option fstate :=
  let '(xt, matyfit, materrors) := st in
  xt1 <- propagate_update matrixF (forward_lagrows offs maxlag i) i xt ;;
  xt2 <- subst_prev xt1 ;;
  Some (xt2, matyfit, materrors).

Definition backcast_back_step (matrixF matrixw matrixv : mat R) (matyt matg : list R)
    (wex xtreg : mat R) (backlags : list Z) (obsall maxlag : nat) (i : nat) (st : fstate)
    : option fstate :=
  '(xt1, matyfit, materrors) <-
     filter_update matrixF matrixw matrixv matyt matg wex xtreg
       (backward_lagrows backlags obsall i) (i - maxlag) i st ;;
  xt2 <- subst_next xt1 ;;
  Some (xt2, matyfit, materrors).

Definition backcast_head_step (matrixF : mat R) (backlags : list Z) (obsall i : nat)
    (st : fstate) : option fstate :=
  let '(xt, matyfit, materrors) := st in
  xt1 <- propagate_update matrixF (backward_lagrows backlags obsall i) i xt ;;
  xt2 <- subst_next xt1 ;;
  Some (xt2, matyfit, materrors).

(** A turn of the backward filtering loop (lines 130-135) at a counter [i]
    below zero.  The counter is converted where it is used: [i - maxlag] is
    an [unsigned int], [backlags + i - obsall] and the row of
    [matrixxt.row(i)] are [uword]s.  The accesses are checked as at every
    other turn. *)
Definition backcast_back_step_below (matrixF matrixw matrixv : mat R) (matyt matg : list R)
    (wex xtreg : mat R) (backlags : list Z) (obsall maxlag : nat) (i : Z) (st : fstate)
    : option fstate :=
  let '(matrixxt, matyfit, _) := st in
  t <- checked (wrap_uint (i - Z.of_nat maxlag)) (length matyfit) ;;
  r <- checked (wrap i) (n_rows matrixxt) ;;
  '(xt1, matyfit', materrors') <-
     filter_update matrixF matrixw matrixv matyt matg wex xtreg
       (map (fun b => wrap (wrap (b + i) - Z.of_nat obsall)) backlags) t r st ;;
  xt2 <- subst_next xt1 ;;
  Some (xt2, matyfit', materrors').

(** The first backward loop, [for (int i = obsall-1; i >= maxlag; i = i-1)]
    (line 129).  The guard converts the counter to [unsigned int]: after the
    turns at the rows [obsall - 1] down to [maxlag] the counter is
    [min(obsall, maxlag) - 1], which fails the guard unless it is [-1];
    [-1] passes it as [2^32 - 1], and the loop goes on below zero. *)
Definition backcast_back_loop (matrixF matrixw matrixv : mat R) (matyt matg : list R)
    (wex xtreg : mat R) (backlags : list Z) (obsall maxlag : nat) (st : fstate)
    : option fstate :=
  st' <- loop (backcast_back_step matrixF matrixw matrixv matyt matg wex xtreg
                 backlags obsall maxlag)
              (rev (seq maxlag (obsall - maxlag))) st ;;
  if (maxlag =? 0) || (obsall =? 0)
  then loop_below (fun i => Z.of_nat maxlag <=? wrap_uint i)%Z
                  (backcast_back_step_below matrixF matrixw matrixv matyt matg wex xtreg
                     backlags obsall maxlag)
                  st'
  else Some st'.

Definition backcast_cycle (matrixF matrixw matrixv : mat R) (matyt matg : list R)
    (wex xtreg : mat R) (offs backlags : list Z) (obsall maxlag : nat)
    (j : nat) (st : fstate) : option fstate :=
  st1 <- loop (ssfitter_step matrixF matrixw matrixv matyt matg wex xtreg offs maxlag)
              (seq maxlag (obsall - maxlag)) st ;;
  st2 <- loop (backcast_tail_step matrixF offs maxlag) (seq obsall maxlag) st1 ;;
  if j <? 3 then
    st3 <- backcast_back_loop matrixF matrixw matrixv matyt matg wex xtreg
             backlags obsall maxlag st2 ;;
    loop (backcast_head_step matrixF backlags obsall) (rev (seq 0 maxlag)) st3
  else Some st2.

(** [ssfitterbackcast] up to, and without, the final [set_size] (lines 82-145). *)
Definition ssfitterbackcast_cycles (matrixxt matrixF matrixw matrixv : mat R)
    (matyt matg : list R) (lags : list nat) (wex xtreg : mat R) : option fstate :=
  let obs := length matyt in
  let obsall := n_rows matrixxt in
  maxlag <- max_uvec lags ;;
  let obsallnew := obsall + maxlag in
  let xt0 := resize matrixxt obsallnew (n_cols matrixxt) in
  let backlags := backlag_offsets obsallnew maxlag lags in
  let offs := lag_offsets obsallnew maxlag lags in
  loop (backcast_cycle matrixF matrixw matrixv matyt matg wex xtreg offs backlags
          obsall maxlag)
       (seq 0 4) (xt0, repeat zero obs, repeat zero obs).

Definition ssfitterbackcast (matrixxt matrixF matrixw matrixv : mat R)
    (matyt matg : list R) (lags : list nat) (wex xtreg : mat R) : option fit :=
  '(xt, matyfit, materrors) <-
     ssfitterbackcast_cycles matrixxt matrixF matrixw matrixv matyt matg lags wex xtreg ;;
  Some (Fit (set_size xt (n_rows matrixxt) (n_cols xt)) matyfit materrors xtreg).

(** One turn of the loop of [ssforecaster] (lines 202-204). *)
Definition ssforecaster_step (matrixF matrixw wex xtreg : mat R) (offs : list Z)
    (maxlag : nat) (i : nat) (st : mat R * list R) : option (mat R * list R) :=
  let '(matrixxtnew, matyfor) := st in
  let lagrows := forward_lagrows offs maxlag i in
  xt' <- propagate_update matrixF lagrows i matrixxtnew ;;
  x <- elem xt' lagrows ;;
  wr <- row matrixw (i - maxlag) ;;
  wx <- dot wr x ;;
  er <- row wex (i - maxlag) ;;
  xr <- row xtreg (i - maxlag) ;;
  ex <- dot er xr ;;
  matyfor' <- vec_set matyfor (i - maxlag) (add wx ex) ;;
  Some (xt', matyfor').

Definition ssforecaster (matrixxt matrixF matrixw : mat R) (hor : nat)
    (lags : list nat) (wex xtreg : mat R) : option (list R) :=
  maxlag <- max_uvec lags ;;
  let hh := hor + maxlag in
  let matrixxtnew := zeros hh (n_cols matrixxt) in
  let offs := lag_offsets hh maxlag lags in
  let r2 := wrap (Z.of_nat maxlag - 1) in
  let c2 := wrap (Z.of_nat (n_cols matrixxtnew) - 1) in
  src <- submat matrixxt 0 0 r2 c2 ;;
  xt0 <- set_submat matrixxtnew 0 0 r2 c2 src ;;
  '(_, matyfor) <-
     loop (ssforecaster_step matrixF matrixw wex xtreg offs maxlag)
          (seq maxlag hor) (xt0, repeat zero hor) ;;
  Some matyfor.

(** One turn of the loop of [sserrorer] (lines 241-244). *)
Definition sserrorer_step (matrixxt matrixF matrixw : mat R) (matyt : list R)
    (hor : nat) (lags : list nat) (wex xtreg : mat R) (maxlag : nat)
    (i : nat) (materrors : mat R) : option (mat R) :=
  let obs := length matyt in
  let hh := Nat.min hor (obs + maxlag - i) in
  let t := Z.of_nat (i - maxlag) in
  let last := wrap (t + Z.of_nat hh - 1) in
  xs <- rows matrixxt t (wrap (Z.of_nat i - 1)) ;;
  ws <- rows matrixw t last ;;
  wexs <- rows wex t last ;;
  xtregs <- rows xtreg t last ;;
  fc <- ssforecaster xs matrixF ws hh lags wexs xtregs ;;
  ys <- vec_rows matyt t last ;;
  d <- vsub ys fc ;;
  set_submat materrors t 0 t (wrap (Z.of_nat hh - 1)) (Mat 1 (length d) d).

Definition sserrorer (matrixxt matrixF matrixw : mat R) (matyt : list R)
    (hor : nat) (lags : list nat) (wex xtreg : mat R) : option (mat R) :=
  let obs := length matyt in
  maxlag <- max_uvec lags ;;
  loop (sserrorer_step matrixxt matrixF matrixw matyt hor lags wex xtreg maxlag)
       (seq maxlag obs)
       (build obs hor (fun _ _ => NA_REAL)).

End Routines.

Arguments fit R : clear implicits.
Arguments fstate R : clear implicits.

(** The numerics of libm and of Armadillo's decompositions that
    [ssoptimizer] calls.  They are outside the source and stay abstract.
    [gv_cost E normalize matobs hor] stands for the whole right-hand side of
    the [GV] branch: the logarithm of the product of the eigenvalues of
    [trans(E / normalize) * (E / normalize) / matobs] or, when [eig_sym]
    throws, of its determinant, plus [hor * log(pow(normalize,2))]. *)
Record libm (R : Type) := Libm {
  log : R -> R;
  fabs : R -> R;
  pow : R -> R -> R;
  gv_cost : mat R -> R -> nat -> nat -> R
}.

Section Optimizer.
Context {R : Type} {SR : Scalar R} (L : libm R).

Definition two : R := of_nat 2.
Definition half : R := div (of_nat 1) (of_nat 2).

(** [log(mean(pow(materrors.submat(0,i,obs-i-1,i),2)))] added to [CFres], for
    the postprocessing [f] of the mean ([log] for [TLV], nothing for [TV]). *)
Definition trace_step (f : R -> R) (materrors : mat R) (obs : nat) (i : nat) (CFres : R)
    : option R :=
  col <- submat materrors 0 (Z.of_nat i) (wrap (Z.of_nat obs - Z.of_nat i - 1)) (Z.of_nat i) ;;
  m <- as_scalar_mean (map (fun e => pow L e two) (mem col)) ;;
  Some (add CFres (f m)).

Definition ssoptimizer (matrixxt matrixF matrixw matrixv : mat R) (matyt matg : list R)
    (hor : nat) (lags : list nat) (CFtype : string) (normalize : R) (backcasting : bool)
    (wex xtreg : mat R) : option R :=
  let obs := length matyt in
  fitting <- (if backcasting
              then ssfitterbackcast matrixxt matrixF matrixw matrixv matyt matg lags wex xtreg
              else ssfitter matrixxt matrixF matrixw matrixv matyt matg lags wex xtreg) ;;
  let 'Fit matrixxt _ errorsfromfit xtreg := fitting in
  if (CFtype =? "GV")%string then
    materrors <- sserrorer matrixxt matrixF matrixw matyt hor lags wex xtreg ;;
    if obs + 1 <? hor then None
    else
      let matobs := obs + 1 - hor in
      Some (gv_cost L (resize materrors matobs hor) normalize matobs hor)
  else if (CFtype =? "TLV")%string then
    materrors <- sserrorer matrixxt matrixF matrixw matyt hor lags wex xtreg ;;
    loop (trace_step (log L) materrors obs) (seq 0 hor) zero
  else if (CFtype =? "TV")%string then
    materrors <- sserrorer matrixxt matrixF matrixw matyt hor lags wex xtreg ;;
    loop (trace_step (fun x => x) materrors obs) (seq 0 hor) zero
  else if (CFtype =? "hsteps")%string then
    materrors <- sserrorer matrixxt matrixF matrixw matyt hor lags wex xtreg ;;
    col <- submat materrors 0 (wrap (Z.of_nat hor - 1))
                  (wrap (Z.of_nat obs - Z.of_nat hor)) (wrap (Z.of_nat hor - 1)) ;;
    as_scalar_mean (map (fun e => pow L e two) (mem col))
  else if (CFtype =? "MSE")%string then
    as_scalar_mean (map (fun e => pow L e two) errorsfromfit)
  else if (CFtype =? "MAE")%string then
    as_scalar_mean (map (fabs L) errorsfromfit)
  else
    as_scalar_mean (map (fun e => pow L (fabs L e) half) errorsfromfit).

End Optimizer.

(** ** Two interpretations of the arithmetic *)

(** IEEE binary64, the [double] of the source.  Rocq's floats have a single
    NaN, which also stands for [NA_REAL] (a NaN with a payload in R). *)
#[export] Instance float_scalar : Scalar float := {|
  zero := 0%float;
  add := PrimFloat.add;
  sub := PrimFloat.sub;
  mul := PrimFloat.mul;
  div := PrimFloat.div;
  of_nat n := PrimFloat.of_uint63 (Uint63.of_Z (Z.of_nat n));
  is_finite x := negb (PrimFloat.is_nan x || PrimFloat.is_infinity x);
  NA_REAL := nan
|}.

(** Exact rationals in lowest terms, with [None] for every non-finite
    result (here: a division by zero and whatever is computed from one). *)
Definition xq : Type := option Q.

Definition xq_lift (f : Q -> Q -> Q) (a b : xq) : xq :=
  match a, b with
  | Some x, Some y => Some (Qred (f x y))
  | _, _ => None
  end.

#[export] Instance xq_scalar : Scalar xq := {|
  zero := Some 0%Q;
  add := xq_lift Qplus;
  sub := xq_lift Qminus;
  mul := xq_lift Qmult;
  div a b := match b with
             | Some y => if Qeq_bool y 0 then None else xq_lift Qdiv a b
             | None => None
             end;
  of_nat n := Some (inject_Z (Z.of_nat n));
  is_finite x := match x with Some _ => true | None => false end;
  NA_REAL := None
|}.

(** The numerics over the exact rationals: squares and absolute values are
    exact; the logarithm, the other powers and the [GV] decomposition have no
    rational value and return the non-finite element. *)
Definition xq_libm : libm xq := {|
  log := fun _ => None;
  fabs := fun x => match x with Some q => Some (Qred (Qabs q)) | None => None end;
  pow := fun x k => match k with
                    | Some q => if Qeq_bool q 2 then mul x x else None
                    | None => None
                    end;
  gv_cost := fun _ _ _ _ => None
|}.

(** ** The vocabulary of the statements *)

Section Vocabulary.
Context {R : Type} {SR : Scalar R}.

(** The positions of the non-finite entries of a buffer. *)
Definition nonfinite_at (l : list R) (p : nat) : bool := negb (is_finite (nth p l zero)).

Definition nonfinite_positions (l : list R) : list nat :=
  filter (nonfinite_at l) (seq 0 (length l)).

(** Row [r] of [m]. *)
Definition rowv (m : mat R) (r : nat) : list R := map (at_ m r) (seq 0 (n_cols m)).

(** The lagged state at row [i]: component [k] read at row [i - lag_k]. *)
Definition lagged (xt : mat R) (lags : list nat) (i : nat) : list R :=
  mapi (fun k l => at_ xt (i - l) k) lags.

(** [measurement[t] . laggedState + exogRow[t] . exogCoefRow[t]] *)
Definition fitted_value (matrixw wex xr : mat R) (x : list R) (t : nat) : R :=
  add (dotl (rowv matrixw t) x) (dotl (rowv wex t) (rowv xr t)).

(** [transition . laggedState + (persistence / scaleRow[t]) . residual] *)
Definition new_state_row (matrixF matrixv : mat R) (matg : list R) (x : list R)
    (t : nat) (e : R) : list R :=
  map (fun ab => add (fst ab) (snd ab))
      (combine (map (fun r => dotl (rowv matrixF r) x) (seq 0 (n_rows matrixF)))
               (vscale (map (fun gv => div (fst gv) (snd gv))
                            (combine matg (rowv matrixv t))) e)).

(** The shapes the routines expect (the comments in the source and section 6
    of the specification), and lags of at least one period. *)
Record inputs_ok (matrixxt matrixF matrixw matrixv : mat R) (matyt matg : list R)
    (lags : list nat) (wex xr : mat R) (maxlag : nat) : Prop := {
  ok_maxlag : max_uvec lags = Some maxlag;
  ok_lags : Forall (fun l => 1 <= l) lags;
  ok_xt_len : length (mem matrixxt) = n_rows matrixxt * n_cols matrixxt;
  ok_xt_cols : n_cols matrixxt = length lags;
  ok_xt_rows : n_rows matrixxt = length matyt + maxlag;
  ok_F_rows : n_rows matrixF = length lags;
  ok_F_cols : n_cols matrixF = length lags;
  ok_w_rows : n_rows matrixw = length matyt;
  ok_w_cols : n_cols matrixw = length lags;
  ok_v_rows : n_rows matrixv = length matyt;
  ok_v_cols : n_cols matrixv = length lags;
  ok_g : length matg = length lags;
  ok_wex_rows : n_rows wex = length matyt;
  ok_xr_rows : n_rows xr = length matyt;
  ok_ex_cols : n_cols wex = n_cols xr;
  ok_fit : (Z.of_nat ((n_rows matrixxt + maxlag) * (length lags + 1)) < uword_modulus)%Z
}.

Definition finite_head (m : mat R) : Prop :=
  forall x, nth_error (mem m) 0 = Some x -> is_finite x = true.

Definition shape_ok (m : mat R) (nr nc : nat) : Prop :=
  n_rows m = nr /\ n_cols m = nc /\ length (mem m) = nr * nc.

(** The first [n] rows of [m] are finite; as a check, for the pre-sample
    rows of a state history. *)
Definition rows_finite (m : mat R) (n : nat) : Prop :=
  forall r c, r < n -> c < n_cols m -> is_finite (at_ m r c) = true.

Definition presample_finite (m : mat R) (maxlag : nat) : bool :=
  forallb (fun c => forallb (fun r => is_finite (at_ m r c)) (seq 0 maxlag))
          (seq 0 (n_cols m)).

(** The shapes [sserrorer] expects, and a horizon of at least one step. *)
Record errorer_ok (matrixxt matrixF matrixw : mat R) (matyt : list R) (hor : nat)
    (lags : list nat) (wex xr : mat R) (maxlag : nat) : Prop := {
  eok_maxlag : max_uvec lags = Some maxlag;
  eok_lags : Forall (fun l => 1 <= l) lags;
  eok_hor : 1 <= hor;
  eok_xt_rows : n_rows matrixxt = length matyt + maxlag;
  eok_xt_cols : n_cols matrixxt = length lags;
  eok_F_rows : n_rows matrixF = length lags;
  eok_F_cols : n_cols matrixF = length lags;
  eok_w_rows : n_rows matrixw = length matyt;
  eok_w_cols : n_cols matrixw = length lags;
  eok_wex_rows : n_rows wex = length matyt;
  eok_xr_rows : n_rows xr = length matyt;
  eok_ex_cols : n_cols wex = n_cols xr;
  eok_fit : (Z.of_nat (n_rows matrixxt * (length lags + 1)) < uword_modulus)%Z
}.

(** The forecast from origin [i]: the call of [ssforecaster] inside the loop
    of [sserrorer], with its arguments. *)
Definition origin_forecast (matrixxt matrixF matrixw : mat R) (matyt : list R)
    (hor : nat) (lags : list nat) (wex xr : mat R) (maxlag i : nat)
    : option (list R) :=
  let hh := Nat.min hor (length matyt + maxlag - i) in
  let t := Z.of_nat (i - maxlag) in
  let last := wrap (t + Z.of_nat hh - 1) in
  xs <- rows matrixxt t (wrap (Z.of_nat i - 1)) ;;
  ws <- rows matrixw t last ;;
  wexs <- rows wex t last ;;
  xtregs <- rows xr t last ;;
  ssforecaster xs matrixF ws hh lags wexs xtregs.

End Vocabulary.

Section CostVocabulary.
Context {R : Type} {SR : Scalar R} (L : libm R).

(** The mean of the squares of the first [n] entries of column [c]. *)
Definition column_mean_square (E : mat R) (c n : nat) : R :=
  mean (map (fun r => pow L (at_ E r c) two) (seq 0 n)).

(** The trace costs as the specification words them: horizon columns
    [h = 1 .. hor], each mean over the first [obs - h] rows. *)
Definition trace_as_specified (f : R -> R) (E : mat R) (obs hor : nat) : R :=
  accu (map (fun h => f (column_mean_square E (h - 1) (obs - h))) (seq 1 hor)).

End CostVocabulary.

(** The backward offsets as the specification words them:
    [backlag_k = obsAllNew * (k+1) - lag_k]. *)
Definition backlag_as_specified (obsallnew : nat) (lags : list nat) : list Z :=
  mapi (fun k l => (Z.of_nat (obsallnew * (k + 1)) - Z.of_nat l)%Z) lags.

(** ** The vocabulary of the forecasts and of the backward pass *)

Section ForecastVocabulary.
Context {R : Type} {SR : Scalar R}.

(** The shapes [ssforecaster] expects (the comment at its head: a state
    matrix of at least [maxlag] rows, and [hor] rows or more in [matrixw],
    [wex] and [xtreg]), and lags of at least one period. *)
Record forecaster_ok (matrixxt matrixF matrixw : mat R) (hor : nat)
    (lags : list nat) (wex xr : mat R) (maxlag : nat) : Prop := {
  fok_maxlag : max_uvec lags = Some maxlag;
  fok_lags : Forall (fun l => 1 <= l) lags;
  fok_xt_rows : maxlag <= n_rows matrixxt;
  fok_xt_cols : n_cols matrixxt = length lags;
  fok_F_rows : n_rows matrixF = length lags;
  fok_F_cols : n_cols matrixF = length lags;
  fok_w_rows : hor <= n_rows matrixw;
  fok_w_cols : n_cols matrixw = length lags;
  fok_wex_rows : hor <= n_rows wex;
  fok_xr_rows : hor <= n_rows xr;
  fok_ex_cols : n_cols wex = n_cols xr;
  fok_fit : (Z.of_nat ((hor + maxlag) * (length lags + 1)) < uword_modulus)%Z
}.

(** [matrixF * x] as a list of inner products. *)
Definition transition_row (matrixF : mat R) (x : list R) : list R :=
  map (fun r => dotl (rowv matrixF r) x) (seq 0 (n_rows matrixF)).

(** The state matrix the forecaster builds from origin [i], as far as step
    [n]: it starts with the [maxlag] rows of the history before row [i] and
    goes on with the transition applied to its own lagged rows. *)
Definition extrapolated (matrixxt matrixF : mat R) (lags : list nat) (maxlag i n : nat)
    (X : mat R) : Prop :=
  n_cols X = length lags /\
  (forall r c, r < maxlag -> c < length lags ->
     at_ X r c = at_ matrixxt (i - maxlag + r) c) /\
  forall h, h < n ->
    rowv X (maxlag + h) = transition_row matrixF (lagged X lags (maxlag + h)).

(** The leading state at row [i]: component [k] read at row [i + lag_k]. *)
Definition leading (xt : mat R) (lags : list nat) (i : nat) : list R :=
  mapi (fun k l => at_ xt (i + l) k) lags.

(** A fitted value and a residual that belong together. *)
Definition residual_at (matyt fitv errv : list R) (t : nat) : Prop :=
  exists y f, nth_error matyt t = Some y /\ nth_error fitv t = Some f /\
              nth_error errv t = Some (sub y f).

(** Two loop states whose vectors have the same lengths. *)
Definition same_lengths (st st' : fstate R) : Prop :=
  length (snd (fst st')) = length (snd (fst st)) /\ length (snd st') = length (snd st).

End ForecastVocabulary.

Section TurnVocabulary.
Context {R : Type} {SR : Scalar R}.

(** What one turn of a loop of the filters leaves: row [i] was written and
    the matrix repaired from the neighbouring row [nb].  The shape is kept,
    a finite entry of another row is kept, and an entry of row [i] is
    finite as soon as its neighbour was. *)
Definition turn_ok (rc nc : nat) (xt xt' : mat R) (i nb : nat) : Prop :=
  shape_ok xt' rc nc /\
  (forall r c, r < rc -> c < nc -> r <> i -> is_finite (at_ xt r c) = true ->
     at_ xt' r c = at_ xt r c) /\
  (forall c, c < nc -> is_finite (at_ xt nb c) = true -> is_finite (at_ xt' i c) = true).

End TurnVocabulary.

(** ** Inputs the statements are run on *)

(** The scenario of the specification.

    One state component with lag 1, transition 1, measurement 1,
    persistence 0.3, scale 1, no exogenous variable, the series 1..5 and the
    initial state 0.  The state history has [obs + maxlag = 6] rows. *)

Section Scenario.
Context {R : Type} {SR : Scalar R}.

Definition col1 (v : list R) : mat R := Mat (length v) 1 v.
Definition num (n : nat) : R := of_nat n.
Definition ratio (n d : nat) : R := div (of_nat n) (of_nat d).

Definition sc_matrixxt : mat R := col1 (repeat zero 6).
Definition sc_matrixF : mat R := col1 [num 1].
Definition sc_matrixw : mat R := col1 (repeat (num 1) 5).
Definition sc_matrixv : mat R := col1 (repeat (num 1) 5).
Definition sc_matyt : list R := map num [1; 2; 3; 4; 5].
Definition sc_matg : list R := [ratio 3 10].
Definition sc_lags : list nat := [1].
Definition sc_wex : mat R := Mat 5 0 [].
Definition sc_xtreg : mat R := Mat 5 0 [].

Definition sc_fit : option (fit R) :=
  ssfitter sc_matrixxt sc_matrixF sc_matrixw sc_matrixv sc_matyt sc_matg sc_lags
           sc_wex sc_xtreg.

End Scenario.

(** The rolling-origin errors of the scenario, from the fitted state. *)
Definition sc_rolling (hor : nat) : option (mat xq) :=
  f <- sc_fit ;;
  sserrorer (matxt f) sc_matrixF sc_matrixw sc_matyt hor sc_lags sc_wex (xtreg f).

(** The scenario with a NaN as initial state. *)
Definition nan_matrixxt : mat float := col1 (nan :: repeat 0%float 5).

Section TwoComponents.
Context {R : Type} {SR : Scalar R}.

(** Two components of lag 1 that the filter leaves alone (identity
    transition, zero persistence): the state is [1, 2] at every period. *)
Definition tc_matrixxt : mat R := Mat 3 2 [num 1; zero; zero; num 2; zero; zero].
Definition tc_matrixF : mat R := Mat 2 2 [num 1; zero; zero; num 1].
Definition tc_matrixw : mat R := Mat 2 2 (repeat (num 1) 4).
Definition tc_matrixv : mat R := Mat 2 2 (repeat (num 1) 4).
Definition tc_matyt : list R := [num 3; num 3].
Definition tc_matg : list R := [zero; zero].
Definition tc_lags : list nat := [1; 1].
Definition tc_wex : mat R := Mat 2 0 [].
Definition tc_xtreg : mat R := Mat 2 0 [].

End TwoComponents.

(** Two components of lags 1 and 3 over three observations; the last
    pre-sample row of the first component is a NaN. *)
Definition ps_matrixxt : mat float :=
  Mat 6 2 [1; 1; nan; 0; 0; 0; 2; 2; 2; 0; 0; 0]%float.
Definition ps_matrixF : mat float := Mat 2 2 [1; 0; 0; 1]%float.
Definition ps_matrixw : mat float := Mat 3 2 [1; 1; 1; 1; 1; 1]%float.
Definition ps_matyt : list float := [3; 3; 3]%float.
Definition ps_matg : list float := [0.5; 0.5]%float.
Definition ps_lags : list nat := [1; 3].
Definition ps_wex : mat float := Mat 3 0 [].

Section MoreInputs.
Context {R : Type} {SR : Scalar R}.

(** The scenario with a scale of zero: every update divides by zero. *)
Definition sc_zero_scale : mat R := col1 (repeat zero 5).

(** The scenario with a state history two rows short. *)
Definition sc_short_matrixxt : mat R := col1 (repeat zero 4).

(** A state of one row to forecast from. *)
Definition sc_origin : mat R := col1 [num 2].

(** The scenario without a pre-sample row, for a lag of zero. *)
Definition sc_no_presample : mat R := col1 (repeat zero 5).

(** One exogenous variable for the scenario, and its coefficients. *)
Definition sc_wex_one : mat R := col1 (map num [1; 0; 1; 0; 1]).
Definition sc_xtreg_one : mat R := col1 (map num [2; 3; 5; 7; 11]).

End MoreInputs.

(** The state history of the scenario with another last row. *)
Definition sc_other_last : mat float := col1 [0; 0; 0; 0; 0; 7]%float.

(** A matrix with two neighbouring non-finite entries, the second one at the
    head of a column. *)
Definition gap_matrix : mat float := Mat 2 2 [1; nan; nan; 4]%float.

(** A state history of two components and three rows, extended by one row,
    and a transition that adds the first component to the second. *)
Definition pt_matrixxt : mat float := Mat 4 2 [1; 2; 3; 0; 4; 5; 6; 0]%float.
Definition pt_matrixF : mat float := Mat 2 2 [1; 1; 0; 1]%float.

(** * Proofs *)

Set Warnings "-inexact-float".

Ltac shapes_ok :=
  constructor;
  first [ reflexivity | solve [repeat constructor] | solve [vm_compute; lia]
        | solve [vm_compute; reflexivity] ].

(** ** Arithmetic modulo the word size *)

Lemma uword_modulus_pos : (0 < uword_modulus)%Z.
Proof. reflexivity. Qed.

Lemma wrap_small (z : Z) : (0 <= z < uword_modulus)%Z -> wrap z = z.
Proof. intros Hz. unfold wrap. apply Z.mod_small. exact Hz. Qed.

Lemma wrap_add_l (a b : Z) : wrap (wrap a + b) = wrap (a + b).
Proof. unfold wrap. apply Zplus_mod_idemp_l. Qed.

Lemma wrap_sub_l (a b : Z) : wrap (wrap a - b) = wrap (a - b).
Proof. unfold wrap. apply Zminus_mod_idemp_l. Qed.

Lemma wrap_sub_r (a b : Z) : wrap (a - wrap b) = wrap (a - b).
Proof. unfold wrap. apply Zminus_mod_idemp_r. Qed.

Lemma wrap_minus_one : wrap (0 - 1) = (uword_modulus - 1)%Z.
Proof. reflexivity. Qed.

(** ** Loops and traversals *)

Lemma loop_app {S} (body : nat -> S -> option S) (l1 l2 : list nat) (s : S) :
  loop body (l1 ++ l2) s = (s1 <- loop body l1 s ;; loop body l2 s1).
Proof.
  revert s. induction l1 as [|i l1 IH]; intros s; simpl.
  - reflexivity.
  - destruct (body i s) as [s'|]; [apply IH | reflexivity].
Qed.

Lemma loop_invariant {S} (P : S -> Prop) (body : nat -> S -> option S) (l : list nat) :
  (forall i s s', In i l -> P s -> body i s = Some s' -> P s') ->
  forall s s', P s -> loop body l s = Some s' -> P s'.
Proof.
  induction l as [|i l IH]; intros Hb s s' Hs Hl; simpl in Hl.
  - inversion Hl; subst; exact Hs.
  - destruct (body i s) as [s1|] eqn:E; [|discriminate].
    apply IH with (s := s1); auto.
    + intros j t t' Hj. apply Hb. right; exact Hj.
    + apply (Hb i s s1); auto. left; reflexivity.
Qed.

Lemma mapM_none {A B} (f : A -> option B) (l : list A) (a : A) :
  In a l -> f a = None -> mapM f l = None.
Proof.
  induction l as [|x l IH]; intros Hin Hf; simpl in *.
  - contradiction.
  - destruct Hin as [->|Hin].
    + rewrite Hf. reflexivity.
    + destruct (f x); [rewrite IH by assumption|]; reflexivity.
Qed.

Lemma mapi_from_length {A B} (f : nat -> A -> B) (l : list A) (k : nat) :
  length (mapi_from k f l) = length l.
Proof. revert k. induction l; intros k; simpl; auto. Qed.

Lemma mapi_from_nth {A B} (f : nat -> A -> B) (l : list A) (k j : nat) (a : A) :
  nth_error l j = Some a -> nth_error (mapi_from k f l) j = Some (f (k + j) a).
Proof.
  revert k j. induction l as [|x l IH]; intros k j Hj.
  - destruct j; discriminate.
  - destruct j as [|j]; simpl in *.
    + inversion Hj; subst. rewrite Nat.add_0_r. reflexivity.
    + rewrite (IH (S k) j Hj). f_equal. f_equal. lia.
Qed.

Lemma mapi_length {A B} (f : nat -> A -> B) (l : list A) : length (mapi f l) = length l.
Proof. apply mapi_from_length. Qed.

Lemma mapi_nth {A B} (f : nat -> A -> B) (l : list A) (j : nat) (a : A) :
  nth_error l j = Some a -> nth_error (mapi f l) j = Some (f j a).
Proof. intros Hj. unfold mapi. rewrite (mapi_from_nth f l 0 j Hj). reflexivity. Qed.

(** ** The column-major buffer *)

Section Buffers.
Context {R : Type} {SR : Scalar R}.

Lemma upd_length {A} (p : nat) (v : A) (l : list A) : length (upd p v l) = length l.
Proof.
  revert p. induction l as [|a l IH]; intros [|p]; simpl; auto.
Qed.

Lemma upd_nth_same {A} (p : nat) (v d : A) (l : list A) :
  p < length l -> nth p (upd p v l) d = v.
Proof.
  revert p. induction l as [|a l IH]; intros [|p] Hp; simpl in *; try lia; auto.
  apply IH. lia.
Qed.

Lemma upd_nth_other {A} (p q : nat) (v d : A) (l : list A) :
  p <> q -> nth q (upd p v l) d = nth q l d.
Proof.
  revert p q. induction l as [|a l IH]; intros [|p] [|q] Hpq; simpl; auto; try lia.
Qed.

Lemma upd_nth_error_same {A} (p : nat) (v : A) (l : list A) :
  p < length l -> nth_error (upd p v l) p = Some v.
Proof.
  revert p. induction l as [|a l IH]; intros [|p] Hp; simpl in *; try lia; auto.
  apply IH. lia.
Qed.

Lemma upd_nth_error_other {A} (p q : nat) (v : A) (l : list A) :
  p <> q -> nth_error (upd p v l) q = nth_error l q.
Proof.
  revert p q. induction l as [|a l IH]; intros [|p] [|q] Hpq; simpl; auto; try lia.
Qed.

Lemma blocks_length (g : nat -> list R) (nr n start : nat) :
  (forall c, length (g c) = nr) -> length (flat_map g (seq start n)) = n * nr.
Proof.
  intros Hg. revert start. induction n as [|n IH]; intros start; simpl.
  - reflexivity.
  - rewrite length_app, Hg, IH. reflexivity.
Qed.

Lemma blocks_nth (g : nat -> list R) (nr n start r c : nat) (d : R) :
  (forall c, length (g c) = nr) -> r < nr -> c < n ->
  nth (r + c * nr) (flat_map g (seq start n)) d = nth r (g (start + c)) d.
Proof.
  intros Hg Hr. revert start c. induction n as [|n IH]; intros start c Hc; [lia|].
  cbn [flat_map seq]. destruct c as [|c].
  - replace (r + 0 * nr) with r by lia. replace (start + 0) with start by lia.
    apply app_nth1. rewrite Hg. exact Hr.
  - rewrite app_nth2 by (rewrite Hg; lia).
    rewrite Hg. replace (r + S c * nr - nr) with (r + c * nr) by lia.
    rewrite IH by lia. replace (S start + c) with (start + S c) by lia. reflexivity.
Qed.

Lemma build_rows nr nc (f : nat -> nat -> R) : n_rows (build nr nc f) = nr.
Proof. reflexivity. Qed.

Lemma build_cols nr nc (f : nat -> nat -> R) : n_cols (build nr nc f) = nc.
Proof. reflexivity. Qed.

Lemma build_length nr nc (f : nat -> nat -> R) : length (mem (build nr nc f)) = nr * nc.
Proof.
  unfold build; simpl. rewrite blocks_length with (nr := nr).
  - lia.
  - intros c. rewrite length_map, length_seq. reflexivity.
Qed.

Lemma build_wf nr nc (f : nat -> nat -> R) : wf_mat (build nr nc f).
Proof. unfold wf_mat. rewrite build_length. reflexivity. Qed.

Lemma build_at nr nc (f : nat -> nat -> R) r c : r < nr -> c < nc -> at_ (build nr nc f) r c = f r c.
Proof.
  intros Hr Hc. unfold at_, build; simpl.
  rewrite blocks_nth with (nr := nr); auto.
  - simpl. rewrite nth_indep with (d' := f 0 c) by (rewrite length_map, length_seq; lia).
    rewrite (map_nth (fun r => f r c) (seq 0 nr) 0 r). rewrite seq_nth by lia. reflexivity.
  - intros c'. rewrite length_map, length_seq. reflexivity.
Qed.

Lemma position_bound (nr nc r c : nat) : r < nr -> c < nc -> r + c * nr < nr * nc.
Proof. intros Hr Hc. nia. Qed.

End Buffers.

(** ** Gather, scatter and the repair of non-finite entries *)

Section Repair.
Context {R : Type} {SR : Scalar R}.

Lemma find_nonfinite_positions (m : mat R) :
  find_nonfinite m = map Z.of_nat (nonfinite_positions (mem m)).
Proof. reflexivity. Qed.

Lemma nonfinite_positions_in (l : list R) (p : nat) :
  In p (nonfinite_positions l) <-> p < length l /\ is_finite (nth p l zero) = false.
Proof.
  unfold nonfinite_positions, nonfinite_at. rewrite filter_In, in_seq, negb_true_iff.
  split; intros [H1 H2]; split; auto; lia.
Qed.

Lemma nonfinite_positions_nodup (l : list R) : NoDup (nonfinite_positions l).
Proof. apply NoDup_filter, seq_NoDup. Qed.

Lemma in_bounds_of_nat (p n : nat) : in_bounds (Z.of_nat p) n = (p <? n).
Proof.
  unfold in_bounds. destruct (Nat.ltb_spec p n).
  - apply andb_true_iff; split; [apply Z.leb_le | apply Z.ltb_lt]; lia.
  - apply andb_false_iff; right. apply Z.ltb_ge. lia.
Qed.

Lemma elem1_of_nat (m : mat R) (p : nat) :
  p < length (mem m) -> elem1 m (Z.of_nat p) = Some (nth p (mem m) zero).
Proof.
  intros Hp. unfold elem1. rewrite in_bounds_of_nat.
  destruct (Nat.ltb_spec p (length (mem m))); [|lia].
  rewrite Nat2Z.id. reflexivity.
Qed.

Lemma set_elem_list_spec (idx : list nat) :
  forall (vals l : list R),
    NoDup idx -> (forall p, In p idx -> p < length l) -> length vals = length idx ->
    exists l',
      set_elem_list l (map Z.of_nat idx) vals = Some l' /\
      length l' = length l /\
      (forall q, ~ In q idx -> nth q l' zero = nth q l zero) /\
      (forall j p, nth_error idx j = Some p -> nth p l' zero = nth j vals zero).
Proof.
  induction idx as [|p idx IH]; intros vals l Hnd Hlt Hlen.
  - destruct vals; [|discriminate]. exists l. repeat split; auto.
    intros [|j] p Hj; discriminate.
  - destruct vals as [|v vals]; [discriminate|]. simpl.
    rewrite in_bounds_of_nat.
    assert (Hp : p < length l) by (apply Hlt; left; reflexivity).
    destruct (Nat.ltb_spec p (length l)); [|lia].
    rewrite Nat2Z.id. inversion Hnd as [|? ? Hnotin Hnd']; subst.
    destruct (IH vals (upd p v l) Hnd') as [l' [E [Hl [Hout Hin]]]].
    + intros q Hq. rewrite upd_length. apply Hlt. right; exact Hq.
    + simpl in Hlen. lia.
    + exists l'. split; [exact E|]. split; [rewrite Hl; apply upd_length|]. split.
      * intros q Hq. rewrite Hout by (intros C; apply Hq; right; exact C).
        apply upd_nth_other. intros C; apply Hq; left; exact C.
      * intros [|j] q Hj; simpl in Hj.
        -- inversion Hj; subst. rewrite Hout by exact Hnotin.
           apply upd_nth_same. exact Hp.
        -- simpl. apply Hin. exact Hj.
Qed.

(** Gather at positions shifted by [sh], then scatter: the shape of both
    repairs. *)
Lemma repair_spec (m : mat R) (shz : Z -> Z) (sh : nat -> nat) :
  (forall p, In p (nonfinite_positions (mem m)) ->
             shz (Z.of_nat p) = Z.of_nat (sh p) /\ sh p < length (mem m)) ->
  exists m',
    (vals <- elem m (map shz (find_nonfinite m)) ;; set_elem m (find_nonfinite m) vals)
      = Some m' /\
    n_rows m' = n_rows m /\ n_cols m' = n_cols m /\
    length (mem m') = length (mem m) /\
    forall p, p < length (mem m) ->
      nth p (mem m') zero =
      if is_finite (nth p (mem m) zero) then nth p (mem m) zero
      else nth (sh p) (mem m) zero.
Proof.
  intros Hsh. rewrite find_nonfinite_positions.
  set (idx := nonfinite_positions (mem m)) in *.
  assert (Hg : elem m (map shz (map Z.of_nat idx))
               = Some (map (fun p => nth (sh p) (mem m) zero) idx)).
  { unfold elem. rewrite map_map.
    assert (Hgen : forall l, incl l idx ->
              mapM (elem1 m) (map (fun x => shz (Z.of_nat x)) l)
              = Some (map (fun p => nth (sh p) (mem m) zero) l)).
    { induction l as [|p l IHl]; intros Hincl; simpl; [reflexivity|].
      destruct (Hsh p (Hincl p (or_introl eq_refl))) as [E Hb].
      rewrite E, elem1_of_nat by exact Hb.
      rewrite IHl; [reflexivity|].
      intros q Hq. apply Hincl. right; exact Hq. }
    apply Hgen. apply incl_refl. }
  rewrite Hg.
  destruct (set_elem_list_spec (idx := idx)
              (map (fun p => nth (sh p) (mem m) zero) idx) (mem m))
    as [l' [E [Hl [Hout Hin]]]].
  - apply nonfinite_positions_nodup.
  - intros p Hp. apply nonfinite_positions_in in Hp. tauto.
  - apply length_map.
  - unfold set_elem. rewrite E. eexists; split; [reflexivity|]. simpl.
    repeat split; auto.
    intros p Hp. destruct (is_finite (nth p (mem m) zero)) eqn:F.
    + apply Hout. intros C. apply nonfinite_positions_in in C.
      destruct C as [_ C]. congruence.
    + assert (Hp' : In p idx) by (apply nonfinite_positions_in; auto).
      destruct (In_nth_error _ _ Hp') as [j Hj].
      rewrite (Hin j p Hj).
      rewrite nth_indep with (d' := nth (sh 0) (mem m) zero).
      * rewrite (map_nth (fun p => nth (sh p) (mem m) zero) idx 0 j).
        f_equal. f_equal. apply nth_error_nth with (d := 0) in Hj. exact Hj.
      * rewrite length_map. apply nth_error_Some. congruence.
Qed.

(** The forward repair succeeds as soon as position 0 is finite, and then
    replaces every non-finite entry by its predecessor in the buffer. *)
Lemma subst_prev_spec (m : mat R) :
  (Z.of_nat (length (mem m)) <= uword_modulus)%Z ->
  (forall x, nth_error (mem m) 0 = Some x -> is_finite x = true) ->
  exists m',
    subst_prev m = Some m' /\
    n_rows m' = n_rows m /\ n_cols m' = n_cols m /\
    length (mem m') = length (mem m) /\
    forall p, p < length (mem m) ->
      nth p (mem m') zero =
      if is_finite (nth p (mem m) zero) then nth p (mem m) zero
      else nth (p - 1) (mem m) zero.
Proof.
  intros Hsize H0. unfold subst_prev.
  apply repair_spec with (sh := fun p => p - 1).
  intros p Hp. apply nonfinite_positions_in in Hp. destruct Hp as [Hlt Hnf].
  assert (Hpos : p <> 0).
  { intros ->. destruct (mem m) as [|x l] eqn:E; simpl in *; [lia|].
    rewrite (H0 x eq_refl) in Hnf. discriminate. }
  split; [|lia].
  rewrite wrap_small by lia. lia.
Qed.

(** The backward repair succeeds as soon as the last position is finite,
    and then replaces every non-finite entry by its successor. *)
Lemma subst_next_spec (m : mat R) :
  (Z.of_nat (length (mem m)) <= uword_modulus)%Z ->
  is_finite (nth (length (mem m) - 1) (mem m) zero) = true ->
  exists m',
    subst_next m = Some m' /\
    n_rows m' = n_rows m /\ n_cols m' = n_cols m /\
    length (mem m') = length (mem m) /\
    forall p, p < length (mem m) ->
      nth p (mem m') zero =
      if is_finite (nth p (mem m) zero) then nth p (mem m) zero
      else nth (p + 1) (mem m) zero.
Proof.
  intros Hsize Hlast. unfold subst_next.
  apply repair_spec with (sh := fun p => p + 1).
  intros p Hp. apply nonfinite_positions_in in Hp. destruct Hp as [Hlt Hnf].
  assert (Hne : p <> length (mem m) - 1) by (intros ->; congruence).
  split; [|lia].
  rewrite wrap_small by lia. lia.
Qed.

(** A non-finite entry at position 0 sends the forward repair one position
    before the buffer. *)
Lemma subst_prev_underflow (m : mat R) (x : R) :
  (Z.of_nat (length (mem m)) < uword_modulus)%Z ->
  nth_error (mem m) 0 = Some x -> is_finite x = false ->
  subst_prev m = None.
Proof.
  intros Hsize Hx Hnf. unfold subst_prev.
  assert (Hin : In (Z.of_nat 0) (find_nonfinite m)).
  { rewrite find_nonfinite_positions. apply in_map. apply nonfinite_positions_in.
    destruct (mem m) as [|y l]; simpl in *; [discriminate|].
    inversion Hx; subst. split; [lia | exact Hnf]. }
  unfold elem. rewrite mapM_none with (a := wrap (0 - 1)); [reflexivity | |].
  - apply (in_map (fun p => wrap (p - 1))) in Hin. exact Hin.
  - unfold elem1, in_bounds. rewrite wrap_minus_one.
    replace (uword_modulus - 1 <? Z.of_nat (length (mem m)))%Z with false.
    + rewrite andb_false_r. reflexivity.
    + symmetry. apply Z.ltb_ge. lia.
Qed.

End Repair.

(** ** The exogenous coefficients are only read *)

Section Frame.
Context {R : Type} {SR : Scalar R}.

(** C9. Whenever [ssfitter] or [ssfitterbackcast] returns, the [xtreg]
    component of the result is the [xtreg] argument itself: neither routine
    writes to it. *)
Theorem xtreg_returned_unchanged :
  forall (matrixxt matrixF matrixw matrixv : mat R) (matyt matg : list R)
         (lags : list nat) (wex xr : mat R) (res : fit R),
    (ssfitter matrixxt matrixF matrixw matrixv matyt matg lags wex xr = Some res ->
     xtreg res = xr) /\
    (ssfitterbackcast matrixxt matrixF matrixw matrixv matyt matg lags wex xr = Some res ->
     xtreg res = xr).
Proof.
  intros. split; intros H.
  - unfold ssfitter in H.
    destruct (max_uvec lags) as [maxlag|]; [|discriminate].
    destruct (loop _ _ _) as [[[xt fitv] errv]|]; [|discriminate].
    inversion H; subst; reflexivity.
  - unfold ssfitterbackcast in H.
    destruct (ssfitterbackcast_cycles _ _ _ _ _ _ _ _ _) as [[[xt fitv] errv]|];
      [|discriminate].
    inversion H; subst; reflexivity.
Qed.

End Frame.

Lemma xtreg_returned_unchanged_witness :
  exists res res' : fit float,
    ssfitter sc_matrixxt sc_matrixF sc_matrixw sc_matrixv sc_matyt sc_matg
             sc_lags sc_wex_one sc_xtreg_one = Some res /\
    ssfitterbackcast sc_matrixxt sc_matrixF sc_matrixw sc_matrixv sc_matyt sc_matg
                     sc_lags sc_wex_one sc_xtreg_one = Some res' /\
    xtreg res = col1 [2; 3; 5; 7; 11]%float /\
    xtreg res' = col1 [2; 3; 5; 7; 11]%float.
Proof.
  destruct (ssfitter (R := float) sc_matrixxt sc_matrixF sc_matrixw sc_matrixv sc_matyt
              sc_matg sc_lags sc_wex_one sc_xtreg_one) as [res|] eqn:Hf;
    [|vm_compute in Hf; discriminate].
  destruct (ssfitterbackcast (R := float) sc_matrixxt sc_matrixF sc_matrixw sc_matrixv
              sc_matyt sc_matg sc_lags sc_wex_one sc_xtreg_one) as [res'|] eqn:Hb;
    [|vm_compute in Hb; discriminate].
  exists res, res'. split; [reflexivity|]. split; [reflexivity|]. split.
  - exact (proj1 (xtreg_returned_unchanged sc_matrixxt sc_matrixF sc_matrixw sc_matrixv
                    sc_matyt sc_matg sc_lags sc_wex_one sc_xtreg_one res) Hf).
  - exact (proj2 (xtreg_returned_unchanged sc_matrixxt sc_matrixF sc_matrixw sc_matrixv
                    sc_matyt sc_matg sc_lags sc_wex_one sc_xtreg_one res') Hb).
Defined.

(** ** The scenario, run *)

(** C2, as the code has it. On the scenario [ssfitter] returns
    fitted = [0, 0.3, 0.81, 1.467, 2.2269] and
    residuals = [1, 1.7, 2.19, 2.533, 2.7731]: in binary64 the doubles
    nearest to these decimals, in exact arithmetic these rationals. *)
Theorem ssfitter_scenario :
  option_map (@yfit float) sc_fit = Some [0; 0.3; 0.81; 1.467; 2.2269]%float /\
  option_map (@errors float) sc_fit = Some [1; 1.7; 2.19; 2.533; 2.7731]%float /\
  option_map (@yfit xq) sc_fit = Some (map Some [0; 0.3; 0.81; 1.467; 2.2269]%Q) /\
  option_map (@errors xq) sc_fit = Some (map Some [1; 1.7; 2.19; 2.533; 2.7731]%Q).
Proof. repeat split; vm_compute; reflexivity. Qed.

(** The values the specification lists for the scenario are not the ones
    [ssfitter] returns: the second fitted value is 0.3, not 1. *)
Lemma ssfitter_scenario_not_as_specified :
  ~ (option_map (@yfit float) sc_fit = Some [0; 1; 1.7; 2.59; 3.613]%float /\
     option_map (@errors float) sc_fit = Some [1; 1; 1.3; 1.41; 1.387]%float).
Proof.
  intros [H _].
  apply (f_equal (fun o => match o with
                           | Some (_ :: b :: _) => PrimFloat.eqb b 1
                           | _ => true
                           end)) in H.
  vm_compute in H. discriminate.
Qed.

(** ** A non-finite entry at the head of the buffer *)

(** C7, at the failing input. The first repair of [ssfitter] asks for the
    entry before position 0: the index wraps to [2^64 - 1], the bounds check
    of [elem] fails and the call ends in the exception. *)
Theorem ssfitter_nan_head_raises :
  elem1 nan_matrixxt (wrap (0 - 1)) = None /\
  ssfitter nan_matrixxt sc_matrixF sc_matrixw sc_matrixv sc_matyt sc_matg sc_lags
           sc_wex sc_xtreg = None.
Proof. split; vm_compute; reflexivity. Qed.

(** ** The cycles of [ssfitterbackcast] *)

Section Cycles.
Context {R : Type} {SR : Scalar R}.

(** The loop over [j] runs the cycle for [j = 0, 1, 2, 3], whatever the
    input. *)
Lemma ssfitterbackcast_four_cycles
    (matrixxt matrixF matrixw matrixv : mat R) (matyt matg : list R)
    (lags : list nat) (wex xr : mat R) (maxlag : nat) :
  max_uvec lags = Some maxlag ->
  let obsall := n_rows matrixxt in
  let cycle := backcast_cycle matrixF matrixw matrixv matyt matg wex xr
                 (lag_offsets (obsall + maxlag) maxlag lags)
                 (backlag_offsets (obsall + maxlag) maxlag lags) obsall maxlag in
  ssfitterbackcast_cycles matrixxt matrixF matrixw matrixv matyt matg lags wex xr =
  (s1 <- cycle 0 (resize matrixxt (obsall + maxlag) (n_cols matrixxt),
                  repeat zero (length matyt), repeat zero (length matyt)) ;;
   s2 <- cycle 1 s1 ;; s3 <- cycle 2 s2 ;; cycle 3 s3).
Proof.
  intros Hmax obsall cycle. unfold ssfitterbackcast_cycles. rewrite Hmax.
  cbn [seq loop]. fold obsall. fold cycle.
  destruct (cycle 0 _) as [s1|]; [|reflexivity].
  destruct (cycle 1 s1) as [s2|]; [|reflexivity].
  destruct (cycle 2 s2) as [s3|]; [|reflexivity].
  destruct (cycle 3 s3); reflexivity.
Qed.

(** The fourth cycle has no backward pass. *)
Lemma backcast_last_cycle_forward_only
    (matrixF matrixw matrixv : mat R) (matyt matg : list R) (wex xr : mat R)
    (offs backlags : list Z) (obsall maxlag : nat) (st : fstate R) :
  backcast_cycle matrixF matrixw matrixv matyt matg wex xr offs backlags obsall maxlag 3 st =
  (st1 <- loop (ssfitter_step matrixF matrixw matrixv matyt matg wex xr offs maxlag)
               (seq maxlag (obsall - maxlag)) st ;;
   loop (backcast_tail_step matrixF offs maxlag) (seq obsall maxlag) st1).
Proof.
  unfold backcast_cycle. cbn [Nat.ltb Nat.leb].
  destruct (loop _ (seq maxlag _) st) as [st1|]; [|reflexivity].
  destruct (loop _ (seq obsall maxlag) st1); reflexivity.
Qed.

(** The returned state history has the row count of the argument. *)
Lemma ssfitterbackcast_rows
    (matrixxt matrixF matrixw matrixv : mat R) (matyt matg : list R)
    (lags : list nat) (wex xr : mat R) (res : fit R) :
  ssfitterbackcast matrixxt matrixF matrixw matrixv matyt matg lags wex xr = Some res ->
  n_rows (matxt res) = n_rows matrixxt.
Proof.
  unfold ssfitterbackcast.
  destruct (ssfitterbackcast_cycles _ _ _ _ _ _ _ _ _) as [[[xt fitv] errv]|];
    [|discriminate].
  intros H; inversion H; reflexivity.
Qed.

End Cycles.

(** C3, at the failing input. After the four cycles the extended state
    history holds [1, 2] in each of its four rows.  Its first three rows are
    the refined states, but the routine ends with [set_size], not with the
    [resize] it started with: the matrix it returns has three rows whose
    second column begins with an entry of the first. *)
Theorem ssfitterbackcast_set_size_scrambles :
  let refined : mat float := Mat 4 2 [1; 1; 1; 1; 2; 2; 2; 2]%float in
  ssfitterbackcast_cycles tc_matrixxt tc_matrixF tc_matrixw tc_matrixv tc_matyt tc_matg
                          tc_lags tc_wex tc_xtreg
    = Some (refined, [3; 3]%float, [0; 0]%float) /\
  resize refined 3 2 = Mat 3 2 [1; 1; 1; 2; 2; 2]%float /\
  option_map (@matxt float)
    (ssfitterbackcast tc_matrixxt tc_matrixF tc_matrixw tc_matrixv tc_matyt tc_matg
                      tc_lags tc_wex tc_xtreg)
    = Some (Mat 3 2 [1; 1; 1; 1; 2; 2]%float).
Proof. repeat split; vm_compute; reflexivity. Qed.

(** ** The lag offsets *)

Lemma fold_max_ge (l : list nat) (a : nat) :
  a <= fold_left Nat.max l a /\ forall x, In x l -> x <= fold_left Nat.max l a.
Proof.
  revert a. induction l as [|b l IH]; intros a; simpl.
  - split; [lia | contradiction].
  - destruct (IH (Nat.max a b)) as [H1 H2]. split; [lia|].
    intros x [->|Hx]; [lia | auto].
Qed.

Lemma max_uvec_ge (lags : list nat) (maxlag : nat) :
  max_uvec lags = Some maxlag -> forall l, In l lags -> l <= maxlag.
Proof.
  destruct lags as [|a lags]; [discriminate|]. simpl. intros H; inversion H; subst.
  destruct (fold_max_ge lags a) as [H1 H2].
  intros l [->|Hl]; auto.
Qed.

(** For the lags [1, 2] and four rows of state the code computes the
    offsets [5, 12], the formula of the specification [5, 10]. *)
Lemma backlag_offsets_not_as_specified :
  backlag_offsets 6 2 [1; 2] <> backlag_as_specified 6 [1; 2].
Proof. vm_compute. discriminate. Qed.

(** C5, as the code has it. The offset of component [k] is
    [obsallnew * (k+1) - (maxlag - lag_k)]: the loop subtracts the lag as
    already replaced by [maxlag - lag].  The backward pass at row [i] then
    gathers at [backlag_k + i - obsall], which is row [i + lag_k] of
    component [k] in the extended buffer. *)
Theorem backlag_offsets_spec :
  forall (obsall maxlag : nat) (lags : list nat) (k l i : nat),
    max_uvec lags = Some maxlag ->
    (Z.of_nat ((obsall + maxlag) * (length lags + 1)) < uword_modulus)%Z ->
    nth_error lags k = Some l ->
    i < obsall ->
    let obsallnew := obsall + maxlag in
    let backlag := (Z.of_nat (obsallnew * (k + 1)) - (Z.of_nat maxlag - Z.of_nat l))%Z in
    nth_error (backlag_offsets obsallnew maxlag lags) k = Some backlag /\
    nth_error (backward_lagrows (backlag_offsets obsallnew maxlag lags) obsall i) k
      = Some (backlag + Z.of_nat i - Z.of_nat obsall)%Z /\
    (backlag + Z.of_nat i - Z.of_nat obsall)%Z = Z.of_nat ((i + l) + k * obsallnew).
Proof.
  intros obsall maxlag lags k l i Hmax Hfit Hk Hi obsallnew backlag.
  assert (Hl : l <= maxlag).
  { apply (max_uvec_ge _ Hmax). eapply nth_error_In; eauto. }
  assert (Hklt : k < length lags) by (apply nth_error_Some; congruence).
  assert (Hbig : (Z.of_nat (obsallnew * (k + 2)) < uword_modulus)%Z).
  { eapply Z.le_lt_trans; [|exact Hfit]. apply inj_le. fold obsallnew. nia. }
  assert (Hb : nth_error (backlag_offsets obsallnew maxlag lags) k = Some backlag).
  { unfold backlag_offsets. rewrite (mapi_nth _ _ _ Hk). f_equal.
    rewrite wrap_sub_r. apply wrap_small. unfold backlag. nia. }
  split; [exact Hb|]. split.
  - unfold backward_lagrows. rewrite nth_error_map, Hb. simpl. f_equal.
    rewrite wrap_sub_l. apply wrap_small. unfold backlag, obsallnew. nia.
  - unfold backlag, obsallnew. nia.
Qed.

Lemma backlag_offsets_spec_witness :
  nth_error (backlag_offsets 6 2 [1; 2]) 1 = Some 12%Z /\
  nth_error (backward_lagrows (backlag_offsets 6 2 [1; 2]) 4 3) 1 = Some 11%Z.
Proof.
  assert (Hfit : (Z.of_nat ((4 + 2) * (length [1; 2] + 1)) < uword_modulus)%Z)
    by (vm_compute; reflexivity).
  assert (Hi : 3 < 4) by lia.
  destruct (@backlag_offsets_spec 4 2 [1; 2] 1 2 3 eq_refl Hfit eq_refl Hi)
    as [H1 [H2 _]].
  split; [exact H1 | exact H2].
Defined.

(** ** The reads of the forward repair *)

Section RepairBounds.
Context {R : Type} {SR : Scalar R}.

Lemma find_nonfinite_in (m : mat R) (p : nat) :
  In (Z.of_nat p) (find_nonfinite m) <->
  p < length (mem m) /\ is_finite (nth p (mem m) zero) = false.
Proof.
  rewrite find_nonfinite_positions, <- nonfinite_positions_in. split.
  - intros H. apply in_map_iff in H. destruct H as [q [E Hq]].
    apply Nat2Z.inj in E. subst. exact Hq.
  - apply in_map.
Qed.

Lemma find_nonfinite_nat (m : mat R) (z : Z) :
  In z (find_nonfinite m) -> exists p, z = Z.of_nat p /\ In p (nonfinite_positions (mem m)).
Proof.
  rewrite find_nonfinite_positions. intros H. apply in_map_iff in H.
  destruct H as [p [E Hp]]. exists p. auto.
Qed.

(** C10. At every turn of the loop of [ssfitter], once the row is written
    (state history [xt1]): the repair looks at every position of the whole
    buffer; if the entry at position 0 is finite, every position it reads,
    one before a non-finite entry, is inside the buffer and the turn
    completes; if the entry at position 0 is not finite, the position read
    for it is [2^64 - 1], outside the buffer, and the turn ends in the
    exception. *)
Theorem ssfitter_repair_bounds :
  forall (matrixF matrixw matrixv : mat R) (matyt matg : list R) (wex xr : mat R)
         (offs : list Z) (maxlag i : nat) (st : fstate R)
         (xt1 : mat R) (fitv errv : list R),
    filter_update matrixF matrixw matrixv matyt matg wex xr
      (forward_lagrows offs maxlag i) (i - maxlag) i st = Some (xt1, fitv, errv) ->
    (Z.of_nat (length (mem xt1)) < uword_modulus)%Z ->
    (forall p, p < length (mem xt1) ->
       (In (Z.of_nat p) (find_nonfinite xt1) <-> is_finite (nth p (mem xt1) zero) = false)) /\
    ((forall x, nth_error (mem xt1) 0 = Some x -> is_finite x = true) ->
       (forall p, In p (find_nonfinite xt1) ->
          wrap (p - 1) = (p - 1)%Z /\
          in_bounds (wrap (p - 1)) (length (mem xt1)) = true) /\
       exists xt2,
         ssfitter_step matrixF matrixw matrixv matyt matg wex xr offs maxlag i st
         = Some (xt2, fitv, errv)) /\
    (forall x, nth_error (mem xt1) 0 = Some x -> is_finite x = false ->
       In 0%Z (find_nonfinite xt1) /\
       wrap (0 - 1) = (uword_modulus - 1)%Z /\
       in_bounds (wrap (0 - 1)) (length (mem xt1)) = false /\
       ssfitter_step matrixF matrixw matrixv matyt matg wex xr offs maxlag i st = None).
Proof.
  intros matrixF matrixw matrixv matyt matg wex xr offs maxlag i st xt1 fitv errv
         Hupd Hsize.
  split; [|split].
  - intros p Hp. rewrite find_nonfinite_in. tauto.
  - intros H0. split.
    + intros z Hz. destruct (find_nonfinite_nat _ _ Hz) as [p [-> Hp]].
      apply nonfinite_positions_in in Hp. destruct Hp as [Hlt Hnf].
      assert (Hpos : p <> 0).
      { intros ->. destruct (mem xt1) as [|x l] eqn:E; simpl in *; [lia|].
        rewrite (H0 x eq_refl) in Hnf. discriminate. }
      rewrite wrap_small by lia. split; [reflexivity|].
      replace (Z.of_nat p - 1)%Z with (Z.of_nat (p - 1)) by lia.
      rewrite in_bounds_of_nat. apply Nat.ltb_lt. lia.
    + destruct (subst_prev_spec xt1) as [xt2 [E _]]; [lia | exact H0 |].
      exists xt2. unfold ssfitter_step. rewrite Hupd, E. reflexivity.
  - intros x Hx Hnf. split; [|split; [|split]].
    + change 0%Z with (Z.of_nat 0). apply find_nonfinite_in.
      destruct (mem xt1) as [|y l]; simpl in *; [discriminate|].
      inversion Hx; subst. split; [lia | exact Hnf].
    + apply wrap_minus_one.
    + rewrite wrap_minus_one. unfold in_bounds.
      replace (uword_modulus - 1 <? Z.of_nat (length (mem xt1)))%Z with false.
      * apply andb_false_r.
      * symmetry. apply Z.ltb_ge. lia.
    + unfold ssfitter_step. rewrite Hupd.
      rewrite (subst_prev_underflow xt1 Hsize Hx Hnf). reflexivity.
Qed.

End RepairBounds.

Lemma ssfitter_repair_bounds_witness :
  (In 1%Z (find_nonfinite (col1 [0; infinity; 0; 0; 0; 0]%float)) /\
   in_bounds (wrap (1 - 1)) 6 = true /\
   exists xt2 : mat float,
     ssfitter_step sc_matrixF sc_matrixw sc_zero_scale sc_matyt sc_matg sc_wex sc_xtreg
       (lag_offsets 6 1 sc_lags) 1 1 (sc_matrixxt, repeat 0%float 5, repeat 0%float 5)
     = Some (xt2, [0; 0; 0; 0; 0]%float, [1; 0; 0; 0; 0]%float)) /\
  (In 0%Z (find_nonfinite (col1 [nan; nan; 0; 0; 0; 0]%float)) /\
   in_bounds (wrap (0 - 1)) 6 = false /\
   ssfitter_step sc_matrixF sc_matrixw sc_matrixv sc_matyt sc_matg sc_wex sc_xtreg
     (lag_offsets 6 1 sc_lags) 1 1 (nan_matrixxt, repeat 0%float 5, repeat 0%float 5)
   = None).
Proof.
  split.
  - assert (Hupd : filter_update (R := float) sc_matrixF sc_matrixw sc_zero_scale sc_matyt
                     sc_matg sc_wex sc_xtreg
                     (forward_lagrows (lag_offsets 6 1 sc_lags) 1 1) (1 - 1) 1
                     (sc_matrixxt, repeat 0%float 5, repeat 0%float 5)
                   = Some (col1 [0; infinity; 0; 0; 0; 0]%float,
                           [0; 0; 0; 0; 0]%float, [1; 0; 0; 0; 0]%float))
      by (vm_compute; reflexivity).
    assert (Hsize : (Z.of_nat (length (mem (col1 [0; infinity; 0; 0; 0; 0]%float)))
                     < uword_modulus)%Z) by (vm_compute; reflexivity).
    destruct (ssfitter_repair_bounds _ _ _ _ _ _ _ _ _ _ _ Hupd Hsize) as [Hscan [Hin _]].
    assert (Hnf : In 1%Z (find_nonfinite (col1 [0; infinity; 0; 0; 0; 0]%float))).
    { apply (proj2 (Hscan 1 ltac:(vm_compute; lia))). vm_compute. reflexivity. }
    assert (Hhead : forall x : float,
               nth_error (mem (col1 [0; infinity; 0; 0; 0; 0]%float)) 0 = Some x ->
               is_finite x = true).
    { intros x Hx. vm_compute in Hx. inversion Hx; subst. vm_compute. reflexivity. }
    destruct (Hin Hhead) as [Hread Hstep].
    split; [exact Hnf|]. split; [exact (proj2 (Hread 1%Z Hnf)) | exact Hstep].
  - assert (Hupd : filter_update (R := float) sc_matrixF sc_matrixw sc_matrixv sc_matyt
                     sc_matg sc_wex sc_xtreg
                     (forward_lagrows (lag_offsets 6 1 sc_lags) 1 1) (1 - 1) 1
                     (nan_matrixxt, repeat 0%float 5, repeat 0%float 5)
                   = Some (col1 [nan; nan; 0; 0; 0; 0]%float,
                           [nan; 0; 0; 0; 0]%float, [nan; 0; 0; 0; 0]%float))
      by (vm_compute; reflexivity).
    assert (Hsize : (Z.of_nat (length (mem (col1 [nan; nan; 0; 0; 0; 0]%float)))
                     < uword_modulus)%Z) by (vm_compute; reflexivity).
    destruct (ssfitter_repair_bounds _ _ _ _ _ _ _ _ _ _ _ Hupd Hsize) as [_ [_ Hout]].
    destruct (Hout nan eq_refl eq_refl) as [H0 [_ [Hb Hnone]]].
    split; [exact H0|]. split; [exact Hb | exact Hnone].
Defined.

(** ** Counted loops with an invariant that follows the counter *)

Lemma loop_seq_total {St} (P : nat -> St -> Prop) (body : nat -> St -> option St) :
  forall (n start : nat) (s : St),
    (forall i t, start <= i < start + n -> P i t ->
                 exists t', body i t = Some t' /\ P (1 + i) t') ->
    P start s -> exists s', loop body (seq start n) s = Some s' /\ P (start + n) s'.
Proof.
  induction n as [|n IH]; intros start s Hb Hs; simpl.
  - exists s. rewrite Nat.add_0_r. auto.
  - destruct (Hb start s) as [s1 [E P1]]; [lia | exact Hs |]. rewrite E.
    replace (start + S n) with (S start + n) by lia.
    apply IH; auto. intros i t Hi. apply Hb. lia.
Qed.

Lemma loop_seq_split {St} (body : nat -> St -> option St) (start n i : nat) (s s' : St) :
  start <= i < start + n ->
  loop body (seq start n) s = Some s' ->
  exists si si',
    loop body (seq start (i - start)) s = Some si /\
    body i si = Some si' /\
    loop body (seq (1 + i) (start + n - i - 1)) si' = Some s'.
Proof.
  intros Hi Hl.
  replace n with ((i - start) + S (start + n - i - 1)) in Hl by lia.
  rewrite seq_app, loop_app in Hl.
  destruct (loop body (seq start (i - start)) s) as [si|]; [|discriminate].
  replace (start + (i - start)) with i in Hl by lia.
  cbn [seq loop] in Hl.
  destruct (body i si) as [si'|] eqn:E; [|discriminate].
  exists si, si'. repeat split; auto.
Qed.

(** ** The lag resolver *)

Lemma mapM_mapi_from {A B C} (f : A -> option B) (g : nat -> C -> A) (h : nat -> C -> B) :
  forall (l : list C) (k : nat) (r : list B),
    (forall j c, nth_error l j = Some c ->
                 forall b, f (g (k + j) c) = Some b -> b = h (k + j) c) ->
    mapM f (mapi_from k g l) = Some r -> r = mapi_from k h l.
Proof.
  induction l as [|c l IH]; intros k r Hf Hr; simpl in Hr.
  - inversion Hr; reflexivity.
  - destruct (f (g k c)) as [b|] eqn:E; [|discriminate].
    destruct (mapM f (mapi_from (S k) g l)) as [bs|] eqn:E'; [|discriminate].
    inversion Hr; subst. simpl. f_equal.
    + specialize (Hf 0 c eq_refl b). rewrite Nat.add_0_r in Hf. apply Hf. exact E.
    + apply IH; [|exact E']. intros j c' Hj b'.
      replace (S k + j) with (k + S j) by lia. apply (Hf (S j) c' Hj).
Qed.

Lemma mapM_mapi_from_total {A B C} (f : A -> option B) (g : nat -> C -> A) (h : nat -> C -> B) :
  forall (l : list C) (k : nat),
    (forall j c, nth_error l j = Some c -> f (g (k + j) c) = Some (h (k + j) c)) ->
    mapM f (mapi_from k g l) = Some (mapi_from k h l).
Proof.
  induction l as [|c l IH]; intros k Hf; simpl.
  - reflexivity.
  - assert (E : f (g k c) = Some (h k c)).
    { specialize (Hf 0 c eq_refl). rewrite Nat.add_0_r in Hf. exact Hf. }
    rewrite E, IH; [reflexivity|].
    intros j c' Hj. replace (S k + j) with (k + S j) by lia. apply (Hf (S j) c' Hj).
Qed.

Lemma mapi_from_ext {A B} (f g : nat -> A -> B) :
  forall (l : list A) (k : nat),
    (forall j a, nth_error l j = Some a -> f (k + j) a = g (k + j) a) ->
    mapi_from k f l = mapi_from k g l.
Proof.
  induction l as [|a l IH]; intros k H; simpl.
  - reflexivity.
  - f_equal.
    + specialize (H 0 a eq_refl). rewrite Nat.add_0_r in H. exact H.
    + apply IH. intros j b Hj. replace (S k + j) with (k + S j) by lia.
      apply (H (S j) b Hj).
Qed.

Lemma mapi_ext {A B} (f g : nat -> A -> B) (l : list A) :
  (forall j a, nth_error l j = Some a -> f j a = g j a) -> mapi f l = mapi g l.
Proof. intros H. apply mapi_from_ext. exact H. Qed.


(** ** The checked operations, when they succeed *)

Section Recurrence.
Context {R : Type} {SR : Scalar R}.

Lemma row_some (m : mat R) (r : nat) (v : list R) :
  row m r = Some v -> r < n_rows m /\ v = rowv m r.
Proof.
  unfold row. destruct (Nat.ltb_spec r (n_rows m)); [|discriminate].
  intros Heq; inversion Heq; auto.
Qed.

Lemma row_ok (m : mat R) (r : nat) : r < n_rows m -> row m r = Some (rowv m r).
Proof.
  intros Hr. unfold row. destruct (Nat.ltb_spec r (n_rows m)); [reflexivity | lia].
Qed.

Lemma rowv_length (m : mat R) (r : nat) : length (rowv m r) = n_cols m.
Proof. unfold rowv. rewrite length_map, length_seq. reflexivity. Qed.

Lemma dot_some (a b : list R) (x : R) : dot a b = Some x -> x = dotl a b.
Proof. unfold dot. destruct (length a =? length b); [|discriminate]. congruence. Qed.

Lemma dot_ok (a b : list R) : length a = length b -> dot a b = Some (dotl a b).
Proof. intros H. unfold dot. rewrite H, Nat.eqb_refl. reflexivity. Qed.

Lemma zipw_some (f : R -> R -> R) (a b r : list R) :
  zipw f a b = Some r ->
  length a = length b /\ r = map (fun xy => f (fst xy) (snd xy)) (combine a b).
Proof.
  unfold zipw. destruct (Nat.eqb_spec (length a) (length b)); [|discriminate].
  intros Heq; inversion Heq; auto.
Qed.

Lemma zipw_ok (f : R -> R -> R) (a b : list R) :
  length a = length b ->
  zipw f a b = Some (map (fun xy => f (fst xy) (snd xy)) (combine a b)).
Proof. intros H. unfold zipw. rewrite H, Nat.eqb_refl. reflexivity. Qed.

Lemma matvec_some (F : mat R) (x r : list R) :
  matvec F x = Some r ->
  n_cols F = length x /\ r = map (fun i => dotl (rowv F i) x) (seq 0 (n_rows F)).
Proof.
  unfold matvec. destruct (Nat.eqb_spec (n_cols F) (length x)); [|discriminate].
  intros Heq; inversion Heq; auto.
Qed.

Lemma matvec_ok (F : mat R) (x : list R) :
  n_cols F = length x ->
  matvec F x = Some (map (fun i => dotl (rowv F i) x) (seq 0 (n_rows F))).
Proof.
  intros H. unfold matvec.
  destruct (Nat.eqb_spec (n_cols F) (length x)); [reflexivity | contradiction].
Qed.

Lemma vec_set_some (v : list R) (t : nat) (x : R) (v' : list R) :
  vec_set v t x = Some v' -> t < length v /\ v' = upd t x v.
Proof.
  unfold vec_set. destruct (Nat.ltb_spec t (length v)); [|discriminate].
  intros Heq; inversion Heq; auto.
Qed.

Lemma vec_set_ok (v : list R) (t : nat) (x : R) :
  t < length v -> vec_set v t x = Some (upd t x v).
Proof.
  intros H. unfold vec_set. destruct (Nat.ltb_spec t (length v)); [reflexivity | lia].
Qed.

Lemma set_row_some (m : mat R) (r : nat) (v : list R) (m' : mat R) :
  set_row m r v = Some m' ->
  r < n_rows m /\ length v = n_cols m /\
  m' = build (n_rows m) (n_cols m) (fun i j => if i =? r then nth j v zero else at_ m i j).
Proof.
  unfold set_row. destruct (Nat.ltb_spec r (n_rows m)); [|discriminate].
  destruct (Nat.eqb_spec (length v) (n_cols m)); [|discriminate]. simpl.
  intros Heq; inversion Heq; auto.
Qed.

Lemma set_row_ok (m : mat R) (r : nat) (v : list R) :
  r < n_rows m -> length v = n_cols m ->
  set_row m r v =
  Some (build (n_rows m) (n_cols m) (fun i j => if i =? r then nth j v zero else at_ m i j)).
Proof.
  intros Hr Hv. unfold set_row.
  destruct (Nat.ltb_spec r (n_rows m)); [|lia].
  rewrite Hv, Nat.eqb_refl. reflexivity.
Qed.

Lemma rowv_build (nr nc : nat) (f : nat -> nat -> R) (r : nat) :
  r < nr -> rowv (build nr nc f) r = map (f r) (seq 0 nc).
Proof.
  intros Hr. unfold rowv. rewrite build_cols. apply map_ext_in.
  intros c Hc. apply in_seq in Hc. apply build_at; lia.
Qed.

End Recurrence.

(** ** One filter update, read back *)

Section FilterUpdate.
Context {R : Type} {SR : Scalar R}.

Lemma map_nth_seq_id (l : list R) (d : R) :
  map (fun j => nth j l d) (seq 0 (length l)) = l.
Proof.
  apply nth_ext with (d := d) (d' := d).
  - rewrite length_map, length_seq. reflexivity.
  - intros n Hn. rewrite length_map, length_seq in Hn.
    rewrite nth_indep with (d' := nth 0 l d) by (rewrite length_map, length_seq; exact Hn).
    rewrite (map_nth (fun j => nth j l d) (seq 0 (length l)) 0 n).
    rewrite seq_nth by exact Hn. reflexivity.
Qed.

Lemma set_row_rowv (m m' : mat R) (r : nat) (v : list R) :
  set_row m r v = Some m' -> rowv m' r = v.
Proof.
  intros H. destruct (set_row_some _ _ _ H) as [Hr [Hv ->]].
  rewrite rowv_build by exact Hr. rewrite Nat.eqb_refl, <- Hv.
  apply map_nth_seq_id.
Qed.

Lemma set_row_shape (m m' : mat R) (r : nat) (v : list R) :
  set_row m r v = Some m' ->
  n_rows m' = n_rows m /\ n_cols m' = n_cols m /\
  length (mem m') = n_rows m * n_cols m.
Proof.
  intros H. destruct (set_row_some _ _ _ H) as [Hr [Hv ->]].
  rewrite build_length. auto.
Qed.

Lemma set_row_at (m m' : mat R) (r : nat) (v : list R) (i j : nat) :
  set_row m r v = Some m' -> i < n_rows m -> j < n_cols m ->
  at_ m' i j = if i =? r then nth j v zero else at_ m i j.
Proof.
  intros H Hi Hj. destruct (set_row_some _ _ _ H) as [Hr [Hv ->]].
  apply build_at; assumption.
Qed.

Lemma filter_update_some
    (matrixF matrixw matrixv : mat R) (matyt matg : list R) (wex xr : mat R)
    (lagrows : list Z) (t i : nat) (xt : mat R) (fitv errv : list R)
    (xt' : mat R) (fitv' errv' : list R) :
  filter_update matrixF matrixw matrixv matyt matg wex xr lagrows t i (xt, fitv, errv)
    = Some (xt', fitv', errv') ->
  exists (x : list R) (y : R),
    elem xt lagrows = Some x /\
    nth_error matyt t = Some y /\
    t < length fitv /\ t < length errv /\
    fitv' = upd t (fitted_value matrixw wex xr x t) fitv /\
    errv' = upd t (sub y (fitted_value matrixw wex xr x t)) errv /\
    set_row xt i (new_state_row matrixF matrixv matg x t
                    (sub y (fitted_value matrixw wex xr x t))) = Some xt'.
Proof.
  unfold filter_update. intros H.
  destruct (elem xt lagrows) as [x|] eqn:Ex; [|discriminate].
  destruct (row matrixw t) as [wr|] eqn:Ewr; [|discriminate].
  destruct (dot wr x) as [wx|] eqn:Ewx; [|discriminate].
  destruct (row wex t) as [er|] eqn:Eer; [|discriminate].
  destruct (row xr t) as [xrr|] eqn:Exr; [|discriminate].
  destruct (dot er xrr) as [ex|] eqn:Eex; [|discriminate].
  destruct (vec_set fitv t (add wx ex)) as [fitv1|] eqn:Ef; [|discriminate].
  destruct (vec_at matyt t) as [y|] eqn:Ey; [|discriminate].
  destruct (vec_at fitv1 t) as [f|] eqn:Eft; [|discriminate].
  destruct (vec_set errv t (sub y f)) as [errv1|] eqn:Ee; [|discriminate].
  destruct (matvec matrixF x) as [Fx|] eqn:EFx; [|discriminate].
  destruct (row matrixv t) as [vr|] eqn:Evr; [|discriminate].
  destruct (vdiv matg vr) as [gv|] eqn:Egv; [|discriminate].
  destruct (vec_at errv1 t) as [e|] eqn:Eet; [|discriminate].
  destruct (vadd Fx (vscale gv e)) as [new|] eqn:Enew; [|discriminate].
  destruct (set_row xt i new) as [xt1|] eqn:Eset; [|discriminate].
  inversion H; subst xt1 fitv1 errv1. clear H.
  apply row_some in Ewr, Eer, Exr, Evr.
  destruct Ewr as [_ ->], Eer as [_ ->], Exr as [_ ->], Evr as [_ ->].
  apply dot_some in Ewx, Eex. subst wx ex.
  apply vec_set_some in Ef, Ee. destruct Ef as [Htf ->], Ee as [Hte ->].
  unfold vec_at in Eft, Eet.
  rewrite upd_nth_error_same in Eft by exact Htf.
  rewrite upd_nth_error_same in Eet by exact Hte.
  inversion Eft; subst f. inversion Eet; subst e.
  destruct (matvec_some _ _ EFx) as [_ ->].
  destruct (zipw_some _ _ _ Egv) as [_ ->].
  destruct (zipw_some _ _ _ Enew) as [_ ->].
  exists x, y. repeat split; auto.
Qed.

Lemma filter_update_ok
    (matrixF matrixw matrixv : mat R) (matyt matg : list R) (wex xr : mat R)
    (lagrows : list Z) (t i : nat) (xt : mat R) (fitv errv : list R)
    (x : list R) (y : R) :
  elem xt lagrows = Some x ->
  nth_error matyt t = Some y ->
  t < n_rows matrixw -> n_cols matrixw = length x ->
  t < n_rows wex -> t < n_rows xr -> n_cols wex = n_cols xr ->
  t < length fitv -> t < length errv ->
  n_cols matrixF = length x ->
  t < n_rows matrixv -> length matg = n_cols matrixv -> n_rows matrixF = length matg ->
  i < n_rows xt -> n_rows matrixF = n_cols xt ->
  exists xt',
    set_row xt i (new_state_row matrixF matrixv matg x t
                    (sub y (fitted_value matrixw wex xr x t))) = Some xt' /\
    filter_update matrixF matrixw matrixv matyt matg wex xr lagrows t i (xt, fitv, errv)
    = Some (xt', upd t (fitted_value matrixw wex xr x t) fitv,
            upd t (sub y (fitted_value matrixw wex xr x t)) errv).
Proof.
  intros Ex Ey Hw1 Hw2 Hex1 Hxr1 Hex2 Hf He HF Hv1 Hg HFg Hi HFc.
  assert (Hnew : length (new_state_row matrixF matrixv matg x t
                           (sub y (fitted_value matrixw wex xr x t))) = n_cols xt).
  { unfold new_state_row, vscale.
    rewrite length_map, length_combine, !length_map, length_combine, length_seq,
            rowv_length. lia. }
  destruct (set_row xt i _) as [xt'|] eqn:Eset.
  2:{ rewrite set_row_ok in Eset by assumption. discriminate. }
  exists xt'. split; [reflexivity|].
  unfold filter_update. rewrite Ex.
  rewrite (row_ok matrixw) by exact Hw1.
  rewrite dot_ok by (rewrite rowv_length; exact Hw2).
  rewrite (row_ok wex) by exact Hex1. rewrite (row_ok xr) by exact Hxr1.
  rewrite dot_ok by (rewrite !rowv_length; exact Hex2).
  rewrite vec_set_ok by exact Hf.
  unfold vec_at. rewrite Ey. rewrite upd_nth_error_same by exact Hf.
  rewrite vec_set_ok by exact He.
  rewrite matvec_ok by exact HF.
  rewrite (row_ok matrixv) by exact Hv1.
  unfold vdiv. rewrite zipw_ok by (rewrite rowv_length; exact Hg).
  rewrite upd_nth_error_same by exact He.
  unfold vadd. rewrite zipw_ok.
  - fold (fitted_value matrixw wex xr x t).
    change (map (fun ab => add (fst ab) (snd ab))
              (combine (map (fun i0 => dotl (rowv matrixF i0) x) (seq 0 (n_rows matrixF)))
                 (vscale (map (fun gv => div (fst gv) (snd gv))
                            (combine matg (rowv matrixv t)))
                    (sub y (fitted_value matrixw wex xr x t)))))
      with (new_state_row matrixF matrixv matg x t
              (sub y (fitted_value matrixw wex xr x t))).
    rewrite Eset. reflexivity.
  - unfold vscale. rewrite !length_map, length_combine, length_seq, rowv_length. lia.
Qed.

End FilterUpdate.

(** ** The lagged gather *)

Section Gather.
Context {R : Type} {SR : Scalar R}.

Lemma map_mapi_from {A B C} (f : B -> C) (g : nat -> A -> B) (l : list A) (k : nat) :
  map f (mapi_from k g l) = mapi_from k (fun j a => f (g j a)) l.
Proof. revert k. induction l as [|a l IH]; intros k; simpl; [|rewrite IH]; reflexivity. Qed.

(** The linear indices of the forward gather: row [i - lag_k] of column [k]. *)
Lemma forward_lagrows_eq (rowcount maxlag : nat) (lags : list nat) (i : nat) :
  (forall l, In l lags -> l <= i) ->
  i < rowcount ->
  (Z.of_nat (rowcount * length lags) < uword_modulus)%Z ->
  forward_lagrows (lag_offsets rowcount maxlag lags) maxlag i
  = mapi (fun k l => Z.of_nat ((i - l) + k * rowcount)) lags.
Proof.
  intros Hl Hi Hfit. unfold forward_lagrows, lag_offsets, mapi.
  rewrite map_mapi_from. apply mapi_from_ext. intros j a Hj. simpl.
  assert (Hjl : j < length lags) by (apply nth_error_Some; congruence).
  assert (Ha : a <= i) by (apply Hl; eapply nth_error_In; eauto).
  assert (Hb : (Z.of_nat (i + j * rowcount) < uword_modulus)%Z).
  { eapply Z.le_lt_trans; [|exact Hfit]. apply inj_le. nia. }
  destruct (j =? 0) eqn:Ej.
  - apply Nat.eqb_eq in Ej. subst j.
    rewrite wrap_sub_l, wrap_add_l.
    etransitivity; [|apply wrap_small; lia]. f_equal. lia.
  - rewrite wrap_add_l.
    match goal with
    | |- wrap (wrap ?u - ?m + ?n) = _ =>
        replace (wrap u - m + n)%Z with (wrap u + (n - m))%Z by lia
    end.
    rewrite wrap_add_l, <- Z.add_assoc, wrap_add_l.
    etransitivity; [|apply wrap_small; lia]. f_equal. lia.
Qed.

Lemma elem1_some (m : mat R) (p : nat) (b : R) :
  elem1 m (Z.of_nat p) = Some b -> p < length (mem m) /\ b = nth p (mem m) zero.
Proof.
  unfold elem1. rewrite in_bounds_of_nat.
  destruct (Nat.ltb_spec p (length (mem m))); [|discriminate].
  rewrite Nat2Z.id. intros Heq; inversion Heq; auto.
Qed.

Lemma gather_some (m : mat R) (lags : list nat) (rc i : nat) (x : list R) :
  n_rows m = rc ->
  elem m (mapi (fun k l => Z.of_nat ((i - l) + k * rc)) lags) = Some x ->
  x = lagged m lags i.
Proof.
  intros <-. unfold elem, mapi, lagged, mapi. intros H.
  apply (mapM_mapi_from (elem1 m) (fun k l => Z.of_nat ((i - l) + k * n_rows m))
           (fun k l => at_ m (i - l) k) lags 0); [|exact H].
  intros j c Hj b Hb. apply elem1_some in Hb. destruct Hb as [_ ->]. reflexivity.
Qed.

Lemma gather_ok (m : mat R) (lags : list nat) (rc i : nat) :
  n_rows m = rc ->
  (forall l, In l lags -> i - l < rc) ->
  rc * length lags <= length (mem m) ->
  elem m (mapi (fun k l => Z.of_nat ((i - l) + k * rc)) lags)
  = Some (lagged m lags i).
Proof.
  intros <- Hl Hlen. unfold elem, mapi, lagged, mapi.
  apply mapM_mapi_from_total. intros j c Hj. simpl.
  assert (Hjl : j < length lags) by (apply nth_error_Some; congruence).
  assert (Hc : i - c < n_rows m) by (apply Hl; eapply nth_error_In; eauto).
  rewrite elem1_of_nat; [reflexivity|]. nia.
Qed.

End Gather.

(** ** The turns of [ssfitter] keep the shape *)

Section FilterRecurrence.
Context {R : Type} {SR : Scalar R}.

Lemma set_elem_shape (m m' : mat R) (idx : list Z) (vals : list R) :
  set_elem m idx vals = Some m' -> n_rows m' = n_rows m /\ n_cols m' = n_cols m.
Proof.
  unfold set_elem. destruct (set_elem_list _ _ _); [|discriminate].
  intros H; inversion H; auto.
Qed.

Lemma subst_prev_shape (m m' : mat R) :
  subst_prev m = Some m' -> n_rows m' = n_rows m /\ n_cols m' = n_cols m.
Proof.
  unfold subst_prev. destruct (elem _ _); [|discriminate]. apply set_elem_shape.
Qed.

Lemma ssfitter_step_some
    (matrixF matrixw matrixv : mat R) (matyt matg : list R) (wex xr : mat R)
    (offs : list Z) (maxlag i : nat) (st st' : fstate R) :
  ssfitter_step matrixF matrixw matrixv matyt matg wex xr offs maxlag i st = Some st' ->
  exists xt1,
    filter_update matrixF matrixw matrixv matyt matg wex xr
      (forward_lagrows offs maxlag i) (i - maxlag) i st = Some (xt1, snd (fst st'), snd st') /\
    subst_prev xt1 = Some (fst (fst st')).
Proof.
  unfold ssfitter_step. intros H.
  destruct (filter_update _ _ _ _ _ _ _ _ _ _ st) as [[[xt1 f1] e1]|]; [|discriminate].
  destruct (subst_prev xt1) as [xt2|] eqn:E2; [|discriminate].
  inversion H; subst. exists xt1. auto.
Qed.

Lemma ssfitter_step_rows
    (matrixF matrixw matrixv : mat R) (matyt matg : list R) (wex xr : mat R)
    (offs : list Z) (maxlag i : nat) (st st' : fstate R) :
  ssfitter_step matrixF matrixw matrixv matyt matg wex xr offs maxlag i st = Some st' ->
  n_rows (fst (fst st')) = n_rows (fst (fst st)).
Proof.
  intros H. destruct (ssfitter_step_some _ _ _ _ _ _ _ _ _ _ _ H) as [xt1 [Hu Hs]].
  destruct st as [[xt fitv] errv].
  destruct (filter_update_some _ _ _ _ _ _ _ _ _ _ _ _ _ Hu)
    as [x [y [_ [_ [_ [_ [_ [_ Hset]]]]]]]].
  destruct (set_row_shape _ _ _ Hset) as [Hr _].
  destruct (subst_prev_shape _ Hs) as [Hr' _]. simpl. congruence.
Qed.

(** The scatter leaves the positions it is not given alone. *)
Lemma set_elem_list_keeps (idx : list Z) :
  forall (vals l l' : list R) (q : nat),
    set_elem_list l idx vals = Some l' -> ~ In (Z.of_nat q) idx ->
    nth q l' zero = nth q l zero.
Proof.
  induction idx as [|p idx IH]; intros vals l l' q H Hq;
    destruct vals as [|v vals]; simpl in H; try discriminate.
  - inversion H; reflexivity.
  - destruct (in_bounds p (length l)) eqn:B; [|discriminate].
    rewrite (IH _ _ _ q H) by (intros C; apply Hq; right; exact C).
    apply upd_nth_other. intros E. apply Hq. left.
    unfold in_bounds in B. apply andb_true_iff in B. destruct B as [B0 _].
    apply Z.leb_le in B0. lia.
Qed.

(** The repair leaves the finite entries alone. *)
Lemma subst_prev_keeps (m m' : mat R) (r c : nat) :
  subst_prev m = Some m' -> is_finite (at_ m r c) = true -> at_ m' r c = at_ m r c.
Proof.
  intros H Hf. unfold subst_prev in H.
  destruct (elem _ _) as [vals|]; [|discriminate].
  unfold set_elem in H. destruct (set_elem_list _ _ _) as [l|] eqn:E; [|discriminate].
  inversion H; subst m'. unfold at_ in *. cbn [mem n_rows] in *.
  apply (set_elem_list_keeps _ _ _ _ E).
  intros Hin. apply find_nonfinite_in in Hin. destruct Hin as [_ Hnf]. congruence.
Qed.

(** A turn of the filter leaves the shape of the state history and the
    finite entries of the rows it does not write alone. *)
Lemma ssfitter_step_keeps
    (matrixF matrixw matrixv : mat R) (matyt matg : list R) (wex xr : mat R)
    (offs : list Z) (maxlag j : nat) (st st' : fstate R) (i c : nat) :
  ssfitter_step matrixF matrixw matrixv matyt matg wex xr offs maxlag j st = Some st' ->
  n_rows (fst (fst st')) = n_rows (fst (fst st)) /\
  n_cols (fst (fst st')) = n_cols (fst (fst st)) /\
  (i <> j -> i < n_rows (fst (fst st)) -> c < n_cols (fst (fst st)) ->
   is_finite (at_ (fst (fst st)) i c) = true ->
   at_ (fst (fst st')) i c = at_ (fst (fst st)) i c).
Proof.
  intros H. destruct (ssfitter_step_some _ _ _ _ _ _ _ _ _ _ _ H) as [xt1 [Hu Hs]].
  destruct st as [[xt fitv] errv]. cbn [fst snd] in *.
  destruct (filter_update_some _ _ _ _ _ _ _ _ _ _ _ _ _ Hu)
    as [x [y [_ [_ [_ [_ [_ [_ Hset]]]]]]]].
  destruct (set_row_shape _ _ _ Hset) as [Hr [Hc _]].
  destruct (subst_prev_shape _ Hs) as [Hr' Hc'].
  split; [congruence|]. split; [congruence|].
  intros Hij Hi Hcc Hf.
  assert (E : at_ xt1 i c = at_ xt i c).
  { rewrite (@set_row_at _ _ xt xt1 j _ i c Hset Hi Hcc).
    destruct (Nat.eqb_spec i j); [contradiction | reflexivity]. }
  rewrite (@subst_prev_keeps xt1 _ i c Hs) by (rewrite E; exact Hf). exact E.
Qed.

End FilterRecurrence.

(** ** Well-formed inputs: the filter returns *)

Section FilterTotal.
Context {R : Type} {SR : Scalar R}.

Lemma fold_max_in (l : list nat) (a : nat) :
  fold_left Nat.max l a = a \/ In (fold_left Nat.max l a) l.
Proof.
  revert a. induction l as [|b l IH]; intros a; simpl.
  - left; reflexivity.
  - destruct (IH (Nat.max a b)) as [E|Hin].
    + rewrite E. destruct (Nat.max_spec a b) as [[_ Hm]|[_ Hm]]; rewrite Hm; auto.
    + right; right; exact Hin.
Qed.

Lemma max_uvec_in (lags : list nat) (maxlag : nat) :
  max_uvec lags = Some maxlag -> In maxlag lags.
Proof.
  destruct lags as [|a lags]; [discriminate|]. simpl. intros H; inversion H; clear H.
  destruct (fold_max_in lags a) as [E|Hin]; [left; symmetry; exact E | right; exact Hin].
Qed.

Lemma inputs_ok_maxlag_pos matrixxt matrixF matrixw matrixv (matyt matg : list R)
    lags wex xr maxlag :
  inputs_ok matrixxt matrixF matrixw matrixv matyt matg lags wex xr maxlag ->
  1 <= maxlag /\ 1 <= length lags /\ forall l, In l lags -> 1 <= l <= maxlag.
Proof.
  intros H. pose proof (max_uvec_in _ (ok_maxlag H)) as Hin.
  pose proof (ok_lags H) as Hl. rewrite Forall_forall in Hl.
  split; [apply Hl; exact Hin|]. split.
  - destruct lags; [contradiction | simpl; lia].
  - intros l Hlin. split; [apply Hl; exact Hlin|].
    apply (max_uvec_ge _ (ok_maxlag H)). exact Hlin.
Qed.

(** One turn of the loop on a state history of the right shape whose head
    is finite. *)
Lemma ssfitter_step_ok
    (matrixxt matrixF matrixw matrixv : mat R) (matyt matg : list R)
    (lags : list nat) (wex xr : mat R) (maxlag : nat)
    (i : nat) (xt : mat R) (fitv errv : list R) :
  inputs_ok matrixxt matrixF matrixw matrixv matyt matg lags wex xr maxlag ->
  maxlag <= i < n_rows matrixxt ->
  shape_ok xt (n_rows matrixxt) (length lags) ->
  length fitv = length matyt -> length errv = length matyt ->
  finite_head xt ->
  let t := i - maxlag in
  let y := nth t matyt zero in
  let f := fitted_value matrixw wex xr (lagged xt lags i) t in
  exists xt_w xt',
    set_row xt i (new_state_row matrixF matrixv matg (lagged xt lags i) t (sub y f))
      = Some xt_w /\
    subst_prev xt_w = Some xt' /\
    ssfitter_step matrixF matrixw matrixv matyt matg wex xr
      (lag_offsets (n_rows matrixxt) maxlag lags) maxlag i (xt, fitv, errv)
      = Some (xt', upd t f fitv, upd t (sub y f) errv) /\
    shape_ok xt' (n_rows matrixxt) (length lags) /\
    finite_head xt' /\
    (forall p, p < length (mem xt_w) ->
       nth p (mem xt') zero =
       if is_finite (nth p (mem xt_w) zero) then nth p (mem xt_w) zero
       else nth (p - 1) (mem xt_w) zero).
Proof.
  intros Hok Hi [Hr [Hc Hlen]] Hlf Hle Hhead t y f.
  destruct (inputs_ok_maxlag_pos Hok) as [Hm1 [Hn1 Hl]].
  pose proof (ok_fit Hok) as Hfit.
  assert (Hfit' : (Z.of_nat (n_rows matrixxt * length lags) < uword_modulus)%Z).
  { eapply Z.le_lt_trans; [|exact Hfit]. apply inj_le. nia. }
  assert (Ht : t < length matyt) by (unfold t; rewrite (ok_xt_rows Hok) in Hi; lia).
  assert (Ex : elem xt (forward_lagrows (lag_offsets (n_rows matrixxt) maxlag lags) maxlag i)
               = Some (lagged xt lags i)).
  { rewrite forward_lagrows_eq; try lia.
    - apply gather_ok.
      + exact Hr.
      + intros l Hlin. specialize (Hl l Hlin). lia.
      + rewrite Hlen. lia.
    - intros l Hlin. specialize (Hl l Hlin). lia. }
  assert (Hxlen : length (lagged xt lags i) = length lags).
  { unfold lagged. apply mapi_length. }
  assert (Ey : nth_error matyt t = Some y).
  { unfold y. apply nth_error_nth'. exact Ht. }
  destruct (@filter_update_ok R SR matrixF matrixw matrixv matyt matg wex xr
              (forward_lagrows (lag_offsets (n_rows matrixxt) maxlag lags) maxlag i)
              t i xt fitv errv (lagged xt lags i) y Ex Ey)
    as [xt_w [Hset Hupd]];
    try (rewrite ?Hxlen, ?Hr, ?Hc;
         first [ rewrite (ok_w_rows Hok) | rewrite (ok_w_cols Hok)
               | rewrite (ok_v_rows Hok) | rewrite (ok_v_cols Hok)
               | rewrite (ok_wex_rows Hok) | rewrite (ok_xr_rows Hok)
               | rewrite (ok_F_rows Hok) | rewrite (ok_F_cols Hok)
               | idtac ];
         first [ exact (ok_ex_cols Hok) | exact (ok_g Hok)
               | symmetry; exact (ok_g Hok) | lia ]).
  destruct (set_row_shape _ _ _ Hset) as [Hr' [Hc' Hlen']].
  assert (Hpos : 0 < n_rows xt /\ 0 < n_cols xt) by lia.
  assert (Hhead' : finite_head xt_w).
  { intros x Hx. apply nth_error_nth with (d := zero) in Hx.
    change (nth 0 (mem xt_w) zero) with (at_ xt_w 0 0) in Hx.
    rewrite (set_row_at _ _ _ Hset) in Hx by lia.
    destruct (Nat.eqb_spec 0 i); [lia|].
    apply Hhead. subst x. unfold at_.
    change (0 + 0 * n_rows xt) with 0.
    apply nth_error_nth'. rewrite Hlen. nia. }
  destruct (subst_prev_spec xt_w) as [xt' [Hsub [Hr2 [Hc2 [Hlen2 Hnth]]]]].
  - rewrite Hlen', Hr, Hc. lia.
  - exact Hhead'.
  - exists xt_w, xt'. split; [exact Hset|]. split; [exact Hsub|]. split.
    + unfold ssfitter_step. fold t. rewrite Hupd, Hsub. reflexivity.
    + split; [|split; [|exact Hnth]].
      * unfold shape_ok. rewrite Hr2, Hc2, Hlen2, Hr', Hc', Hlen', Hr, Hc. auto.
      * intros x Hx. apply nth_error_nth with (d := zero) in Hx.
        rewrite Hnth in Hx by (rewrite Hlen'; nia).
        assert (F0 : is_finite (nth 0 (mem xt_w) zero) = true).
        { apply Hhead'. apply nth_error_nth'. rewrite Hlen'. nia. }
        rewrite F0 in Hx. subst x. exact F0.
Qed.

Lemma rows_finite_head (m : mat R) (n : nat) :
  1 <= n -> 1 <= n_cols m -> rows_finite m n -> finite_head m.
Proof.
  intros Hn Hc H x Hx. apply nth_error_nth with (d := zero) in Hx.
  subst x. change (nth 0 (mem m) zero) with (at_ m 0 0). apply H; lia.
Qed.

Lemma presample_finite_rows (m : mat R) (maxlag : nat) :
  presample_finite m maxlag = true -> rows_finite m maxlag.
Proof.
  unfold presample_finite. intros H r c Hr Hc.
  rewrite forallb_forall in H. specialize (H c). rewrite forallb_forall in H.
  apply H; apply in_seq; lia.
Qed.

(** One turn of the loop at row [i] when the rows below [i] are finite: they
    stay as they are, and row [i] is finite afterwards. *)
Lemma ssfitter_step_finite
    (matrixxt matrixF matrixw matrixv : mat R) (matyt matg : list R)
    (lags : list nat) (wex xr : mat R) (maxlag : nat)
    (i : nat) (xt : mat R) (fitv errv : list R) :
  inputs_ok matrixxt matrixF matrixw matrixv matyt matg lags wex xr maxlag ->
  maxlag <= i < n_rows matrixxt ->
  shape_ok xt (n_rows matrixxt) (length lags) ->
  length fitv = length matyt -> length errv = length matyt ->
  rows_finite xt i ->
  let t := i - maxlag in
  let y := nth t matyt zero in
  let f := fitted_value matrixw wex xr (lagged xt lags i) t in
  exists xt',
    ssfitter_step matrixF matrixw matrixv matyt matg wex xr
      (lag_offsets (n_rows matrixxt) maxlag lags) maxlag i (xt, fitv, errv)
      = Some (xt', upd t f fitv, upd t (sub y f) errv) /\
    shape_ok xt' (n_rows matrixxt) (length lags) /\
    rows_finite xt' (1 + i) /\
    (forall r c, r < i -> c < length lags -> at_ xt' r c = at_ xt r c).
Proof.
  intros Hok Hi Hshape Hlf Hle Hfin t y f.
  destruct (inputs_ok_maxlag_pos Hok) as [Hm1 [Hn1 _]].
  destruct Hshape as [Hr [Hc Hlen]].
  assert (Hhead : finite_head xt) by (apply (rows_finite_head (n := i)); auto; lia).
  destruct (ssfitter_step_ok fitv errv Hok Hi (conj Hr (conj Hc Hlen)) Hlf Hle Hhead)
    as [xt_w [xt' [Hset [Hsub [Hstep [Hshape' [_ Hnth]]]]]]].
  fold t y f in Hset, Hstep.
  destruct Hshape' as [Hr' [Hc' Hlen']].
  destruct (set_row_shape _ _ _ Hset) as [Hrw [Hcw Hlenw]].
  rewrite Hr in Hrw. rewrite Hc in Hcw. rewrite Hr, Hc in Hlenw.
  (* an entry of [xt_w] outside row [i] is an entry of [xt] *)
  assert (Hold : forall r c, r < n_rows matrixxt -> c < length lags -> r <> i ->
                   nth (r + c * n_rows matrixxt) (mem xt_w) zero = at_ xt r c).
  { intros r c Hrr Hcc Hne.
    pose proof (@set_row_at _ _ xt xt_w i _ r c Hset) as Hat. unfold at_ at 1 in Hat.
    rewrite Hrw in Hat. rewrite Hat by lia.
    destruct (Nat.eqb_spec r i); [contradiction | reflexivity]. }
  exists xt'. split; [exact Hstep|]. split; [unfold shape_ok; auto|]. split.
  - intros r c Hrr Hcc. rewrite Hc' in Hcc. unfold at_. rewrite Hr'.
    rewrite Hnth by (rewrite Hlenw; apply position_bound; lia).
    destruct (is_finite (nth (r + c * n_rows matrixxt) (mem xt_w) zero)) eqn:Fp;
      [exact Fp|].
    destruct (Nat.eq_dec r i) as [->|Hne].
    + replace (i + c * n_rows matrixxt - 1) with ((i - 1) + c * n_rows matrixxt) by lia.
      rewrite Hold by lia. apply Hfin; lia.
    + rewrite Hold in Fp by lia. rewrite Hfin in Fp by lia. discriminate.
  - intros r c Hrr Hcc. unfold at_ at 1. rewrite Hr'.
    rewrite Hnth by (rewrite Hlenw; apply position_bound; lia).
    rewrite Hold by lia. rewrite Hfin by lia. reflexivity.
Qed.

(** With a finite head the filter returns. *)
Lemma ssfitter_total
    (matrixxt matrixF matrixw matrixv : mat R) (matyt matg : list R)
    (lags : list nat) (wex xr : mat R) (maxlag : nat) :
  inputs_ok matrixxt matrixF matrixw matrixv matyt matg lags wex xr maxlag ->
  finite_head matrixxt ->
  exists res,
    ssfitter matrixxt matrixF matrixw matrixv matyt matg lags wex xr = Some res /\
    shape_ok (matxt res) (n_rows matrixxt) (length lags) /\
    length (yfit res) = length matyt /\ length (errors res) = length matyt.
Proof.
  intros Hok Hhead. unfold ssfitter. rewrite (ok_maxlag Hok).
  set (body := ssfitter_step matrixF matrixw matrixv matyt matg wex xr
                 (lag_offsets (n_rows matrixxt) maxlag lags) maxlag).
  destruct (@loop_seq_total _
              (fun (_ : nat) (st : fstate R) =>
                 shape_ok (fst (fst st)) (n_rows matrixxt) (length lags) /\
                 length (snd (fst st)) = length matyt /\
                 length (snd st) = length matyt /\
                 finite_head (fst (fst st)))
              body (n_rows matrixxt - maxlag) maxlag
              (matrixxt, repeat zero (length matyt), repeat zero (length matyt)))
    as [[[xt fitv] errv] [Hloop [Hs [Hf [He _]]]]].
  - intros i [[xt fitv] errv] Hi [Hs [Hf [He Hh]]]. cbn [fst snd] in *.
    assert (Hi' : maxlag <= i < n_rows matrixxt) by lia.
    destruct (ssfitter_step_ok fitv errv Hok Hi' Hs Hf He Hh)
      as [xt_w [xt' [_ [_ [Hstep [Hs' [Hh' _]]]]]]].
    eexists. split; [exact Hstep|]. cbn [fst snd].
    rewrite !upd_length. auto.
  - cbn [fst snd]. rewrite !repeat_length. unfold shape_ok.
    rewrite (ok_xt_len Hok), (ok_xt_cols Hok). repeat split; auto.
  - rewrite Hloop. eexists. split; [reflexivity|]. cbn [matxt yfit errors fst snd] in *. auto.
Qed.

End FilterTotal.

(** ** The recurrence of [ssfitter] *)

Section FilterClaim.
Context {R : Type} {SR : Scalar R}.

(** C1. On inputs of the expected shapes whose head entry is finite
    [ssfitter] returns.  Whenever it returns, for every row [i] from [maxlag]
    to the last row of the state history and [t = i - maxlag]: with [xt_i] the state
    history as the turn for [i] finds it and [x] its lagged state (component
    [k] read at row [i - lag_k]), the returned fitted value at [t] is
    [matrixw[t] . x + wex[t] . xtreg[t]], the returned residual at [t] is
    [matyt[t]] minus that fitted value, and the row the turn writes at [i] is
    [matrixF . x + (matg / matrixv[t]) * residual].  What the turn writes is
    what the call returns: a finite entry of that row is the entry of row [i]
    of the returned state history (the repair and the later turns leave it
    alone). *)
Theorem ssfitter_recurrence :
  forall (matrixxt matrixF matrixw matrixv : mat R) (matyt matg : list R)
         (lags : list nat) (wex xr : mat R) (maxlag : nat),
    max_uvec lags = Some maxlag ->
    (Z.of_nat (n_rows matrixxt * length lags) < uword_modulus)%Z ->
    (inputs_ok matrixxt matrixF matrixw matrixv matyt matg lags wex xr maxlag ->
     finite_head matrixxt ->
     exists res,
       ssfitter matrixxt matrixF matrixw matrixv matyt matg lags wex xr = Some res) /\
    forall res,
    ssfitter matrixxt matrixF matrixw matrixv matyt matg lags wex xr = Some res ->
    forall i, maxlag <= i < n_rows matrixxt ->
      let t := i - maxlag in
      let offs := lag_offsets (n_rows matrixxt) maxlag lags in
      exists (xt_i : mat R) (fitv errv : list R) (y : R) (xt_w : mat R),
        loop (ssfitter_step matrixF matrixw matrixv matyt matg wex xr offs maxlag)
             (seq maxlag t)
             (matrixxt, repeat zero (length matyt), repeat zero (length matyt))
        = Some (xt_i, fitv, errv) /\
        nth_error matyt t = Some y /\
        let x := lagged xt_i lags i in
        let f := fitted_value matrixw wex xr x t in
        let e := sub y f in
        nth_error (yfit res) t = Some f /\
        nth_error (errors res) t = Some e /\
        filter_update matrixF matrixw matrixv matyt matg wex xr
          (forward_lagrows offs maxlag i) t i (xt_i, fitv, errv)
        = Some (xt_w, upd t f fitv, upd t e errv) /\
        rowv xt_w i = new_state_row matrixF matrixv matg x t e /\
        forall c, c < n_cols xt_w -> is_finite (at_ xt_w i c) = true ->
          at_ (matxt res) i c = at_ xt_w i c.
Proof.
  intros matrixxt matrixF matrixw matrixv matyt matg lags wex xr maxlag Hmax Hfit.
  split.
  { intros Hok Hhead. destruct (ssfitter_total Hok Hhead) as [res [Hres _]].
    exists res. exact Hres. }
  intros res Hres i Hi t offs.
  unfold ssfitter in Hres. rewrite Hmax in Hres. fold offs in Hres.
  set (body := ssfitter_step matrixF matrixw matrixv matyt matg wex xr offs maxlag) in *.
  set (init := (matrixxt, repeat zero (length matyt), repeat zero (length matyt))) in *.
  destruct (loop body (seq maxlag (n_rows matrixxt - maxlag)) init)
    as [[[xtf fitf] errf]|] eqn:Hloop; [|discriminate].
  inversion Hres; subst res; clear Hres. cbn [matxt yfit errors].
  destruct (@loop_seq_split _ body maxlag (n_rows matrixxt - maxlag) i init _
              ltac:(lia) Hloop)
    as [[[xt_i fitv] errv] [[[xt2 fitv'] errv'] [Hpre [Hbody Hsuf]]]].
  (* the row count is stable over the turns before [i] *)
  assert (Hrows : n_rows xt_i = n_rows matrixxt).
  { change (n_rows (fst (fst (xt_i, fitv, errv))) = n_rows (fst (fst init))).
    apply (loop_invariant (fun st => n_rows (fst (fst st)) = n_rows (fst (fst init)))
             body (seq maxlag (i - maxlag))) with (s := init); auto.
    intros j s s' _ Hs Hb. rewrite <- Hs. apply (ssfitter_step_rows _ _ _ _ _ _ _ _ _ _ _ Hb). }
  destruct (ssfitter_step_some _ _ _ _ _ _ _ _ _ _ _ Hbody) as [xt_w [Hupd Hsub]].
  cbn [fst snd] in Hupd, Hsub.
  destruct (filter_update_some _ _ _ _ _ _ _ _ _ _ _ _ _ Hupd)
    as [x [y [Hx [Hy [Htf [Hte [Hf' [He' Hset]]]]]]]].
  assert (Hxl : x = lagged xt_i lags i).
  { unfold offs in Hx. rewrite forward_lagrows_eq in Hx; try lia.
    - apply (gather_some _ _ _ Hrows) in Hx. exact Hx.
    - intros l Hl. pose proof (max_uvec_ge _ Hmax l Hl). lia. }
  subst x.
  exists xt_i, fitv, errv, y, xt_w.
  split; [exact Hpre|]. split; [exact Hy|]. cbv zeta.
  (* the entries written at [t] survive the later turns *)
  assert (Hkeep : nth_error fitf t = nth_error fitv' t /\ nth_error errf t = nth_error errv' t).
  { apply (loop_invariant
             (fun st => nth_error (snd (fst st)) t = nth_error fitv' t /\
                        nth_error (snd st) t = nth_error errv' t)
             body (seq (1 + i) (maxlag + (n_rows matrixxt - maxlag) - i - 1)))
      with (s := (xt2, fitv', errv')) (s' := (xtf, fitf, errf)); auto.
    intros j [[sx sf] se] [[sx' sf'] se'] Hj [H1 H2] Hb.
    apply in_seq in Hj.
    destruct (ssfitter_step_some _ _ _ _ _ _ _ _ _ _ _ Hb) as [w1 [Hu1 _]].
    cbn [fst snd] in *.
    destruct (filter_update_some _ _ _ _ _ _ _ _ _ _ _ _ _ Hu1)
      as [x1 [y1 [_ [_ [_ [_ [-> [-> _]]]]]]]].
    rewrite !upd_nth_error_other by (unfold t; lia). auto. }
  destruct Hkeep as [Kf Ke]. rewrite Kf, Ke, Hf', He'.
  rewrite !upd_nth_error_same by assumption.
  split; [reflexivity|]. split; [reflexivity|]. split; [|split].
  - subst t. rewrite Hupd, Hf', He'. reflexivity.
  - apply (set_row_rowv _ _ _ Hset).
  - (* a finite entry of the written row survives the repair and the later turns *)
    intros c Hc Hfin.
    destruct (set_row_shape _ _ _ Hset) as [Hwr _].
    assert (Hiw : i < n_rows xt_w) by (rewrite Hwr, Hrows; lia).
    destruct (ssfitter_step_some _ _ _ _ _ _ _ _ _ _ _ Hbody) as [xt_w' [Hupd' Hsub']].
    cbn [fst snd] in Hupd', Hsub'. rewrite Hupd in Hupd'. inversion Hupd'; subst xt_w'.
    destruct (subst_prev_shape _ Hsub') as [Hr2 Hc2].
    pose proof (@subst_prev_keeps _ _ xt_w _ i c Hsub' Hfin) as Hk2.
    change (at_ (fst (fst (xtf, fitf, errf))) i c = at_ xt_w i c).
    apply (loop_invariant
             (fun st : fstate R =>
                n_rows (fst (fst st)) = n_rows xt_w /\
                n_cols (fst (fst st)) = n_cols xt_w /\
                at_ (fst (fst st)) i c = at_ xt_w i c)
             body (seq (1 + i) (maxlag + (n_rows matrixxt - maxlag) - i - 1)))
      with (s := (xt2, fitv', errv')); [| |exact Hsuf].
    + intros j s s' Hj [P1 [P2 P3]] Hb. apply in_seq in Hj.
      destruct (@ssfitter_step_keeps _ _ matrixF matrixw matrixv matyt matg wex xr offs
                  maxlag j s s' i c Hb) as [Q1 [Q2 Q3]].
      split; [congruence|]. split; [congruence|].
      rewrite Q3; [exact P3 | lia | rewrite P1; exact Hiw | rewrite P2; exact Hc
                  | rewrite P3; exact Hfin].
    + cbn [fst snd]. auto.
Qed.

End FilterClaim.

Lemma ssfitter_recurrence_witness :
  option_map (fun res : fit float => nth_error (yfit res) 2) sc_fit
  = Some (Some (fitted_value sc_matrixw sc_wex sc_xtreg
                  (lagged (col1 [0; 0.3; 0.81; 0; 0; 0]%float) sc_lags 3) 2)).
Proof.
  assert (Hfit : (Z.of_nat (n_rows (@sc_matrixxt float _) * length sc_lags)
                  < uword_modulus)%Z) by (vm_compute; reflexivity).
  assert (Hi : 1 <= 3 < n_rows (@sc_matrixxt float _)) by (vm_compute; lia).
  assert (Hres : ssfitter (R := float) sc_matrixxt sc_matrixF sc_matrixw sc_matrixv
                   sc_matyt sc_matg sc_lags sc_wex sc_xtreg
                 = Some (Fit (col1 [0; 0.3; 0.81; 1.467; 2.2269; 3.05883]%float)
                             [0; 0.3; 0.81; 1.467; 2.2269]%float
                             [1; 1.7; 2.19; 2.533; 2.7731]%float sc_xtreg))
    by (vm_compute; reflexivity).
  pose proof (proj2 (@ssfitter_recurrence float _ sc_matrixxt sc_matrixF sc_matrixw
                       sc_matrixv sc_matyt sc_matg sc_lags sc_wex sc_xtreg 1 eq_refl Hfit)
                _ Hres 3 Hi) as H.
  cbv zeta in H.
  destruct H as [xt_i [fitv [errv [y [xt_w [Hpre [_ [Hf _]]]]]]]].
  vm_compute in Hpre. inversion Hpre; subst xt_i.
  vm_compute. vm_compute in Hf. exact (f_equal Some Hf).
Defined.

(** ** Row and block views *)

Section Views.
Context {R : Type} {SR : Scalar R}.

Lemma span_ok_nat (a b n : nat) :
  a <= b < n -> span_ok (Z.of_nat a) (Z.of_nat b) n = true.
Proof.
  intros H. unfold span_ok. rewrite !andb_true_iff. repeat split.
  - apply Z.leb_le. lia.
  - apply Z.leb_le. lia.
  - apply Z.ltb_lt. lia.
Qed.

Lemma span_size (a b : nat) : a <= b ->
  Z.to_nat (Z.of_nat b - Z.of_nat a + 1) = b - a + 1.
Proof. intros H. lia. Qed.

Lemma rows_ok (m : mat R) (a b : nat) :
  a <= b < n_rows m ->
  rows m (Z.of_nat a) (Z.of_nat b)
  = Some (build (b - a + 1) (n_cols m) (fun r c => at_ m (a + r) c)).
Proof.
  intros H. unfold rows. rewrite span_ok_nat by exact H.
  rewrite span_size by lia. rewrite Nat2Z.id. reflexivity.
Qed.

Lemma submat_ok (m : mat R) (r1 c1 r2 c2 : nat) :
  r1 <= r2 < n_rows m -> c1 <= c2 < n_cols m ->
  submat m (Z.of_nat r1) (Z.of_nat c1) (Z.of_nat r2) (Z.of_nat c2)
  = Some (build (r2 - r1 + 1) (c2 - c1 + 1) (fun r c => at_ m (r1 + r) (c1 + c))).
Proof.
  intros Hr Hc. unfold submat. rewrite !span_ok_nat by assumption.
  rewrite !span_size by lia. rewrite !Nat2Z.id. reflexivity.
Qed.

Lemma set_submat_ok (m src : mat R) (r1 c1 r2 c2 : nat) :
  r1 <= r2 < n_rows m -> c1 <= c2 < n_cols m ->
  n_rows src = r2 - r1 + 1 -> n_cols src = c2 - c1 + 1 ->
  set_submat m (Z.of_nat r1) (Z.of_nat c1) (Z.of_nat r2) (Z.of_nat c2) src
  = Some (build (n_rows m) (n_cols m)
            (fun r c => if (r1 <=? r) && (r <=? r2) && (c1 <=? c) && (c <=? c2)
                        then at_ src (r - r1) (c - c1) else at_ m r c)).
Proof.
  intros Hr Hc Hsr Hsc. unfold set_submat. rewrite !span_ok_nat by assumption.
  rewrite !span_size by lia. rewrite !Nat2Z.id.
  rewrite Hsr, Hsc, !Nat.eqb_refl. reflexivity.
Qed.

Lemma set_submat_shape (m src m' : mat R) (r1 c1 r2 c2 : Z) :
  set_submat m r1 c1 r2 c2 src = Some m' ->
  n_rows m' = n_rows m /\ n_cols m' = n_cols m /\ length (mem m') = n_rows m * n_cols m.
Proof.
  unfold set_submat. destruct (_ && _); [|discriminate].
  intros H; inversion H. rewrite build_length. auto.
Qed.

Lemma vec_rows_ok (v : list R) (a b : nat) :
  a <= b < length v ->
  vec_rows v (Z.of_nat a) (Z.of_nat b) = Some (firstn (b - a + 1) (skipn a v)).
Proof.
  intros H. unfold vec_rows. rewrite span_ok_nat by exact H.
  rewrite span_size by lia. rewrite Nat2Z.id. reflexivity.
Qed.

Lemma nth_firstn_skipn (v : list R) (a n c : nat) :
  c < n -> nth c (firstn n (skipn a v)) zero = nth (a + c) v zero.
Proof.
  intros Hc. rewrite nth_firstn. destruct (Nat.ltb_spec c n); [|lia].
  apply nth_skipn.
Qed.

Lemma wrap_pred (n : nat) :
  1 <= n -> (Z.of_nat n < uword_modulus)%Z -> wrap (Z.of_nat n - 1) = Z.of_nat (n - 1).
Proof. intros H1 H2. rewrite wrap_small by lia. lia. Qed.

End Views.

(** ** The forecaster returns, and what its first forecast is *)

Section Forecaster.
Context {R : Type} {SR : Scalar R}.

Lemma lagged_length (m : mat R) (lags : list nat) (i : nat) :
  length (lagged m lags i) = length lags.
Proof. unfold lagged. apply mapi_length. Qed.

Lemma lagged_ext (m m' : mat R) (lags : list nat) (i j : nat) :
  (forall k l, nth_error lags k = Some l -> at_ m (i - l) k = at_ m' (j - l) k) ->
  lagged m lags i = lagged m' lags j.
Proof. intros H. unfold lagged. apply mapi_ext. exact H. Qed.

Lemma ssforecaster_step_ok
    (matrixF ws wexs xtregs : mat R) (lags : list nat) (maxlag hor : nat)
    (i : nat) (xtn : mat R) (fc : list R) :
  (forall l, In l lags -> 1 <= l <= maxlag) ->
  maxlag <= i < hor + maxlag ->
  shape_ok xtn (hor + maxlag) (length lags) ->
  length fc = hor ->
  n_rows matrixF = length lags -> n_cols matrixF = length lags ->
  hor <= n_rows ws -> n_cols ws = length lags ->
  hor <= n_rows wexs -> hor <= n_rows xtregs -> n_cols wexs = n_cols xtregs ->
  (Z.of_nat ((hor + maxlag) * length lags) < uword_modulus)%Z ->
  exists xt',
    ssforecaster_step matrixF ws wexs xtregs (lag_offsets (hor + maxlag) maxlag lags)
      maxlag i (xtn, fc)
    = Some (xt', upd (i - maxlag)
                   (fitted_value ws wexs xtregs (lagged xt' lags i) (i - maxlag)) fc) /\
    shape_ok xt' (hor + maxlag) (length lags) /\
    (forall r c, r < hor + maxlag -> c < length lags -> r <> i ->
                 at_ xt' r c = at_ xtn r c).
Proof.
  intros Hl Hi [Hr [Hc Hlen]] Hfc HFr HFc Hw1 Hw2 Hex1 Hxr1 Hex2 Hfit.
  assert (Hrows : forward_lagrows (lag_offsets (hor + maxlag) maxlag lags) maxlag i
                  = mapi (fun k l => Z.of_nat ((i - l) + k * (hor + maxlag))) lags).
  { apply forward_lagrows_eq; try lia.
    intros l Hlin. specialize (Hl l Hlin). lia. }
  unfold ssforecaster_step, propagate_update. rewrite Hrows.
  rewrite (gather_ok xtn lags i Hr).
  2:{ intros l Hlin. specialize (Hl l Hlin). lia. }
  2:{ rewrite Hlen. lia. }
  rewrite matvec_ok by (rewrite lagged_length; exact HFc).
  rewrite set_row_ok; [| lia | rewrite length_map, length_seq; lia].
  set (xt' := build (n_rows xtn) (n_cols xtn) _).
  assert (Hs' : shape_ok xt' (hor + maxlag) (length lags)).
  { unfold shape_ok, xt'. rewrite build_rows, build_cols, build_length, Hr, Hc. auto. }
  destruct Hs' as [Hr' [Hc' Hlen']].
  rewrite (gather_ok xt' lags i Hr').
  2:{ intros l Hlin. specialize (Hl l Hlin). lia. }
  2:{ rewrite Hlen'. lia. }
  rewrite (row_ok ws) by lia.
  rewrite dot_ok by (rewrite rowv_length, lagged_length; exact Hw2).
  rewrite (row_ok wexs) by lia. rewrite (row_ok xtregs) by lia.
  rewrite dot_ok by (rewrite !rowv_length; exact Hex2).
  rewrite vec_set_ok by lia.
  exists xt'. split; [reflexivity|]. split; [unfold shape_ok; auto|].
  intros r c Hrr Hcc Hne. unfold xt'. rewrite build_at by lia.
  destruct (Nat.eqb_spec r i); [contradiction | reflexivity].
Qed.

Lemma ssforecaster_ok
    (xs matrixF ws : mat R) (hor : nat) (lags : list nat) (wexs xtregs : mat R)
    (maxlag : nat) :
  max_uvec lags = Some maxlag ->
  (forall l, In l lags -> 1 <= l <= maxlag) ->
  1 <= length lags ->
  maxlag <= n_rows xs -> n_cols xs = length lags ->
  n_rows matrixF = length lags -> n_cols matrixF = length lags ->
  hor <= n_rows ws -> n_cols ws = length lags ->
  hor <= n_rows wexs -> hor <= n_rows xtregs -> n_cols wexs = n_cols xtregs ->
  (Z.of_nat ((hor + maxlag) * (length lags + 1)) < uword_modulus)%Z ->
  exists fc,
    ssforecaster xs matrixF ws hor lags wexs xtregs = Some fc /\
    length fc = hor /\
    (1 <= hor ->
     nth_error fc 0 = Some (fitted_value ws wexs xtregs (lagged xs lags maxlag) 0)).
Proof.
  intros Hmax Hl Hn1 Hxr Hxc HFr HFc Hw1 Hw2 Hex1 Hxr1 Hex2 Hfit.
  assert (Hm1 : 1 <= maxlag).
  { pose proof (max_uvec_in _ Hmax) as Hin. specialize (Hl _ Hin). lia. }
  assert (Hfit' : (Z.of_nat ((hor + maxlag) * length lags) < uword_modulus)%Z).
  { eapply Z.le_lt_trans; [|exact Hfit]. apply inj_le. nia. }
  unfold ssforecaster. rewrite Hmax.
  change (n_cols (zeros (hor + maxlag) (n_cols xs))) with (n_cols xs).
  assert (Hb1 : (Z.of_nat maxlag < uword_modulus)%Z).
  { eapply Z.le_lt_trans; [|exact Hfit]. apply inj_le. nia. }
  assert (Hb2 : (Z.of_nat (n_cols xs) < uword_modulus)%Z).
  { eapply Z.le_lt_trans; [|exact Hfit]. apply inj_le. nia. }
  rewrite (wrap_pred Hm1 Hb1).
  rewrite (wrap_pred (n := n_cols xs)) by (lia || exact Hb2).
  change 0%Z with (Z.of_nat 0).
  rewrite submat_ok by lia.
  rewrite set_submat_ok;
    [| unfold zeros; rewrite build_rows; lia | unfold zeros; rewrite build_cols; lia
     | rewrite build_rows; lia | rewrite build_cols; lia ].
  set (xt0 := build (n_rows (zeros (hor + maxlag) (n_cols xs))) _ _).
  assert (Hs0 : shape_ok xt0 (hor + maxlag) (length lags)).
  { unfold shape_ok, xt0, zeros.
    rewrite !build_rows, !build_cols, build_length, Hxc. auto. }
  assert (H0 : forall r c, r < maxlag -> c < length lags -> at_ xt0 r c = at_ xs r c).
  { intros r c Hr Hc. unfold xt0, zeros. rewrite !build_rows, !build_cols.
    rewrite build_at by lia.
    replace ((0 <=? r) && (r <=? maxlag - 1) && (0 <=? c) && (c <=? n_cols xs - 1))
      with true.
    - rewrite build_at by lia. f_equal; lia.
    - symmetry. rewrite !andb_true_iff, !Nat.leb_le. lia. }
  set (V := fitted_value ws wexs xtregs (lagged xs lags maxlag) 0).
  destruct (@loop_seq_total _
              (fun (i : nat) (st : mat R * list R) =>
                 shape_ok (fst st) (hor + maxlag) (length lags) /\
                 length (snd st) = hor /\
                 (forall r c, r < maxlag -> c < length lags ->
                              at_ (fst st) r c = at_ xs r c) /\
                 (maxlag < i -> nth_error (snd st) 0 = Some V))
              (ssforecaster_step matrixF ws wexs xtregs
                 (lag_offsets (hor + maxlag) maxlag lags) maxlag)
              hor maxlag (xt0, repeat zero hor))
    as [[xtn fc] [Hloop [_ [Hfc [_ Hv]]]]].
  - intros i [xtn fc] Hi [Hs [Hfc [Hpre Hv]]]. cbn [fst snd] in *.
    assert (Hi' : maxlag <= i < hor + maxlag) by lia.
    destruct (@ssforecaster_step_ok matrixF ws wexs xtregs lags maxlag hor i xtn fc
                Hl Hi' Hs Hfc HFr HFc Hw1 Hw2 Hex1 Hxr1 Hex2 Hfit')
      as [xt' [Hstep [Hs' Hsame]]].
    eexists. split; [exact Hstep|]. cbn [fst snd].
    split; [exact Hs'|]. split; [rewrite upd_length; exact Hfc|]. split.
    + intros r c Hr Hc. rewrite Hsame by lia. apply Hpre; assumption.
    + intros _. destruct (Nat.eq_dec i maxlag) as [->|Hne].
      * rewrite Nat.sub_diag. rewrite upd_nth_error_same by lia.
        f_equal. unfold V. f_equal. apply lagged_ext.
        intros k l Hk.
        assert (Hkl : k < length lags) by (apply nth_error_Some; congruence).
        assert (Hll : 1 <= l <= maxlag) by (apply Hl; eapply nth_error_In; eauto).
        rewrite Hsame by lia. apply Hpre; lia.
      * rewrite upd_nth_error_other by lia. apply Hv. lia.
  - cbn [fst snd]. rewrite repeat_length. repeat split; auto; try apply Hs0. lia.
  - rewrite Hloop. exists fc. split; [reflexivity|]. split; [exact Hfc|].
    intros Hh. apply Hv. lia.
Qed.

End Forecaster.

(** ** The rolling-origin errors *)

Section Errorer.
Context {R : Type} {SR : Scalar R}.

Lemma sserrorer_step_eq (matrixxt matrixF matrixw : mat R) (matyt : list R)
    (hor : nat) (lags : list nat) (wex xr : mat R) (maxlag i : nat) (E : mat R) :
  sserrorer_step matrixxt matrixF matrixw matyt hor lags wex xr maxlag i E =
  (fc <- origin_forecast matrixxt matrixF matrixw matyt hor lags wex xr maxlag i ;;
   let hh := Nat.min hor (length matyt + maxlag - i) in
   let t := Z.of_nat (i - maxlag) in
   ys <- vec_rows matyt t (wrap (t + Z.of_nat hh - 1)) ;;
   d <- vsub ys fc ;;
   set_submat E t 0 t (wrap (Z.of_nat hh - 1)) (Mat 1 (length d) d)).
Proof.
  unfold sserrorer_step, origin_forecast. cbv zeta.
  destruct (rows matrixxt _ _); [|reflexivity].
  destruct (rows matrixw _ _); [|reflexivity].
  destruct (rows wex _ _); [|reflexivity].
  destruct (rows xr _ _); reflexivity.
Qed.

Lemma errorer_ok_lags matrixxt matrixF matrixw (matyt : list R) hor lags wex xr maxlag :
  errorer_ok matrixxt matrixF matrixw matyt hor lags wex xr maxlag ->
  1 <= maxlag /\ 1 <= length lags /\ forall l, In l lags -> 1 <= l <= maxlag.
Proof.
  intros H. pose proof (max_uvec_in _ (eok_maxlag H)) as Hin.
  pose proof (eok_lags H) as Hl. rewrite Forall_forall in Hl.
  split; [apply Hl; exact Hin|]. split.
  - destruct lags; [contradiction | simpl; lia].
  - intros l Hlin. split; [apply Hl; exact Hlin|].
    apply (max_uvec_ge _ (eok_maxlag H)). exact Hlin.
Qed.

Lemma rowv_rows_view (m : mat R) (a n nc : nat) (r : nat) :
  r < n -> nc = n_cols m ->
  rowv (build n nc (fun r c => at_ m (a + r) c)) r = rowv m (a + r).
Proof.
  intros Hr ->. rewrite rowv_build by exact Hr. reflexivity.
Qed.

Lemma origin_forecast_ok
    (matrixxt matrixF matrixw : mat R) (matyt : list R) (hor : nat)
    (lags : list nat) (wex xr : mat R) (maxlag i : nat) :
  errorer_ok matrixxt matrixF matrixw matyt hor lags wex xr maxlag ->
  maxlag <= i < length matyt + maxlag ->
  exists fc,
    origin_forecast matrixxt matrixF matrixw matyt hor lags wex xr maxlag i = Some fc /\
    length fc = Nat.min hor (length matyt + maxlag - i) /\
    nth_error fc 0
    = Some (fitted_value matrixw wex xr (lagged matrixxt lags i) (i - maxlag)).
Proof.
  intros Hok Hi.
  destruct (errorer_ok_lags Hok) as [Hm1 [Hn1 Hl]].
  pose proof (eok_fit Hok) as Hfit. pose proof (eok_hor Hok) as Hhor.
  pose proof (eok_xt_rows Hok) as Hxr.
  set (obs := length matyt) in *.
  set (hh := Nat.min hor (obs + maxlag - i)).
  set (t := i - maxlag).
  assert (Hhh : 1 <= hh /\ hh <= hor /\ t + hh <= obs) by (unfold hh, t; lia).
  assert (Hbig : (Z.of_nat (obs + maxlag) < uword_modulus)%Z).
  { eapply Z.le_lt_trans; [|exact Hfit]. apply inj_le. rewrite Hxr. nia. }
  unfold origin_forecast. fold obs hh t. cbv zeta.
  rewrite (wrap_pred (n := i)) by lia.
  replace (Z.of_nat t + Z.of_nat hh - 1)%Z with (Z.of_nat (t + hh) - 1)%Z by lia.
  rewrite (wrap_pred (n := t + hh)) by lia.
  rewrite rows_ok by (unfold t; lia).
  rewrite (rows_ok matrixw) by (rewrite (eok_w_rows Hok); fold obs; lia).
  rewrite (rows_ok wex) by (rewrite (eok_wex_rows Hok); fold obs; lia).
  rewrite (rows_ok xr) by (rewrite (eok_xr_rows Hok); fold obs; lia).
  replace (i - 1 - t + 1) with maxlag by (unfold t; lia).
  replace (t + hh - 1 - t + 1) with hh by lia.
  destruct (@ssforecaster_ok _ _
              (build maxlag (n_cols matrixxt) (fun r c => at_ matrixxt (t + r) c))
              matrixF
              (build hh (n_cols matrixw) (fun r c => at_ matrixw (t + r) c))
              hh lags
              (build hh (n_cols wex) (fun r c => at_ wex (t + r) c))
              (build hh (n_cols xr) (fun r c => at_ xr (t + r) c))
              maxlag (eok_maxlag Hok) Hl Hn1)
    as [fc [Hfc [Hlen Hfirst]]];
    rewrite ?build_rows, ?build_cols;
    try first [ exact (eok_xt_cols Hok) | exact (eok_F_rows Hok) | exact (eok_F_cols Hok)
              | exact (eok_w_cols Hok) | exact (eok_ex_cols Hok) | lia ].
  - eapply Z.le_lt_trans; [|exact Hfit]. apply inj_le. rewrite Hxr. nia.
  - exists fc. split; [exact Hfc|]. split; [exact Hlen|].
    rewrite (Hfirst ltac:(lia)). f_equal. unfold fitted_value.
    rewrite !rowv_rows_view by (reflexivity || lia).
    rewrite Nat.add_0_r. f_equal. f_equal.
    apply lagged_ext. intros k l Hk.
    assert (Hkl : k < length lags) by (apply nth_error_Some; congruence).
    assert (Hll : 1 <= l <= maxlag) by (apply Hl; eapply nth_error_In; eauto).
    rewrite build_at by (rewrite ?(eok_xt_cols Hok); lia).
    f_equal. unfold t. lia.
Qed.

Lemma sserrorer_step_ok
    (matrixxt matrixF matrixw : mat R) (matyt : list R) (hor : nat)
    (lags : list nat) (wex xr : mat R) (maxlag i : nat) (E : mat R) (fc : list R) :
  errorer_ok matrixxt matrixF matrixw matyt hor lags wex xr maxlag ->
  maxlag <= i < length matyt + maxlag ->
  shape_ok E (length matyt) hor ->
  origin_forecast matrixxt matrixF matrixw matyt hor lags wex xr maxlag i = Some fc ->
  length fc = Nat.min hor (length matyt + maxlag - i) ->
  exists E',
    sserrorer_step matrixxt matrixF matrixw matyt hor lags wex xr maxlag i E = Some E' /\
    shape_ok E' (length matyt) hor /\
    forall r c, r < length matyt -> c < hor ->
      at_ E' r c =
      if (r =? i - maxlag) && (c <? Nat.min hor (length matyt + maxlag - i))
      then sub (nth (r + c) matyt zero) (nth c fc zero)
      else at_ E r c.
Proof.
  intros Hok Hi [Hr [Hc Hlen]] Hfc Hfl.
  pose proof (eok_fit Hok) as Hfit. pose proof (eok_hor Hok) as Hhor.
  pose proof (eok_xt_rows Hok) as Hxr.
  rewrite sserrorer_step_eq, Hfc. cbv zeta.
  set (obs := length matyt) in *.
  set (hh := Nat.min hor (obs + maxlag - i)) in *.
  set (t := i - maxlag).
  assert (Hhh : 1 <= hh /\ hh <= hor /\ t + hh <= obs) by (unfold hh, t; lia).
  assert (Hbig : (Z.of_nat (obs + maxlag) < uword_modulus)%Z).
  { eapply Z.le_lt_trans; [|exact Hfit]. apply inj_le. rewrite Hxr. nia. }
  replace (Z.of_nat t + Z.of_nat hh - 1)%Z with (Z.of_nat (t + hh) - 1)%Z by lia.
  rewrite (wrap_pred (n := t + hh)) by lia.
  rewrite (wrap_pred (n := hh)) by lia.
  rewrite vec_rows_ok by (fold obs; lia).
  replace (t + hh - 1 - t + 1) with hh by lia.
  assert (Hys : length (firstn hh (skipn t matyt)) = hh).
  { rewrite length_firstn, length_skipn. fold obs. lia. }
  unfold vsub. rewrite zipw_ok by lia.
  set (d := map _ (combine _ fc)).
  assert (Hd : length d = hh).
  { unfold d. rewrite length_map, length_combine. lia. }
  change 0%Z with (Z.of_nat 0).
  rewrite set_submat_ok; rewrite ?Hr, ?Hc; cbn [n_rows n_cols]; try lia.
  eexists. split; [reflexivity|]. split.
  - unfold shape_ok. rewrite build_rows, build_cols, build_length. auto.
  - intros r c Hrr Hcc. rewrite build_at by assumption.
    destruct (Nat.eqb_spec r t) as [->|Hne].
    + destruct (Nat.ltb_spec c hh) as [Hch|Hch].
      * replace ((t <=? t) && (t <=? t) && (0 <=? c) && (c <=? hh - 1)) with true
          by (symmetry; rewrite !andb_true_iff, !Nat.leb_le; lia).
        unfold at_. cbn [n_rows mem]. cbn [andb].
        replace (t - t + (c - 0) * 1) with c by lia.
        unfold d.
        rewrite nth_indep with (d' := sub (fst (zero, zero)) (snd (zero, zero)))
          by (fold d; lia).
        rewrite (map_nth (fun xy => sub (fst xy) (snd xy))).
        rewrite combine_nth by lia. cbn [fst snd].
        rewrite nth_firstn_skipn by exact Hch. reflexivity.
      * replace ((t <=? t) && (t <=? t) && (0 <=? c) && (c <=? hh - 1)) with false
          by (symmetry; rewrite !andb_false_iff, !Nat.leb_gt; lia).
        reflexivity.
    + replace ((t <=? r) && (r <=? t) && (0 <=? c) && (c <=? hh - 1)) with false.
      * reflexivity.
      * symmetry. rewrite !andb_false_iff, !Nat.leb_gt. lia.
Qed.

End Errorer.

(** ** How many rows of the error matrix are full *)

Lemma filter_false {A} (f : A -> bool) (l : list A) :
  (forall a, In a l -> f a = false) -> filter f l = [].
Proof.
  induction l as [|a l IH]; intros H; simpl; [reflexivity|].
  rewrite (H a (or_introl eq_refl)). apply IH. intros b Hb. apply H. right; exact Hb.
Qed.

Lemma filter_all {A} (f : A -> bool) (l : list A) :
  (forall a, In a l -> f a = true) -> filter f l = l.
Proof.
  induction l as [|a l IH]; intros H; simpl; [reflexivity|].
  rewrite (H a (or_introl eq_refl)). f_equal. apply IH. intros b Hb. apply H. right; exact Hb.
Qed.

Lemma count_below (f : nat -> bool) (n k : nat) :
  k <= n ->
  (forall r, r < n -> f r = (r <? k)) ->
  length (filter f (seq 0 n)) = k /\
  length (filter (fun r => negb (f r)) (seq 0 n)) = n - k.
Proof.
  intros Hk Hf.
  replace n with (k + (n - k)) at 1 2 by lia.
  rewrite seq_app, !filter_app, !length_app. simpl.
  rewrite (filter_all f (seq 0 k)), (filter_false f (seq k (n - k))),
          (filter_false (fun r => negb (f r)) (seq 0 k)),
          (filter_all (fun r => negb (f r)) (seq k (n - k))).
  - rewrite !length_seq. simpl. lia.
  - intros r Hr. apply in_seq in Hr. rewrite Hf by lia.
    destruct (Nat.ltb_spec r k); [lia | reflexivity].
  - intros r Hr. apply in_seq in Hr. rewrite Hf by lia.
    destruct (Nat.ltb_spec r k); [reflexivity | lia].
  - intros r Hr. apply in_seq in Hr. rewrite Hf by lia.
    destruct (Nat.ltb_spec r k); [lia | reflexivity].
  - intros r Hr. apply in_seq in Hr. rewrite Hf by lia.
    destruct (Nat.ltb_spec r k); [reflexivity | lia].
Qed.

Section ErrorMatrix.
Context {R : Type} {SR : Scalar R}.

(** The loop of [sserrorer], row by row. *)
Lemma sserrorer_entries
    (matrixxt matrixF matrixw : mat R) (matyt : list R) (hor : nat)
    (lags : list nat) (wex xr : mat R) (maxlag : nat) :
  errorer_ok matrixxt matrixF matrixw matyt hor lags wex xr maxlag ->
  let obs := length matyt in
  let hh := fun r => Nat.min hor (obs + maxlag - (r + maxlag)) in
  exists E,
    sserrorer matrixxt matrixF matrixw matyt hor lags wex xr = Some E /\
    shape_ok E obs hor /\
    forall r c, r < obs -> c < hor ->
      exists fc,
        origin_forecast matrixxt matrixF matrixw matyt hor lags wex xr maxlag
          (r + maxlag) = Some fc /\
        length fc = hh r /\
        nth_error fc 0
        = Some (fitted_value matrixw wex xr (lagged matrixxt lags (r + maxlag)) r) /\
        at_ E r c = if c <? hh r then sub (nth (r + c) matyt zero) (nth c fc zero)
                    else NA_REAL.
Proof.
  intros Hok obs hh.
  unfold sserrorer. rewrite (eok_maxlag Hok). fold obs.
  destruct (@loop_seq_total _
              (fun (i : nat) (E : mat R) =>
                 shape_ok E obs hor /\
                 forall r c, r < obs -> c < hor ->
                   if r + maxlag <? i
                   then exists fc,
                          origin_forecast matrixxt matrixF matrixw matyt hor lags wex xr
                            maxlag (r + maxlag) = Some fc /\
                          length fc = hh r /\
                          nth_error fc 0
                          = Some (fitted_value matrixw wex xr
                                    (lagged matrixxt lags (r + maxlag)) r) /\
                          at_ E r c = if c <? hh r
                                      then sub (nth (r + c) matyt zero) (nth c fc zero)
                                      else NA_REAL
                   else at_ E r c = NA_REAL)
              (sserrorer_step matrixxt matrixF matrixw matyt hor lags wex xr maxlag)
              obs maxlag (build obs hor (fun _ _ => NA_REAL)))
    as [E [Hloop [Hs Hent]]].
  - intros i E Hi [Hs Hent].
    assert (Hi' : maxlag <= i < length matyt + maxlag) by (fold obs; lia).
    destruct (origin_forecast_ok Hok Hi') as [fc [Hfc [Hfl Hfirst]]].
    destruct (sserrorer_step_ok Hok Hi' Hs Hfc Hfl) as [E' [Hstep [Hs' Hat]]].
    exists E'. split; [exact Hstep|]. split; [exact Hs'|].
    intros r c Hrr Hcc. specialize (Hent r c Hrr Hcc). rewrite (Hat r c Hrr Hcc).
    destruct (Nat.eqb_spec r (i - maxlag)) as [Hrt|Hrt].
    + assert (Ei : r + maxlag = i) by lia.
      destruct (Nat.ltb_spec (r + maxlag) (1 + i)); [|lia].
      destruct (Nat.ltb_spec (r + maxlag) i); [lia|].
      exists fc. rewrite Ei. split; [exact Hfc|].
      unfold hh. fold obs in Hfl. rewrite Ei. split; [exact Hfl|]. split.
      * rewrite Hfirst. f_equal. f_equal. lia.
      * cbn [andb]. fold obs.
        destruct (c <? Nat.min hor (obs + maxlag - i)); [reflexivity | exact Hent].
    + cbn [andb].
      destruct (Nat.ltb_spec (r + maxlag) (1 + i));
        destruct (Nat.ltb_spec (r + maxlag) i); try lia; exact Hent.
  - split.
    + unfold shape_ok. rewrite build_rows, build_cols, build_length. auto.
    + intros r c Hrr Hcc. destruct (Nat.ltb_spec (r + maxlag) maxlag); [lia|].
      rewrite build_at by assumption. reflexivity.
  - exists E. split; [exact Hloop|]. split; [exact Hs|].
    intros r c Hrr Hcc. specialize (Hent r c Hrr Hcc).
    destruct (Nat.ltb_spec (r + maxlag) (maxlag + obs)); [exact Hent | lia].
Qed.

End ErrorMatrix.

(** ** One-step rolling errors are the filter's residuals *)

Section RoundTrip.
Context {R : Type} {SR : Scalar R}.

(** The filter on a state history with finite pre-sample rows: it returns,
    and every residual is the observation minus the fitted value computed
    from the returned state history. *)
Lemma ssfitter_residuals_from_final_state
    (matrixxt matrixF matrixw matrixv : mat R) (matyt matg : list R)
    (lags : list nat) (wex xr : mat R) (maxlag : nat) :
  inputs_ok matrixxt matrixF matrixw matrixv matyt matg lags wex xr maxlag ->
  rows_finite matrixxt maxlag ->
  exists res,
    ssfitter matrixxt matrixF matrixw matrixv matyt matg lags wex xr = Some res /\
    shape_ok (matxt res) (n_rows matrixxt) (length lags) /\
    length (errors res) = length matyt /\
    xtreg res = xr /\
    forall t, t < length matyt ->
      nth_error (errors res) t
      = Some (sub (nth t matyt zero)
                  (fitted_value matrixw wex xr (lagged (matxt res) lags (t + maxlag)) t)).
Proof.
  intros Hok Hfin.
  destruct (inputs_ok_maxlag_pos Hok) as [Hm1 [Hn1 Hl]].
  unfold ssfitter. rewrite (ok_maxlag Hok).
  destruct (@loop_seq_total _
              (fun (i : nat) (st : fstate R) =>
                 shape_ok (fst (fst st)) (n_rows matrixxt) (length lags) /\
                 length (snd (fst st)) = length matyt /\
                 length (snd st) = length matyt /\
                 rows_finite (fst (fst st)) i /\
                 forall j, maxlag <= j < i ->
                   nth_error (snd st) (j - maxlag)
                   = Some (sub (nth (j - maxlag) matyt zero)
                               (fitted_value matrixw wex xr
                                  (lagged (fst (fst st)) lags j) (j - maxlag))))
              (ssfitter_step matrixF matrixw matrixv matyt matg wex xr
                 (lag_offsets (n_rows matrixxt) maxlag lags) maxlag)
              (n_rows matrixxt - maxlag) maxlag
              (matrixxt, repeat zero (length matyt), repeat zero (length matyt)))
    as [[[xt fitv] errv] [Hloop [Hs [_ [He [_ Herr]]]]]].
  - intros i [[xt fitv] errv] Hi [Hs [Hf [He [Hfi Herr]]]]. cbn [fst snd] in *.
    assert (Hi' : maxlag <= i < n_rows matrixxt) by lia.
    destruct (ssfitter_step_finite fitv errv Hok Hi' Hs Hf He Hfi)
      as [xt' [Hstep [Hs' [Hfi' Hsame]]]].
    eexists. split; [exact Hstep|]. cbn [fst snd].
    split; [exact Hs'|]. split; [rewrite upd_length; exact Hf|].
    split; [rewrite upd_length; exact He|]. split; [exact Hfi'|].
    intros j Hj.
    assert (Hlag : lagged xt' lags j = lagged xt lags j).
    { apply lagged_ext. intros k l Hk.
      assert (Hkl : k < length lags) by (apply nth_error_Some; congruence).
      assert (Hll : 1 <= l <= maxlag) by (apply Hl; eapply nth_error_In; eauto).
      apply Hsame; lia. }
    rewrite Hlag.
    destruct (Nat.eq_dec j i) as [->|Hne].
    + rewrite upd_nth_error_same; [reflexivity|].
      rewrite He. rewrite (ok_xt_rows Hok) in Hi'. lia.
    + rewrite upd_nth_error_other by lia. apply Herr. lia.
  - cbn [fst snd]. rewrite !repeat_length. unfold shape_ok.
    rewrite (ok_xt_len Hok), (ok_xt_cols Hok). repeat split; auto. intros j Hj. lia.
  - rewrite Hloop. eexists. split; [reflexivity|]. cbn [matxt errors xtreg fst snd] in *.
    split; [exact Hs|]. split; [exact He|]. split; [reflexivity|].
    intros t Ht.
    replace t with ((t + maxlag) - maxlag) at 1 2 4 by lia.
    apply Herr. rewrite (ok_xt_rows Hok). lia.
Qed.

(** C8, as the code has it. On inputs of the expected shapes whose
    pre-sample state rows (the first [maxlag] rows of the state history)
    are finite, the error matrix
    that [sserrorer] computes with horizon 1 from the state history
    [ssfitter] returns, and the same transition, measurement, series, lags
    and exogenous inputs, is the single column of the residuals [ssfitter]
    returns. *)
Theorem sserrorer_one_step_is_residuals :
  forall (matrixxt matrixF matrixw matrixv : mat R) (matyt matg : list R)
         (lags : list nat) (wex xr : mat R) (maxlag : nat),
    inputs_ok matrixxt matrixF matrixw matrixv matyt matg lags wex xr maxlag ->
    presample_finite matrixxt maxlag = true ->
    exists res E,
      ssfitter matrixxt matrixF matrixw matrixv matyt matg lags wex xr = Some res /\
      sserrorer (matxt res) matrixF matrixw matyt 1 lags wex (xtreg res) = Some E /\
      n_rows E = length matyt /\ n_cols E = 1 /\
      mem E = errors res.
Proof.
  intros matrixxt matrixF matrixw matrixv matyt matg lags wex xr maxlag Hok Hfin.
  destruct (ssfitter_residuals_from_final_state Hok (@presample_finite_rows _ _ matrixxt maxlag Hfin))
    as [res [Hres [[Hr [Hc Hlen]] [Hel [Hx Herr]]]]].
  assert (Heok : errorer_ok (matxt res) matrixF matrixw matyt 1 lags wex xr maxlag).
  { constructor; try solve [apply Hok]; try lia.
    - rewrite Hr. apply (ok_xt_rows Hok).
    - rewrite Hr. eapply Z.le_lt_trans; [|exact (ok_fit Hok)]. apply inj_le. nia. }
  destruct (sserrorer_entries Heok) as [E [HE [[Er [Ec Elen]] Hent]]].
  exists res, E. split; [exact Hres|]. rewrite Hx. split; [exact HE|].
  split; [exact Er|]. split; [exact Ec|].
  apply nth_ext with (d := zero) (d' := zero).
  - rewrite Elen, Hel. lia.
  - intros t Ht. rewrite Elen in Ht.
    destruct (Hent t 0) as [fc [_ [_ [Hfirst Hat]]]]; [lia | lia |].
    unfold at_ in Hat. rewrite Nat.add_0_r in Hat. rewrite Hat.
    replace (0 <? Nat.min 1 (length matyt + maxlag - (t + maxlag))) with true
      by (symmetry; apply Nat.ltb_lt; lia).
    rewrite Nat.add_0_r.
    rewrite (nth_error_nth _ _ zero Hfirst).
    symmetry. apply nth_error_nth. apply Herr. lia.
Qed.

End RoundTrip.

(** C8 does not hold for every input of the expected shapes: the
    finiteness of the pre-sample rows cannot be dropped.  A NaN in the last
    pre-sample row of a lag-1 component is read at the first turn and
    repaired after it; the row written from it is NaN again, and so on: every
    residual is NaN, while the returned state history, read back by
    [sserrorer], gives the one-step errors 0, which no tolerance brings
    close to a NaN. *)
Lemma presample_finiteness_needed :
  option_map (@errors float)
    (ssfitter ps_matrixxt ps_matrixF ps_matrixw ps_matrixw ps_matyt ps_matg ps_lags
              ps_wex ps_wex)
  = Some [nan; nan; nan]%float /\
  (f <- ssfitter ps_matrixxt ps_matrixF ps_matrixw ps_matrixw ps_matyt ps_matg ps_lags
                 ps_wex ps_wex ;;
   sserrorer (matxt f) ps_matrixF ps_matrixw ps_matyt 1 ps_lags ps_wex (xtreg f))
  = Some (Mat 3 1 [0; 0; 0]%float).
Proof. split; vm_compute; reflexivity. Qed.

Lemma sserrorer_one_step_is_residuals_witness :
  exists (res : fit float) (E : mat float),
    ssfitter sc_matrixxt sc_matrixF sc_matrixw sc_matrixv sc_matyt sc_matg sc_lags
             sc_wex sc_xtreg = Some res /\
    sserrorer (matxt res) sc_matrixF sc_matrixw sc_matyt 1 sc_lags sc_wex (xtreg res)
    = Some E /\
    mem E = errors res.
Proof.
  assert (Hok : inputs_ok (R := float) sc_matrixxt sc_matrixF sc_matrixw sc_matrixv
                  sc_matyt sc_matg sc_lags sc_wex sc_xtreg 1) by shapes_ok.
  assert (Hfin : presample_finite (@sc_matrixxt float _) 1 = true)
    by (vm_compute; reflexivity).
  destruct (sserrorer_one_step_is_residuals Hok Hfin) as [res [E [H1 [H2 [_ [_ H3]]]]]].
  exists res, E. repeat split; assumption.
Defined.

(** ** The trace costs *)

Section TraceCosts.
Context {R : Type} {SR : Scalar R} (L : libm R).

Lemma sserrorer_shape (matrixxt matrixF matrixw : mat R) (matyt : list R) (hor : nat)
    (lags : list nat) (wex xr : mat R) (E : mat R) :
  sserrorer matrixxt matrixF matrixw matyt hor lags wex xr = Some E ->
  n_rows E = length matyt /\ n_cols E = hor.
Proof.
  unfold sserrorer. destruct (max_uvec lags) as [maxlag|]; [|discriminate].
  intros H.
  apply (loop_invariant (fun E => n_rows E = length matyt /\ n_cols E = hor)
           (sserrorer_step matrixxt matrixF matrixw matyt hor lags wex xr maxlag)
           (seq maxlag (length matyt)))
    with (s := build (length matyt) hor (fun _ _ => NA_REAL)); auto.
  intros i s s' _ [Hr Hc] Hstep. rewrite sserrorer_step_eq in Hstep.
  destruct (origin_forecast _ _ _ _ _ _ _ _ _ _) as [fc|]; [|discriminate].
  cbv zeta in Hstep.
  destruct (vec_rows _ _ _) as [ys|]; [|discriminate].
  destruct (vsub ys fc) as [d|]; [|discriminate].
  destruct (set_submat_shape _ _ _ _ _ _ Hstep) as [Hr' [Hc' _]]. lia.
Qed.

Lemma build_one_column (n : nat) (f : nat -> nat -> R) :
  mem (build n 1 f) = map (fun r => f r 0) (seq 0 n).
Proof. unfold build. simpl. apply app_nil_r. Qed.

Lemma trace_step_ok (f : R -> R) (E : mat R) (obs c : nat) (CFres : R) :
  n_rows E = obs -> c < n_cols E -> c < obs ->
  (Z.of_nat obs < uword_modulus)%Z ->
  trace_step L f E obs c CFres = Some (add CFres (f (column_mean_square L E c (obs - c)))).
Proof.
  intros Hr Hc Hobs Hfit. unfold trace_step.
  replace (Z.of_nat obs - Z.of_nat c - 1)%Z with (Z.of_nat (obs - c) - 1)%Z by lia.
  rewrite (wrap_pred (n := obs - c)) by lia.
  change 0%Z with (Z.of_nat 0).
  rewrite submat_ok by lia.
  replace (obs - c - 1 - 0 + 1) with (obs - c) by lia.
  replace (c - c + 1) with 1 by lia.
  rewrite build_one_column, map_map. unfold column_mean_square.
  replace (map (fun x => pow L (at_ E (0 + x) (c + 0)) two) (seq 0 (obs - c)))
    with (map (fun r => pow L (at_ E r c) two) (seq 0 (obs - c)))
    by (apply map_ext; intros r; rewrite Nat.add_0_r; reflexivity).
  destruct (obs - c) as [|n] eqn:En; [lia|]. reflexivity.
Qed.

Lemma trace_loop_ok (f : R -> R) (E : mat R) (obs : nat) :
  n_rows E = obs -> (Z.of_nat obs < uword_modulus)%Z ->
  forall (l : list nat) (CFres : R),
    (forall c, In c l -> c < n_cols E /\ c < obs) ->
    loop (trace_step L f E obs) l CFres
    = Some (fold_left add (map (fun c => f (column_mean_square L E c (obs - c))) l) CFres).
Proof.
  intros Hr Hfit. induction l as [|c l IH]; intros CFres Hl; simpl.
  - reflexivity.
  - destruct (Hl c (or_introl eq_refl)) as [H1 H2].
    rewrite trace_step_ok by assumption.
    apply IH. intros c' Hc'. apply Hl. right; exact Hc'.
Qed.

(** C4, as the code has it. With [E] the rolling-origin error matrix of the
    fitted state, [TLV] returns the sum over the columns [c = 0 .. hor-1]
    (horizon [h = c + 1]) of the logarithm of the mean of the squares of the
    first [obs - c = obs - h + 1] entries of column [c]; [TV] returns the
    same sum without the logarithm. *)
Theorem ssoptimizer_trace_costs :
  forall (matrixxt matrixF matrixw matrixv : mat R) (matyt matg : list R) (hor : nat)
         (lags : list nat) (normalize : R) (backcasting : bool) (wex xr : mat R)
         (fitting : fit R) (E : mat R),
    (if backcasting
     then ssfitterbackcast matrixxt matrixF matrixw matrixv matyt matg lags wex xr
     else ssfitter matrixxt matrixF matrixw matrixv matyt matg lags wex xr)
    = Some fitting ->
    sserrorer (matxt fitting) matrixF matrixw matyt hor lags wex (xtreg fitting) = Some E ->
    hor <= length matyt ->
    (Z.of_nat (length matyt) < uword_modulus)%Z ->
    let obs := length matyt in
    ssoptimizer L matrixxt matrixF matrixw matrixv matyt matg hor lags "TLV"
                normalize backcasting wex xr
    = Some (accu (map (fun c => log L (column_mean_square L E c (obs - c))) (seq 0 hor))) /\
    ssoptimizer L matrixxt matrixF matrixw matrixv matyt matg hor lags "TV"
                normalize backcasting wex xr
    = Some (accu (map (fun c => column_mean_square L E c (obs - c)) (seq 0 hor))).
Proof.
  intros matrixxt matrixF matrixw matrixv matyt matg hor lags normalize backcasting
         wex xr fitting E Hfit HE Hhor Hsize obs.
  destruct (sserrorer_shape _ _ _ _ _ _ _ _ HE) as [Hr Hc].
  assert (Hl : forall c, In c (seq 0 hor) -> c < n_cols E /\ c < obs).
  { intros c Hin. apply in_seq in Hin. unfold obs. lia. }
  unfold ssoptimizer. rewrite Hfit. destruct fitting as [xt fitv errv xr'].
  cbn [matxt xtreg] in HE. cbn [String.eqb Ascii.eqb Bool.eqb]. rewrite HE.
  fold obs. unfold accu. split.
  - apply trace_loop_ok; assumption.
  - apply (trace_loop_ok (fun x => x)); assumption.
Qed.

End TraceCosts.

(** On the scenario with horizon 2 the [TV] cost is the mean of the five
    squared one-step errors plus the mean of the four squared two-step
    errors; the formula of the specification drops the last error of each
    column and gives another value. *)
Lemma ssoptimizer_TV_not_as_specified :
  exists E : mat xq,
    sc_rolling 2 = Some E /\
    ssoptimizer xq_libm sc_matrixxt sc_matrixF sc_matrixw sc_matrixv sc_matyt sc_matg
                2 sc_lags "TV" (num 1) false sc_wex sc_xtreg
    <> Some (trace_as_specified xq_libm (fun x => x) E 5 2).
Proof.
  eexists. split.
  - vm_compute. reflexivity.
  - vm_compute. discriminate.
Qed.

Lemma ssoptimizer_trace_costs_witness :
  ssoptimizer xq_libm sc_matrixxt sc_matrixF sc_matrixw sc_matrixv sc_matyt sc_matg
              2 sc_lags "TV" (num 1) false sc_wex sc_xtreg
  = Some (Some (3261375443 # 250000000)).
Proof.
  pose (fitting := match @sc_fit xq _ with
                   | Some f => f
                   | None => Fit sc_matrixxt [] [] sc_xtreg
                   end).
  pose (E := match sc_rolling 2 with Some E => E | None => sc_matrixxt end).
  assert (Hf : (if false
                then ssfitterbackcast sc_matrixxt sc_matrixF sc_matrixw sc_matrixv
                       sc_matyt sc_matg sc_lags sc_wex sc_xtreg
                else ssfitter sc_matrixxt sc_matrixF sc_matrixw sc_matrixv
                       sc_matyt sc_matg sc_lags sc_wex sc_xtreg) = Some fitting)
    by (vm_compute; reflexivity).
  assert (HE : sserrorer (matxt fitting) sc_matrixF sc_matrixw sc_matyt 2 sc_lags
                 sc_wex (xtreg fitting) = Some E) by (vm_compute; reflexivity).
  assert (Hhor : 2 <= length (@sc_matyt xq _)) by (vm_compute; lia).
  assert (Hsize : (Z.of_nat (length (@sc_matyt xq _)) < uword_modulus)%Z)
    by (vm_compute; reflexivity).
  destruct (@ssoptimizer_trace_costs xq _ xq_libm sc_matrixxt sc_matrixF sc_matrixw
              sc_matrixv sc_matyt sc_matg 2 sc_lags (num 1) false sc_wex sc_xtreg
              fitting E Hf HE Hhor Hsize)
    as [_ H].
  rewrite H. vm_compute. reflexivity.
Defined.

(** ** Invariants that follow the loop counter *)

Lemma loop_seq_invariant {St} (P : nat -> St -> Prop) (body : nat -> St -> option St) :
  forall (n start : nat) (s s' : St),
    (forall i t t', start <= i < start + n -> P i t -> body i t = Some t' -> P (1 + i) t') ->
    P start s -> loop body (seq start n) s = Some s' -> P (start + n) s'.
Proof.
  induction n as [|n IH]; intros start s s' Hb Hs Hl; simpl in Hl.
  - inversion Hl; subst. rewrite Nat.add_0_r. exact Hs.
  - destruct (body start s) as [s1|] eqn:E; [|discriminate].
    replace (start + S n) with (S start + n) by lia.
    apply IH with (s := s1); auto.
    + intros i t t' Hi. apply Hb. lia.
    + apply (Hb start s s1); auto. lia.
Qed.

Lemma loop_none {St} (body : nat -> St -> option St) (l : list nat) (i : nat) :
  In i l -> (forall s, body i s = None) -> forall s, loop body l s = None.
Proof.
  induction l as [|j l IH]; intros Hin Hb s; simpl.
  - contradiction.
  - destruct Hin as [->|Hin].
    + rewrite Hb. reflexivity.
    + destruct (body j s); [apply IH; assumption | reflexivity].
Qed.

(** A loop below zero raises as soon as its first turn does. *)
Lemma loop_from_raise {St} (guard : Z -> bool) (body : Z -> St -> option St)
    (i : Z) (s : St) (k : nat) :
  guard i = true -> body i s = None -> loop_from (S k) guard body i s = None.
Proof. intros Hg Hb. unfold loop_from. simpl. rewrite Hg, Hb. reflexivity. Qed.

Lemma loop_below_raise {St} (guard : Z -> bool) (body : Z -> St -> option St) (s : St) :
  guard (-1)%Z = true -> body (-1)%Z s = None -> loop_below guard body s = None.
Proof. intros Hg Hb. exact (loop_from_raise guard body (-1) s 31 Hg Hb). Qed.

(** What every turn keeps, the loop keeps. *)
Lemma turns_below_invariant {St} (P : St -> Prop) (guard : Z -> bool)
    (body : Z -> St -> option St) :
  (forall i s s', P s -> body i s = Some s' -> P s') ->
  forall k i s r, P s -> turns_below k guard body i s = Some r ->
    match r with inl s' => P s' | inr (_, s') => P s' end.
Proof.
  intros Hb. induction k as [|k IH]; intros i s r Hs H; simpl in H.
  - inversion H; subst. exact Hs.
  - destruct (guard i).
    + destruct (body i s) as [s1|] eqn:E; [|discriminate].
      destruct (int_pred i) as [i1|]; [|discriminate].
      destruct (turns_below k guard body i1 s1) as [[s2|[i2 s2]]|] eqn:E1; [| |discriminate].
      * inversion H; subst. exact (IH _ _ _ (Hb _ _ _ Hs E) E1).
      * exact (IH _ _ _ (IH _ _ _ (Hb _ _ _ Hs E) E1) H).
    + inversion H; subst. exact Hs.
Qed.

Lemma loop_from_invariant {St} (P : St -> Prop) (guard : Z -> bool)
    (body : Z -> St -> option St) (k : nat) (i : Z) (s s' : St) :
  (forall i t t', P t -> body i t = Some t' -> P t') ->
  P s -> loop_from k guard body i s = Some s' -> P s'.
Proof.
  intros Hb Hs H. unfold loop_from in H.
  destruct (turns_below k guard body i s) as [[s1|[i1 s1]]|] eqn:E; try discriminate.
  inversion H; subst. exact (turns_below_invariant P guard body Hb _ _ _ Hs E).
Qed.

Lemma loop_below_invariant {St} (P : St -> Prop) (guard : Z -> bool)
    (body : Z -> St -> option St) (s s' : St) :
  (forall i t t', P t -> body i t = Some t' -> P t') ->
  P s -> loop_below guard body s = Some s' -> P s'.
Proof. exact (@loop_from_invariant St P guard body 32 (-1) s s'). Qed.

Lemma mapM_length {A B} (f : A -> option B) (l : list A) (r : list B) :
  mapM f l = Some r -> length r = length l.
Proof.
  revert r. induction l as [|a l IH]; intros r H; simpl in H.
  - inversion H. reflexivity.
  - destruct (f a); [|discriminate]. destruct (mapM f l) as [bs|]; [|discriminate].
    inversion H. simpl. f_equal. apply IH. reflexivity.
Qed.

(** ** The state history [ssfitter] returns *)

Section FilterOutput.
Context {R : Type} {SR : Scalar R}.

(** One turn of the loop at row [i] when the rows before [i] are finite:
    what row [i] holds after the repair. *)
Lemma ssfitter_step_repaired
    (matrixxt matrixF matrixw matrixv : mat R) (matyt matg : list R)
    (lags : list nat) (wex xr : mat R) (maxlag : nat)
    (i : nat) (xt : mat R) (fitv errv : list R) :
  inputs_ok matrixxt matrixF matrixw matrixv matyt matg lags wex xr maxlag ->
  maxlag <= i < n_rows matrixxt ->
  shape_ok xt (n_rows matrixxt) (length lags) ->
  length fitv = length matyt -> length errv = length matyt ->
  rows_finite xt i ->
  let t := i - maxlag in
  let y := nth t matyt zero in
  let f := fitted_value matrixw wex xr (lagged xt lags i) t in
  exists xt',
    ssfitter_step matrixF matrixw matrixv matyt matg wex xr
      (lag_offsets (n_rows matrixxt) maxlag lags) maxlag i (xt, fitv, errv)
      = Some (xt', upd t f fitv, upd t (sub y f) errv) /\
    shape_ok xt' (n_rows matrixxt) (length lags) /\
    rows_finite xt' (1 + i) /\
    (forall r c, r < i -> c < length lags -> at_ xt' r c = at_ xt r c) /\
    (forall c, c < length lags ->
       at_ xt' i c =
       let v := nth c (new_state_row matrixF matrixv matg (lagged xt lags i) t (sub y f))
                    zero in
       if is_finite v then v else at_ xt (i - 1) c).
Proof.
  intros Hok Hi Hshape Hlf Hle Hfin t y f.
  destruct (inputs_ok_maxlag_pos Hok) as [Hm1 [Hn1 _]].
  destruct (ssfitter_step_finite fitv errv Hok Hi Hshape Hlf Hle Hfin)
    as [xt' [Hstep [Hshape' [Hfin' Hsame]]]].
  fold t y f in Hstep.
  exists xt'. split; [exact Hstep|]. split; [exact Hshape'|].
  split; [exact Hfin'|]. split; [exact Hsame|].
  destruct Hshape as [Hr [Hc Hlen]].
  assert (Hhead : finite_head xt) by (apply (rows_finite_head (n := i)); auto; lia).
  destruct (ssfitter_step_ok fitv errv Hok Hi (conj Hr (conj Hc Hlen)) Hlf Hle Hhead)
    as [xt_w [xt'' [Hset [Hsub [Hstep' [_ [_ Hnth]]]]]]].
  fold t y f in Hset, Hstep'.
  rewrite Hstep in Hstep'. inversion Hstep'; subst xt''. clear Hstep'.
  destruct Hshape' as [Hr' [Hc' Hlen']].
  destruct (set_row_shape _ _ _ Hset) as [Hrw [Hcw Hlenw]].
  rewrite Hr in Hrw. rewrite Hc in Hcw. rewrite Hr, Hc in Hlenw.
  intros c Hcc. cbv zeta.
  unfold at_ at 1. rewrite Hr'.
  rewrite Hnth by (rewrite Hlenw; apply position_bound; lia).
  pose proof (@set_row_at _ _ xt xt_w i _ i c Hset) as Hat. unfold at_ at 1 in Hat.
  rewrite Hrw in Hat. rewrite Hat by lia. rewrite Nat.eqb_refl.
  destruct (is_finite _); [reflexivity|].
  replace (i + c * n_rows matrixxt - 1) with ((i - 1) + c * n_rows matrixxt) by lia.
  pose proof (@set_row_at _ _ xt xt_w i _ (i - 1) c Hset) as Hat'. unfold at_ at 1 in Hat'.
  rewrite Hrw in Hat'. rewrite Hat' by lia.
  destruct (Nat.eqb_spec (i - 1) i); [lia | reflexivity].
Qed.

(** The filter on a state history with finite pre-sample rows, described by
    the state history it returns. *)
Lemma ssfitter_final_state
    (matrixxt matrixF matrixw matrixv : mat R) (matyt matg : list R)
    (lags : list nat) (wex xr : mat R) (maxlag : nat) :
  inputs_ok matrixxt matrixF matrixw matrixv matyt matg lags wex xr maxlag ->
  rows_finite matrixxt maxlag ->
  exists res,
    ssfitter matrixxt matrixF matrixw matrixv matyt matg lags wex xr = Some res /\
    shape_ok (matxt res) (n_rows matrixxt) (length lags) /\
    rows_finite (matxt res) (n_rows matrixxt) /\
    (forall r c, r < maxlag -> c < length lags -> at_ (matxt res) r c = at_ matrixxt r c) /\
    forall i, maxlag <= i < n_rows matrixxt ->
      let t := i - maxlag in
      let x := lagged (matxt res) lags i in
      let f := fitted_value matrixw wex xr x t in
      let e := sub (nth t matyt zero) f in
      nth_error (yfit res) t = Some f /\
      nth_error (errors res) t = Some e /\
      forall c, c < length lags ->
        at_ (matxt res) i c =
        let v := nth c (new_state_row matrixF matrixv matg x t e) zero in
        if is_finite v then v else at_ (matxt res) (i - 1) c.
Proof.
  intros Hok Hfin.
  destruct (inputs_ok_maxlag_pos Hok) as [Hm1 [Hn1 Hl]].
  unfold ssfitter. rewrite (ok_maxlag Hok).
  destruct (@loop_seq_total _
              (fun (i : nat) (st : fstate R) =>
                 shape_ok (fst (fst st)) (n_rows matrixxt) (length lags) /\
                 length (snd (fst st)) = length matyt /\
                 length (snd st) = length matyt /\
                 rows_finite (fst (fst st)) i /\
                 (forall r c, r < maxlag -> c < length lags ->
                    at_ (fst (fst st)) r c = at_ matrixxt r c) /\
                 forall j, maxlag <= j < i ->
                   let t := j - maxlag in
                   let x := lagged (fst (fst st)) lags j in
                   let f := fitted_value matrixw wex xr x t in
                   let e := sub (nth t matyt zero) f in
                   nth_error (snd (fst st)) t = Some f /\
                   nth_error (snd st) t = Some e /\
                   forall c, c < length lags ->
                     at_ (fst (fst st)) j c =
                     let v := nth c (new_state_row matrixF matrixv matg x t e) zero in
                     if is_finite v then v else at_ (fst (fst st)) (j - 1) c)
              (ssfitter_step matrixF matrixw matrixv matyt matg wex xr
                 (lag_offsets (n_rows matrixxt) maxlag lags) maxlag)
              (n_rows matrixxt - maxlag) maxlag
              (matrixxt, repeat zero (length matyt), repeat zero (length matyt)))
    as [[[xt fitv] errv] [Hloop [Hs [_ [_ [Hfi [Hpre Hrec]]]]]]].
  - intros i [[xt fitv] errv] Hi [Hs [Hf [He [Hfi [Hpre Hrec]]]]]. cbn [fst snd] in *.
    assert (Hi' : maxlag <= i < n_rows matrixxt) by lia.
    destruct (ssfitter_step_repaired fitv errv Hok Hi' Hs Hf He Hfi)
      as [xt' [Hstep [Hs' [Hfi' [Hsame Hrow]]]]].
    eexists. split; [exact Hstep|]. cbn [fst snd].
    split; [exact Hs'|]. split; [rewrite upd_length; exact Hf|].
    split; [rewrite upd_length; exact He|]. split; [exact Hfi'|].
    assert (Hlag : forall j, j <= i -> lagged xt' lags j = lagged xt lags j).
    { intros j Hj. apply lagged_ext. intros k l Hk.
      assert (Hkl : k < length lags) by (apply nth_error_Some; congruence).
      assert (Hll : 1 <= l <= maxlag) by (apply Hl; eapply nth_error_In; eauto).
      apply Hsame; lia. }
    assert (Ht : i - maxlag < length matyt) by (rewrite (ok_xt_rows Hok) in Hi'; lia).
    split.
    + intros r c Hr Hc. rewrite Hsame by lia. apply Hpre; assumption.
    + intros j Hj. cbv zeta. rewrite Hlag by lia.
      destruct (Nat.eq_dec j i) as [->|Hne].
      * rewrite !upd_nth_error_same by lia.
        split; [reflexivity|]. split; [reflexivity|].
        intros c Hc. rewrite (Hrow c Hc). cbv zeta.
        destruct (is_finite _); [reflexivity|]. symmetry. apply Hsame; lia.
      * rewrite !upd_nth_error_other by lia.
        destruct (Hrec j ltac:(lia)) as [H1 [H2 H3]].
        split; [exact H1|]. split; [exact H2|].
        intros c Hc. rewrite (Hsame j c) by lia. rewrite (Hsame (j - 1) c) by lia.
        apply (H3 c Hc).
  - cbn [fst snd]. rewrite !repeat_length. unfold shape_ok.
    rewrite (ok_xt_len Hok), (ok_xt_cols Hok). repeat split; auto; lia.
  - rewrite Hloop. eexists. split; [reflexivity|]. cbn [matxt yfit errors fst snd] in *.
    assert (E : maxlag + (n_rows matrixxt - maxlag) = n_rows matrixxt)
      by (rewrite (ok_xt_rows Hok); lia).
    rewrite E in Hfi.
    split; [exact Hs|]. split; [exact Hfi|].
    split; [exact Hpre|]. intros i Hi. apply Hrec; lia.
Qed.

(** X1. On inputs of the expected shapes whose pre-sample state rows are
    finite, [ssfitter] returns a state history without a non-finite entry,
    whatever the arithmetic of the recurrence produced on the way, and the
    pre-sample rows of that history are the ones it was given. *)
Theorem ssfitter_state_finite :
  forall (matrixxt matrixF matrixw matrixv : mat R) (matyt matg : list R)
         (lags : list nat) (wex xr : mat R) (maxlag : nat),
    inputs_ok matrixxt matrixF matrixw matrixv matyt matg lags wex xr maxlag ->
    presample_finite matrixxt maxlag = true ->
    exists res,
      ssfitter matrixxt matrixF matrixw matrixv matyt matg lags wex xr = Some res /\
      n_rows (matxt res) = n_rows matrixxt /\ n_cols (matxt res) = n_cols matrixxt /\
      (forall r c, r < n_rows matrixxt -> c < n_cols matrixxt ->
         is_finite (at_ (matxt res) r c) = true) /\
      (forall r c, r < maxlag -> c < n_cols matrixxt ->
         at_ (matxt res) r c = at_ matrixxt r c).
Proof.
  intros matrixxt matrixF matrixw matrixv matyt matg lags wex xr maxlag Hok Hfin.
  destruct (ssfitter_final_state Hok (@presample_finite_rows _ _ matrixxt maxlag Hfin))
    as [res [Hres [[Hr [Hc _]] [Hall [Hpre _]]]]].
  exists res. split; [exact Hres|]. rewrite (ok_xt_cols Hok).
  split; [exact Hr|]. split; [exact Hc|]. split.
  - intros r c Hrr Hcc. apply Hall; [exact Hrr | rewrite Hc; exact Hcc].
  - exact Hpre.
Qed.

(** X2. The same call, read on the state history it returns: row [i >= maxlag]
    holds, component by component, the value
    [matrixF . x + (matg / matrixv[t]) * e] of the recurrence, computed from
    the lagged rows [x] of the returned history and the residual [e] of
    period [t = i - maxlag], or, where that value is not finite, the entry of
    the row above. *)
Theorem ssfitter_state_recurrence :
  forall (matrixxt matrixF matrixw matrixv : mat R) (matyt matg : list R)
         (lags : list nat) (wex xr : mat R) (maxlag : nat),
    inputs_ok matrixxt matrixF matrixw matrixv matyt matg lags wex xr maxlag ->
    presample_finite matrixxt maxlag = true ->
    exists res,
      ssfitter matrixxt matrixF matrixw matrixv matyt matg lags wex xr = Some res /\
      forall i c, maxlag <= i < n_rows matrixxt -> c < length lags ->
        let t := i - maxlag in
        let x := lagged (matxt res) lags i in
        let f := fitted_value matrixw wex xr x t in
        let e := sub (nth t matyt zero) f in
        let v := nth c (new_state_row matrixF matrixv matg x t e) zero in
        nth_error (yfit res) t = Some f /\
        nth_error (errors res) t = Some e /\
        at_ (matxt res) i c = if is_finite v then v else at_ (matxt res) (i - 1) c.
Proof.
  intros matrixxt matrixF matrixw matrixv matyt matg lags wex xr maxlag Hok Hfin.
  destruct (ssfitter_final_state Hok (@presample_finite_rows _ _ matrixxt maxlag Hfin))
    as [res [Hres [_ [_ [_ Hrec]]]]].
  exists res. split; [exact Hres|].
  intros i c Hi Hc. cbv zeta.
  destruct (Hrec i Hi) as [H1 [H2 H3]].
  split; [exact H1|]. split; [exact H2|]. apply (H3 c Hc).
Qed.

End FilterOutput.

Lemma ssfitter_state_finite_witness :
  exists res : fit float,
    ssfitter sc_matrixxt sc_matrixF sc_matrixw sc_zero_scale sc_matyt sc_matg sc_lags
             sc_wex sc_xtreg = Some res /\
    forall r c, r < n_rows (@sc_matrixxt float _) -> c < n_cols (@sc_matrixxt float _) ->
      is_finite (at_ (matxt res) r c) = true.
Proof.
  assert (Hok : inputs_ok (R := float) sc_matrixxt sc_matrixF sc_matrixw sc_zero_scale
                  sc_matyt sc_matg sc_lags sc_wex sc_xtreg 1) by shapes_ok.
  assert (Hfin : presample_finite (@sc_matrixxt float _) 1 = true)
    by (vm_compute; reflexivity).
  destruct (ssfitter_state_finite Hok Hfin) as [res [H1 [_ [_ [H2 _]]]]].
  exists res. split; assumption.
Defined.

Lemma ssfitter_state_recurrence_witness :
  exists res : fit float,
    ssfitter sc_matrixxt sc_matrixF sc_matrixw sc_matrixv sc_matyt sc_matg sc_lags
             sc_wex sc_xtreg = Some res /\
    nth_error (errors res) 2
    = Some (sub (nth 2 sc_matyt zero)
                (fitted_value sc_matrixw sc_wex sc_xtreg (lagged (matxt res) sc_lags 3) 2)).
Proof.
  assert (Hok : inputs_ok (R := float) sc_matrixxt sc_matrixF sc_matrixw sc_matrixv
                  sc_matyt sc_matg sc_lags sc_wex sc_xtreg 1) by shapes_ok.
  assert (Hfin : presample_finite (@sc_matrixxt float _) 1 = true)
    by (vm_compute; reflexivity).
  assert (Hi : 1 <= 3 < n_rows (@sc_matrixxt float _)) by (vm_compute; lia).
  assert (Hc : 0 < length sc_lags) by (vm_compute; lia).
  destruct (ssfitter_state_recurrence Hok Hfin) as [res [H1 H2]].
  exists res. split; [exact H1|].
  destruct (H2 3 0 Hi Hc) as [_ [H3 _]]. exact H3.
Defined.

(** ** What a call that returns tells about its operands *)

Section Conformance.
Context {R : Type} {SR : Scalar R}.

Lemma elem_length (m : mat R) (idx : list Z) (x : list R) :
  elem m idx = Some x -> length x = length idx.
Proof. apply mapM_length. Qed.

Lemma dot_conformant (a b : list R) (x : R) : dot a b = Some x -> length a = length b.
Proof.
  unfold dot. destruct (Nat.eqb_spec (length a) (length b)); [auto | discriminate].
Qed.

Lemma forward_lagrows_length (rowcount maxlag i : nat) (lags : list nat) :
  length (forward_lagrows (lag_offsets rowcount maxlag lags) maxlag i) = length lags.
Proof. unfold forward_lagrows, lag_offsets. rewrite length_map. apply mapi_length. Qed.

(** The size checks one filter update passes. *)
Lemma filter_update_conformant
    (matrixF matrixw matrixv : mat R) (matyt matg : list R) (wex xr : mat R)
    (lagrows : list Z) (t i : nat) (xt : mat R) (fitv errv : list R) (st' : fstate R) :
  filter_update matrixF matrixw matrixv matyt matg wex xr lagrows t i (xt, fitv, errv)
    = Some st' ->
  t < n_rows matrixw /\ n_cols matrixw = length lagrows /\
  t < n_rows wex /\ t < n_rows xr /\ n_cols wex = n_cols xr /\
  t < length matyt /\ t < length fitv /\ t < length errv /\
  n_cols matrixF = length lagrows /\
  t < n_rows matrixv /\ length matg = n_cols matrixv /\ n_rows matrixF = length matg /\
  i < n_rows xt /\ n_rows matrixF = n_cols xt.
Proof.
  unfold filter_update. intros H.
  destruct (elem xt lagrows) as [x|] eqn:Ex; [|discriminate].
  destruct (row matrixw t) as [wr|] eqn:Ewr; [|discriminate].
  destruct (dot wr x) as [wx|] eqn:Ewx; [|discriminate].
  destruct (row wex t) as [er|] eqn:Eer; [|discriminate].
  destruct (row xr t) as [xrr|] eqn:Exr; [|discriminate].
  destruct (dot er xrr) as [ex|] eqn:Eex; [|discriminate].
  destruct (vec_set fitv t (add wx ex)) as [fitv1|] eqn:Ef; [|discriminate].
  destruct (vec_at matyt t) as [y|] eqn:Ey; [|discriminate].
  destruct (vec_at fitv1 t) as [f|] eqn:Eft; [|discriminate].
  destruct (vec_set errv t (sub y f)) as [errv1|] eqn:Ee; [|discriminate].
  destruct (matvec matrixF x) as [Fx|] eqn:EFx; [|discriminate].
  destruct (row matrixv t) as [vr|] eqn:Evr; [|discriminate].
  destruct (vdiv matg vr) as [gv|] eqn:Egv; [|discriminate].
  destruct (vec_at errv1 t) as [e|] eqn:Eet; [|discriminate].
  destruct (vadd Fx (vscale gv e)) as [new|] eqn:Enew; [|discriminate].
  destruct (set_row xt i new) as [xt1|] eqn:Eset; [|discriminate].
  clear H.
  apply elem_length in Ex.
  apply row_some in Ewr, Eer, Exr, Evr.
  destruct Ewr as [Hw ->], Eer as [Hwex ->], Exr as [Hxr ->], Evr as [Hv ->].
  apply dot_conformant in Ewx, Eex. rewrite !rowv_length in *.
  apply vec_set_some in Ef, Ee. destruct Ef as [Htf _], Ee as [Hte _].
  assert (Hy : t < length matyt) by (apply nth_error_Some; unfold vec_at in Ey; congruence).
  destruct (matvec_some _ _ EFx) as [HF ->].
  destruct (zipw_some _ _ _ Egv) as [Hg ->]. rewrite rowv_length in Hg.
  destruct (zipw_some _ _ _ Enew) as [Hn ->].
  destruct (set_row_some _ _ _ Eset) as [Hi [Hlen _]].
  unfold vscale in Hn, Hlen.
  repeat first [ rewrite length_map in Hn | rewrite length_combine in Hn
               | rewrite length_seq in Hn | rewrite rowv_length in Hn ].
  repeat first [ rewrite length_map in Hlen | rewrite length_combine in Hlen
               | rewrite length_seq in Hlen | rewrite rowv_length in Hlen ].
  repeat split; try assumption; lia.
Qed.

Lemma ssfitter_step_shape
    (matrixF matrixw matrixv : mat R) (matyt matg : list R) (wex xr : mat R)
    (offs : list Z) (maxlag i : nat) (st st' : fstate R) :
  ssfitter_step matrixF matrixw matrixv matyt matg wex xr offs maxlag i st = Some st' ->
  n_rows (fst (fst st')) = n_rows (fst (fst st)) /\
  n_cols (fst (fst st')) = n_cols (fst (fst st)) /\
  length (snd (fst st')) = length (snd (fst st)) /\
  length (snd st') = length (snd st).
Proof.
  intros H. destruct (ssfitter_step_some _ _ _ _ _ _ _ _ _ _ _ H) as [xt1 [Hu Hs]].
  destruct st as [[xt fitv] errv]. destruct st' as [[xt' fitv'] errv'].
  cbn [fst snd] in *.
  destruct (filter_update_some _ _ _ _ _ _ _ _ _ _ _ _ _ Hu)
    as [x [y [_ [_ [_ [_ [-> [-> Hset]]]]]]]].
  destruct (set_row_shape _ _ _ Hset) as [Hr [Hc _]].
  destruct (subst_prev_shape _ Hs) as [Hr' Hc'].
  rewrite !upd_length. repeat split; congruence.
Qed.

(** The shape of the state and the lengths of the two vectors after any
    number of turns. *)
Lemma ssfitter_loop_shape
    (matrixF matrixw matrixv : mat R) (matyt matg : list R) (wex xr : mat R)
    (offs : list Z) (maxlag : nat) (l : list nat) (st st' : fstate R) :
  loop (ssfitter_step matrixF matrixw matrixv matyt matg wex xr offs maxlag) l st = Some st' ->
  n_rows (fst (fst st')) = n_rows (fst (fst st)) /\
  n_cols (fst (fst st')) = n_cols (fst (fst st)) /\
  length (snd (fst st')) = length (snd (fst st)) /\
  length (snd st') = length (snd st).
Proof.
  intros H.
  apply (loop_invariant
           (fun s : fstate R =>
              n_rows (fst (fst s)) = n_rows (fst (fst st)) /\
              n_cols (fst (fst s)) = n_cols (fst (fst st)) /\
              length (snd (fst s)) = length (snd (fst st)) /\
              length (snd s) = length (snd st))
           (ssfitter_step matrixF matrixw matrixv matyt matg wex xr offs maxlag) l)
    with (s := st); auto.
  intros i s s' _ [H1 [H2 [H3 H4]]] Hb.
  destruct (ssfitter_step_shape _ _ _ _ _ _ _ _ _ _ _ Hb) as [G1 [G2 [G3 G4]]].
  repeat split; congruence.
Qed.

(** X3. [ssfitter] returns only on conformant operands.  When it returns and
    the state history has more than [maxlag] rows, the history has at most
    [obs + maxlag] rows, the measurement, scale and exogenous matrices have a
    row for every period the loop visits, and the column counts agree the way
    the products and the row assignment of lines 37-39 need them to. *)
Theorem ssfitter_returns_only_conformant :
  forall (matrixxt matrixF matrixw matrixv : mat R) (matyt matg : list R)
         (lags : list nat) (wex xr : mat R) (maxlag : nat) (res : fit R),
    ssfitter matrixxt matrixF matrixw matrixv matyt matg lags wex xr = Some res ->
    max_uvec lags = Some maxlag ->
    maxlag < n_rows matrixxt ->
    let periods := n_rows matrixxt - maxlag in
    periods <= length matyt /\
    periods <= n_rows matrixw /\ n_cols matrixw = length lags /\
    periods <= n_rows matrixv /\ n_cols matrixv = length matg /\
    n_rows matrixF = n_cols matrixxt /\ n_cols matrixF = length lags /\
    length matg = n_cols matrixxt /\
    periods <= n_rows wex /\ periods <= n_rows xr /\ n_cols wex = n_cols xr.
Proof.
  intros matrixxt matrixF matrixw matrixv matyt matg lags wex xr maxlag res
         Hres Hmax Hrows periods.
  unfold ssfitter in Hres. rewrite Hmax in Hres.
  set (offs := lag_offsets (n_rows matrixxt) maxlag lags) in *.
  set (body := ssfitter_step matrixF matrixw matrixv matyt matg wex xr offs maxlag) in *.
  set (init := (matrixxt, repeat zero (length matyt), repeat zero (length matyt))) in *.
  destruct (loop body (seq maxlag (n_rows matrixxt - maxlag)) init)
    as [[[xtf fitf] errf]|] eqn:Hloop; [|discriminate].
  destruct (@loop_seq_split _ body maxlag (n_rows matrixxt - maxlag) (n_rows matrixxt - 1)
              init _ ltac:(lia) Hloop)
    as [[[xt_i fitv] errv] [st2 [Hpre [Hbody _]]]].
  destruct (ssfitter_loop_shape _ _ _ _ _ _ _ _ _ _ _ Hpre) as [Hr [Hc [Hf _]]].
  cbn [fst snd init] in Hr, Hc, Hf. rewrite repeat_length in Hf.
  destruct (ssfitter_step_some _ _ _ _ _ _ _ _ _ _ _ Hbody) as [xt_w [Hupd _]].
  apply filter_update_conformant in Hupd.
  unfold offs in Hupd. rewrite forward_lagrows_length in Hupd.
  rewrite Hc, Hf in Hupd. unfold periods.
  repeat split; try lia.
Qed.

(** X4. Periods the state history does not reach.  When the state history
    has fewer than [obs + maxlag] rows the loop stops early, and the fitted
    values and residuals of the periods it did not visit are returned as the
    zeros the two vectors were created with; with at most [maxlag] rows no
    period is visited and the state history is returned as given. *)
Theorem ssfitter_unvisited_periods :
  forall (matrixxt matrixF matrixw matrixv : mat R) (matyt matg : list R)
         (lags : list nat) (wex xr : mat R) (maxlag : nat) (res : fit R),
    ssfitter matrixxt matrixF matrixw matrixv matyt matg lags wex xr = Some res ->
    max_uvec lags = Some maxlag ->
    length (yfit res) = length matyt /\
    length (errors res) = length matyt /\
    (forall t, n_rows matrixxt - maxlag <= t < length matyt ->
       nth_error (yfit res) t = Some zero /\ nth_error (errors res) t = Some zero) /\
    (n_rows matrixxt <= maxlag -> matxt res = matrixxt).
Proof.
  intros matrixxt matrixF matrixw matrixv matyt matg lags wex xr maxlag res Hres Hmax.
  unfold ssfitter in Hres. rewrite Hmax in Hres.
  set (offs := lag_offsets (n_rows matrixxt) maxlag lags) in *.
  set (body := ssfitter_step matrixF matrixw matrixv matyt matg wex xr offs maxlag) in *.
  set (init := (matrixxt, repeat zero (length matyt), repeat zero (length matyt))) in *.
  destruct (loop body (seq maxlag (n_rows matrixxt - maxlag)) init)
    as [[[xtf fitf] errf]|] eqn:Hloop; [|discriminate].
  inversion Hres; subst res; clear Hres. cbn [yfit errors matxt].
  destruct (ssfitter_loop_shape _ _ _ _ _ _ _ _ _ _ _ Hloop) as [_ [_ [Hf He]]].
  cbn [fst snd init] in Hf, He. rewrite repeat_length in Hf, He.
  split; [exact Hf|]. split; [exact He|]. split.
  - intros t Ht.
    apply (loop_invariant
             (fun s : fstate R =>
                nth_error (snd (fst s)) t = Some zero /\ nth_error (snd s) t = Some zero)
             body (seq maxlag (n_rows matrixxt - maxlag)))
      with (s := init) (s' := (xtf, fitf, errf)); auto.
    + intros j [[sx sf] se] [[sx' sf'] se'] Hj [H1 H2] Hb.
      apply in_seq in Hj.
      destruct (ssfitter_step_some _ _ _ _ _ _ _ _ _ _ _ Hb) as [w1 [Hu1 _]].
      cbn [fst snd] in *.
      destruct (filter_update_some _ _ _ _ _ _ _ _ _ _ _ _ _ Hu1)
        as [x1 [y1 [_ [_ [_ [_ [-> [-> _]]]]]]]].
      rewrite !upd_nth_error_other by lia. auto.
    + cbn [fst snd init]. rewrite nth_error_repeat by lia. auto.
  - intros Hshort. replace (n_rows matrixxt - maxlag) with 0 in Hloop by lia.
    simpl in Hloop. inversion Hloop. reflexivity.
Qed.

End Conformance.

Lemma ssfitter_returns_only_conformant_witness :
  n_cols (@sc_matrixw float _) = length sc_lags /\
  n_rows (@sc_matrixF float _) = n_cols (@sc_matrixxt float _).
Proof.
  destruct (ssfitter (R := float) sc_matrixxt sc_matrixF sc_matrixw sc_matrixv sc_matyt
              sc_matg sc_lags sc_wex sc_xtreg) as [res|] eqn:Hres;
    [|vm_compute in Hres; discriminate].
  assert (Hrows : 1 < n_rows (@sc_matrixxt float _)) by (vm_compute; lia).
  destruct (@ssfitter_returns_only_conformant float _ _ _ _ _ _ _ _ _ _ 1 res Hres
              eq_refl Hrows)
    as [_ [_ [H1 [_ [_ [H2 _]]]]]].
  split; assumption.
Defined.

Lemma ssfitter_unvisited_periods_witness :
  exists res : fit float,
    ssfitter sc_short_matrixxt sc_matrixF sc_matrixw sc_matrixv sc_matyt sc_matg sc_lags
             sc_wex sc_xtreg = Some res /\
    nth_error (yfit res) 4 = Some zero /\ nth_error (errors res) 4 = Some zero.
Proof.
  destruct (ssfitter (R := float) sc_short_matrixxt sc_matrixF sc_matrixw sc_matrixv
              sc_matyt sc_matg sc_lags sc_wex sc_xtreg) as [res|] eqn:Hres;
    [|vm_compute in Hres; discriminate].
  exists res. split; [reflexivity|].
  destruct (@ssfitter_unvisited_periods float _ _ _ _ _ _ _ _ _ _ 1 res Hres eq_refl)
    as [_ [_ [H _]]].
  apply H. vm_compute. lia.
Defined.

(** ** The forecasts of [ssforecaster] *)

Section ForecasterClaims.
Context {R : Type} {SR : Scalar R}.

Lemma forecaster_ok_lags matrixxt matrixF matrixw hor lags (wex xr : mat R) maxlag :
  forecaster_ok matrixxt matrixF matrixw hor lags wex xr maxlag ->
  1 <= maxlag /\ 1 <= length lags /\ forall l, In l lags -> 1 <= l <= maxlag.
Proof.
  intros H. pose proof (max_uvec_in _ (fok_maxlag H)) as Hin.
  pose proof (fok_lags H) as Hl. rewrite Forall_forall in Hl.
  split; [apply Hl; exact Hin|]. split.
  - destruct lags; [contradiction | simpl; lia].
  - intros l Hlin. split; [apply Hl; exact Hlin|].
    apply (max_uvec_ge _ (fok_maxlag H)). exact Hlin.
Qed.

(** One turn of the loop of [ssforecaster]: the row it writes. *)
Lemma ssforecaster_step_row
    (matrixF ws wexs xtregs : mat R) (lags : list nat) (maxlag hor : nat)
    (i : nat) (xtn : mat R) (fc : list R) :
  (forall l, In l lags -> 1 <= l <= maxlag) ->
  maxlag <= i < hor + maxlag ->
  shape_ok xtn (hor + maxlag) (length lags) ->
  length fc = hor ->
  n_rows matrixF = length lags -> n_cols matrixF = length lags ->
  hor <= n_rows ws -> n_cols ws = length lags ->
  hor <= n_rows wexs -> hor <= n_rows xtregs -> n_cols wexs = n_cols xtregs ->
  (Z.of_nat ((hor + maxlag) * length lags) < uword_modulus)%Z ->
  exists xt',
    ssforecaster_step matrixF ws wexs xtregs (lag_offsets (hor + maxlag) maxlag lags)
      maxlag i (xtn, fc)
    = Some (xt', upd (i - maxlag)
                   (fitted_value ws wexs xtregs (lagged xtn lags i) (i - maxlag)) fc) /\
    shape_ok xt' (hor + maxlag) (length lags) /\
    (forall r c, r < hor + maxlag -> c < length lags -> r <> i ->
                 at_ xt' r c = at_ xtn r c) /\
    rowv xt' i = transition_row matrixF (lagged xtn lags i).
Proof.
  intros Hl Hi [Hr [Hc Hlen]] Hfc HFr HFc Hw1 Hw2 Hex1 Hxr1 Hex2 Hfit.
  assert (Hrows : forward_lagrows (lag_offsets (hor + maxlag) maxlag lags) maxlag i
                  = mapi (fun k l => Z.of_nat ((i - l) + k * (hor + maxlag))) lags).
  { apply forward_lagrows_eq; try lia.
    intros l Hlin. specialize (Hl l Hlin). lia. }
  unfold ssforecaster_step, propagate_update. rewrite Hrows.
  rewrite (gather_ok xtn lags i Hr).
  2:{ intros l Hlin. specialize (Hl l Hlin). lia. }
  2:{ rewrite Hlen. lia. }
  rewrite matvec_ok by (rewrite lagged_length; exact HFc).
  fold (transition_row matrixF (lagged xtn lags i)).
  assert (HFx : length (transition_row matrixF (lagged xtn lags i)) = length lags).
  { unfold transition_row. rewrite length_map, length_seq. exact HFr. }
  rewrite set_row_ok; [| lia | lia].
  set (xt' := build (n_rows xtn) (n_cols xtn) _).
  assert (Hs' : shape_ok xt' (hor + maxlag) (length lags)).
  { unfold shape_ok, xt'. rewrite build_rows, build_cols, build_length, Hr, Hc. auto. }
  destruct Hs' as [Hr' [Hc' Hlen']].
  assert (Hsame : forall r c, r < hor + maxlag -> c < length lags -> r <> i ->
                    at_ xt' r c = at_ xtn r c).
  { intros r c Hrr Hcc Hne. unfold xt'. rewrite build_at by lia.
    destruct (Nat.eqb_spec r i); [contradiction | reflexivity]. }
  assert (Hlag : lagged xt' lags i = lagged xtn lags i).
  { apply lagged_ext. intros k l Hk.
    assert (Hkl : k < length lags) by (apply nth_error_Some; congruence).
    assert (Hll : 1 <= l <= maxlag) by (apply Hl; eapply nth_error_In; eauto).
    apply Hsame; lia. }
  rewrite (gather_ok xt' lags i Hr').
  2:{ intros l Hlin. specialize (Hl l Hlin). lia. }
  2:{ rewrite Hlen'. lia. }
  rewrite Hlag.
  rewrite (row_ok ws) by lia.
  rewrite dot_ok by (rewrite rowv_length, lagged_length; exact Hw2).
  rewrite (row_ok wexs) by lia. rewrite (row_ok xtregs) by lia.
  rewrite dot_ok by (rewrite !rowv_length; exact Hex2).
  rewrite vec_set_ok by lia.
  exists xt'. split; [reflexivity|]. split; [unfold shape_ok; auto|].
  split; [exact Hsame|].
  unfold xt'. rewrite rowv_build by lia. rewrite Nat.eqb_refl.
  rewrite Hc, <- HFx. apply map_nth_seq_id.
Qed.

(** The forecaster on conformant operands, with the state matrix it builds. *)
Lemma ssforecaster_states
    (xs matrixF ws : mat R) (hor : nat) (lags : list nat) (wexs xtregs : mat R)
    (maxlag : nat) :
  forecaster_ok xs matrixF ws hor lags wexs xtregs maxlag ->
  exists fc X,
    ssforecaster xs matrixF ws hor lags wexs xtregs = Some fc /\
    length fc = hor /\
    shape_ok X (hor + maxlag) (length lags) /\
    (forall r c, r < maxlag -> c < length lags -> at_ X r c = at_ xs r c) /\
    forall h, h < hor ->
      rowv X (maxlag + h) = transition_row matrixF (lagged X lags (maxlag + h)) /\
      nth_error fc h
      = Some (fitted_value ws wexs xtregs (lagged X lags (maxlag + h)) h).
Proof.
  intros Hok.
  destruct (forecaster_ok_lags Hok) as [Hm1 [Hn1 Hl]].
  pose proof (fok_fit Hok) as Hfit. pose proof (fok_xt_cols Hok) as Hxc.
  pose proof (fok_xt_rows Hok) as Hxr.
  assert (Hfit' : (Z.of_nat ((hor + maxlag) * length lags) < uword_modulus)%Z).
  { eapply Z.le_lt_trans; [|exact Hfit]. apply inj_le. nia. }
  unfold ssforecaster. rewrite (fok_maxlag Hok).
  change (n_cols (zeros (hor + maxlag) (n_cols xs))) with (n_cols xs).
  assert (Hb1 : (Z.of_nat maxlag < uword_modulus)%Z).
  { eapply Z.le_lt_trans; [|exact Hfit]. apply inj_le. nia. }
  assert (Hb2 : (Z.of_nat (n_cols xs) < uword_modulus)%Z).
  { eapply Z.le_lt_trans; [|exact Hfit]. apply inj_le. nia. }
  rewrite (wrap_pred Hm1 Hb1).
  rewrite (wrap_pred (n := n_cols xs)) by (lia || exact Hb2).
  change 0%Z with (Z.of_nat 0).
  rewrite submat_ok by lia.
  rewrite set_submat_ok;
    [| unfold zeros; rewrite build_rows; lia | unfold zeros; rewrite build_cols; lia
     | rewrite build_rows; lia | rewrite build_cols; lia ].
  set (xt0 := build (n_rows (zeros (hor + maxlag) (n_cols xs))) _ _).
  assert (Hs0 : shape_ok xt0 (hor + maxlag) (length lags)).
  { unfold shape_ok, xt0, zeros.
    rewrite !build_rows, !build_cols, build_length, Hxc. auto. }
  assert (H0 : forall r c, r < maxlag -> c < length lags -> at_ xt0 r c = at_ xs r c).
  { intros r c Hr Hc. unfold xt0, zeros. rewrite !build_rows, !build_cols.
    rewrite build_at by lia.
    replace ((0 <=? r) && (r <=? maxlag - 1) && (0 <=? c) && (c <=? n_cols xs - 1))
      with true.
    - rewrite build_at by lia. f_equal; lia.
    - symmetry. rewrite !andb_true_iff, !Nat.leb_le. lia. }
  destruct (@loop_seq_total _
              (fun (i : nat) (st : mat R * list R) =>
                 shape_ok (fst st) (hor + maxlag) (length lags) /\
                 length (snd st) = hor /\
                 (forall r c, r < maxlag -> c < length lags ->
                              at_ (fst st) r c = at_ xs r c) /\
                 forall j, maxlag <= j < i ->
                   rowv (fst st) j = transition_row matrixF (lagged (fst st) lags j) /\
                   nth_error (snd st) (j - maxlag)
                   = Some (fitted_value ws wexs xtregs (lagged (fst st) lags j)
                             (j - maxlag)))
              (ssforecaster_step matrixF ws wexs xtregs
                 (lag_offsets (hor + maxlag) maxlag lags) maxlag)
              hor maxlag (xt0, repeat zero hor))
    as [[xtn fc] [Hloop [Hs [Hfc [Hpre Hrec]]]]].
  - intros i [xtn fc] Hi [Hs [Hfc [Hpre Hrec]]]. cbn [fst snd] in *.
    assert (Hi' : maxlag <= i < hor + maxlag) by lia.
    destruct (@ssforecaster_step_row matrixF ws wexs xtregs lags maxlag hor i xtn fc
                Hl Hi' Hs Hfc (fok_F_rows Hok) (fok_F_cols Hok) (fok_w_rows Hok)
                (fok_w_cols Hok) (fok_wex_rows Hok) (fok_xr_rows Hok) (fok_ex_cols Hok)
                Hfit')
      as [xt' [Hstep [Hs' [Hsame Hrow]]]].
    eexists. split; [exact Hstep|]. cbn [fst snd].
    split; [exact Hs'|]. split; [rewrite upd_length; exact Hfc|].
    assert (Hlag : forall j, j <= i -> lagged xt' lags j = lagged xtn lags j).
    { intros j Hj. apply lagged_ext. intros k l Hk.
      assert (Hkl : k < length lags) by (apply nth_error_Some; congruence).
      assert (Hll : 1 <= l <= maxlag) by (apply Hl; eapply nth_error_In; eauto).
      apply Hsame; lia. }
    split.
    + intros r c Hr Hc. rewrite Hsame by lia. apply Hpre; assumption.
    + intros j Hj. rewrite Hlag by lia.
      destruct (Nat.eq_dec j i) as [->|Hne].
      * rewrite upd_nth_error_same by lia. split; [exact Hrow | reflexivity].
      * rewrite upd_nth_error_other by lia.
        destruct (Hrec j ltac:(lia)) as [H1 H2]. split; [|exact H2].
        rewrite <- H1. unfold rowv.
        destruct Hs as [_ [Hcn _]]. destruct Hs' as [_ [Hcn' _]].
        rewrite Hcn, Hcn'. apply map_ext_in. intros c Hc. apply in_seq in Hc.
        apply Hsame; lia.
  - cbn [fst snd]. rewrite repeat_length. repeat split; auto; try apply Hs0; lia.
  - rewrite Hloop. exists fc, xtn. split; [reflexivity|]. split; [exact Hfc|].
    split; [exact Hs|]. split; [exact Hpre|].
    intros h Hh. destruct (Hrec (maxlag + h) ltac:(lia)) as [H1 H2].
    split; [exact H1|]. replace (maxlag + h - maxlag) with h in H2 by lia. exact H2.
Qed.

(** X5. The forecasts, on conformant operands.  [ssforecaster] returns [hor]
    values.  They are read off a state matrix of [hor + maxlag] rows whose
    first [maxlag] rows are those of the state it is given and whose row
    [maxlag + h] is [matrixF] times its own lagged rows (component [k] read
    [lag_k] rows up); forecast [h] is the measurement row [h] times those
    lagged rows, plus the exogenous term of row [h]. *)
Theorem ssforecaster_recurrence :
  forall (xs matrixF ws : mat R) (hor : nat) (lags : list nat) (wexs xtregs : mat R)
         (maxlag : nat),
    forecaster_ok xs matrixF ws hor lags wexs xtregs maxlag ->
    exists fc X,
      ssforecaster xs matrixF ws hor lags wexs xtregs = Some fc /\
      length fc = hor /\
      n_rows X = hor + maxlag /\ n_cols X = length lags /\
      (forall r c, r < maxlag -> c < length lags -> at_ X r c = at_ xs r c) /\
      forall h, h < hor ->
        rowv X (maxlag + h) = transition_row matrixF (lagged X lags (maxlag + h)) /\
        nth_error fc h
        = Some (fitted_value ws wexs xtregs (lagged X lags (maxlag + h)) h).
Proof.
  intros xs matrixF ws hor lags wexs xtregs maxlag Hok.
  destruct (ssforecaster_states Hok) as [fc [X [H1 [H2 [[H3 [H4 _]] [H5 H6]]]]]].
  exists fc, X. repeat split; try assumption; apply H6; assumption.
Qed.

End ForecasterClaims.

Lemma ssforecaster_recurrence_witness :
  exists fc : list float,
    ssforecaster sc_origin sc_matrixF sc_matrixw 3 sc_lags sc_wex sc_xtreg = Some fc /\
    length fc = 3.
Proof.
  assert (Hok : forecaster_ok (R := float) sc_origin sc_matrixF sc_matrixw 3 sc_lags
                  sc_wex sc_xtreg 1) by shapes_ok.
  destruct (ssforecaster_recurrence Hok) as [fc [X [H1 [H2 _]]]].
  exists fc. split; assumption.
Defined.

(** ** What a forecast that returns tells about its operands *)

Section ForecasterConformance.
Context {R : Type} {SR : Scalar R}.

Lemma span_ok_bounds (a b : Z) (n : nat) :
  span_ok a b n = true -> (0 <= a <= b /\ b < Z.of_nat n)%Z.
Proof.
  unfold span_ok. rewrite !andb_true_iff, !Z.leb_le, Z.ltb_lt. lia.
Qed.

(** A span that ends at [n - 1] computed in [uword]: [n] is not zero. *)
Lemma span_ok_pred (n size : nat) :
  (Z.of_nat size < uword_modulus)%Z -> (Z.of_nat n < uword_modulus)%Z ->
  span_ok 0 (wrap (Z.of_nat n - 1)) size = true -> 1 <= n <= size.
Proof.
  intros Hs Hn H. apply span_ok_bounds in H.
  destruct n as [|n].
  - change (wrap (Z.of_nat 0 - 1)) with (wrap (0 - 1)) in H.
    rewrite wrap_minus_one in H. lia.
  - rewrite wrap_small in H by lia. lia.
Qed.

Lemma submat_some (m m' : mat R) (r1 c1 r2 c2 : Z) :
  submat m r1 c1 r2 c2 = Some m' ->
  span_ok r1 r2 (n_rows m) = true /\ span_ok c1 c2 (n_cols m) = true.
Proof.
  unfold submat. destruct (span_ok r1 r2 _); [|discriminate].
  destruct (span_ok c1 c2 _); [auto | discriminate].
Qed.

Lemma rows_some (m m' : mat R) (r1 r2 : Z) :
  rows m r1 r2 = Some m' ->
  span_ok r1 r2 (n_rows m) = true /\
  n_rows m' = Z.to_nat (r2 - r1 + 1) /\ n_cols m' = n_cols m.
Proof.
  unfold rows. destruct (span_ok r1 r2 _); [|discriminate].
  intros H; inversion H. auto.
Qed.

(** The size checks one turn of the loop of [ssforecaster] passes. *)
Lemma ssforecaster_step_conformant
    (matrixF ws wexs xtregs : mat R) (offs : list Z) (maxlag i : nat)
    (xtn : mat R) (fc : list R) (st' : mat R * list R) :
  ssforecaster_step matrixF ws wexs xtregs offs maxlag i (xtn, fc) = Some st' ->
  (n_rows (fst st') = n_rows xtn /\ n_cols (fst st') = n_cols xtn /\
   length (snd st') = length fc) /\
  i < n_rows xtn /\ n_rows matrixF = n_cols xtn /\ n_cols matrixF = length offs /\
  i - maxlag < n_rows ws /\ n_cols ws = length offs /\
  i - maxlag < n_rows wexs /\ i - maxlag < n_rows xtregs /\ n_cols wexs = n_cols xtregs /\
  i - maxlag < length fc.
Proof.
  unfold ssforecaster_step, propagate_update. intros H.
  destruct (elem xtn _) as [x|] eqn:Ex; [|discriminate].
  destruct (matvec matrixF x) as [Fx|] eqn:EFx; [|discriminate].
  destruct (set_row xtn i Fx) as [xt'|] eqn:Eset; [|discriminate].
  destruct (elem xt' _) as [x'|] eqn:Ex'; [|discriminate].
  destruct (row ws _) as [wr|] eqn:Ewr; [|discriminate].
  destruct (dot wr x') as [wx|] eqn:Ewx; [|discriminate].
  destruct (row wexs _) as [er|] eqn:Eer; [|discriminate].
  destruct (row xtregs _) as [xrr|] eqn:Exr; [|discriminate].
  destruct (dot er xrr) as [ex|] eqn:Eex; [|discriminate].
  destruct (vec_set fc _ _) as [fc'|] eqn:Efc; [|discriminate].
  inversion H; subst st'; clear H. cbn [fst snd].
  apply elem_length in Ex, Ex'. unfold forward_lagrows in Ex, Ex'.
  rewrite length_map in Ex, Ex'.
  destruct (matvec_some _ _ EFx) as [HF ->].
  destruct (set_row_some _ _ _ Eset) as [Hi [Hlen _]].
  destruct (set_row_shape _ _ _ Eset) as [Hr' [Hc' _]].
  rewrite length_map, length_seq in Hlen.
  apply row_some in Ewr, Eer, Exr.
  destruct Ewr as [Hw ->], Eer as [Hwex ->], Exr as [Hxr ->].
  apply dot_conformant in Ewx, Eex. rewrite !rowv_length in *.
  apply vec_set_some in Efc. destruct Efc as [Ht ->]. rewrite upd_length.
  repeat split; try assumption; lia.
Qed.

(** The size checks a call of [ssforecaster] passes. *)
Lemma ssforecaster_conformant
    (xs matrixF ws : mat R) (hor : nat) (lags : list nat) (wexs xtregs : mat R)
    (maxlag : nat) (fc : list R) :
    ssforecaster xs matrixF ws hor lags wexs xtregs = Some fc ->
    max_uvec lags = Some maxlag ->
    (Z.of_nat (n_rows xs) < uword_modulus)%Z ->
    (Z.of_nat (n_cols xs) < uword_modulus)%Z ->
    (Z.of_nat maxlag < uword_modulus)%Z ->
    1 <= maxlag <= n_rows xs /\ 1 <= n_cols xs /\
    length fc = hor /\
    (1 <= hor ->
     n_rows matrixF = n_cols xs /\ n_cols matrixF = length lags /\
     hor <= n_rows ws /\ n_cols ws = length lags /\
     hor <= n_rows wexs /\ hor <= n_rows xtregs /\ n_cols wexs = n_cols xtregs).
Proof.
  intros Hres Hmax Hsr Hsc Hsm.
  unfold ssforecaster in Hres. rewrite Hmax in Hres.
  change (n_cols (zeros (hor + maxlag) (n_cols xs))) with (n_cols xs) in Hres.
  destruct (submat xs _ _ _ _) as [src|] eqn:Esrc; [|discriminate].
  destruct (set_submat _ _ _ _ _ src) as [xt0|] eqn:Ext0; [|discriminate].
  destruct (loop _ _ _) as [[xtf matyfor]|] eqn:Hloop; [|discriminate].
  inversion Hres; subst matyfor; clear Hres.
  destruct (submat_some _ _ _ _ _ Esrc) as [Sr Sc].
  apply span_ok_pred in Sr; [|assumption|assumption].
  apply span_ok_pred in Sc; [|assumption|assumption].
  destruct (set_submat_shape _ _ _ _ _ _ Ext0) as [Hr0 [Hc0 _]].
  unfold zeros in Hr0, Hc0. rewrite build_rows in Hr0. rewrite build_cols in Hc0.
  set (body := ssforecaster_step matrixF ws wexs xtregs
                 (lag_offsets (hor + maxlag) maxlag lags) maxlag) in *.
  assert (Hshape : forall l st st',
            loop body l st = Some st' ->
            n_rows (fst st') = n_rows (fst st) /\ n_cols (fst st') = n_cols (fst st) /\
            length (snd st') = length (snd st)).
  { intros l st st' H.
    apply (loop_invariant
             (fun s : mat R * list R =>
                n_rows (fst s) = n_rows (fst st) /\ n_cols (fst s) = n_cols (fst st) /\
                length (snd s) = length (snd st)) body l) with (s := st); auto.
    intros i [sx sf] s' _ [H1 [H2 H3]] Hb. cbn [fst snd] in *.
    destruct (ssforecaster_step_conformant _ _ _ _ _ _ _ _ _ Hb) as [[G1 [G2 G3]] _].
    repeat split; congruence. }
  split; [lia|]. split; [lia|]. split.
  - destruct (Hshape _ _ _ Hloop) as [_ [_ Hl]]. cbn [snd] in Hl.
    rewrite repeat_length in Hl. exact Hl.
  - intros Hhor.
    destruct (@loop_seq_split _ body maxlag hor (maxlag + hor - 1)
                (xt0, repeat zero hor) _ ltac:(lia) Hloop)
      as [[xt_i fcv] [st2 [Hpre [Hbody _]]]].
    destruct (Hshape _ _ _ Hpre) as [_ [Hc Hl]]. cbn [fst snd] in Hc, Hl.
    rewrite repeat_length in Hl.
    apply ssforecaster_step_conformant in Hbody.
    unfold lag_offsets in Hbody. rewrite mapi_length in Hbody.
    rewrite Hc, Hc0 in Hbody.
    repeat split; lia.
Qed.

(** X6. [ssforecaster] returns only when the largest lag is at least one,
    the state matrix has at least that many rows and at least one column;
    the forecast then has [hor] entries, and for [hor >= 1] the operands
    were conformant: [hor] rows or more in [matrixw], [wex] and [xtreg], and
    column counts that agree. *)
Theorem ssforecaster_returns_only_conformant :
  forall (xs matrixF ws : mat R) (hor : nat) (lags : list nat) (wexs xtregs : mat R)
         (maxlag : nat) (fc : list R),
    ssforecaster xs matrixF ws hor lags wexs xtregs = Some fc ->
    max_uvec lags = Some maxlag ->
    (Z.of_nat (n_rows xs) < uword_modulus)%Z ->
    (Z.of_nat (n_cols xs) < uword_modulus)%Z ->
    (Z.of_nat maxlag < uword_modulus)%Z ->
    1 <= maxlag <= n_rows xs /\ 1 <= n_cols xs /\
    length fc = hor /\
    (1 <= hor ->
     n_rows matrixF = n_cols xs /\ n_cols matrixF = length lags /\
     hor <= n_rows ws /\ n_cols ws = length lags /\
     hor <= n_rows wexs /\ hor <= n_rows xtregs /\ n_cols wexs = n_cols xtregs).
Proof.
  intros xs matrixF ws hor lags wexs xtregs maxlag fc Hres Hmax Hsr Hsc Hsm.
  exact (ssforecaster_conformant _ _ _ _ _ _ _ Hres Hmax Hsr Hsc Hsm).
Qed.

End ForecasterConformance.

Lemma ssforecaster_returns_only_conformant_witness :
  n_rows (@sc_matrixF float _) = n_cols (@sc_origin float _) /\
  n_cols (@sc_matrixF float _) = length sc_lags.
Proof.
  destruct (ssforecaster (R := float) sc_origin sc_matrixF sc_matrixw 3 sc_lags sc_wex
              sc_xtreg) as [fc|] eqn:Hres;
    [|vm_compute in Hres; discriminate].
  assert (H1 : (Z.of_nat (n_rows (@sc_origin float _)) < uword_modulus)%Z)
    by (vm_compute; reflexivity).
  assert (H2 : (Z.of_nat (n_cols (@sc_origin float _)) < uword_modulus)%Z)
    by (vm_compute; reflexivity).
  assert (H3 : (Z.of_nat 1 < uword_modulus)%Z) by (vm_compute; reflexivity).
  destruct (@ssforecaster_returns_only_conformant float _ _ _ _ _ _ _ _ 1 fc Hres
              eq_refl H1 H2 H3)
    as [_ [_ [_ H]]].
  destruct (H ltac:(lia)) as [G1 [G2 _]]. split; assumption.
Defined.

(** ** The reads of [sserrorer] *)

Section ErrorerReads.
Context {R : Type} {SR : Scalar R}.

Lemma sserrorer_step_some
    (matrixxt matrixF matrixw : mat R) (matyt : list R) (hor : nat)
    (lags : list nat) (wex xr : mat R) (maxlag i : nat) (E E' : mat R) :
  sserrorer_step matrixxt matrixF matrixw matyt hor lags wex xr maxlag i E = Some E' ->
  let hh := Nat.min hor (length matyt + maxlag - i) in
  let t := Z.of_nat (i - maxlag) in
  let last := wrap (t + Z.of_nat hh - 1) in
  exists xs ws wexs xtregs fc,
    rows matrixxt t (wrap (Z.of_nat i - 1)) = Some xs /\
    rows matrixw t last = Some ws /\
    rows wex t last = Some wexs /\
    rows xr t last = Some xtregs /\
    ssforecaster xs matrixF ws hh lags wexs xtregs = Some fc.
Proof.
  unfold sserrorer_step. cbv zeta. intros H.
  destruct (rows matrixxt _ _) as [xs|] eqn:E1; [|discriminate].
  destruct (rows matrixw _ _) as [ws|] eqn:E2; [|discriminate].
  destruct (rows wex _ _) as [wexs|] eqn:E3; [|discriminate].
  destruct (rows xr _ _) as [xtregs|] eqn:E4; [|discriminate].
  destruct (ssforecaster xs _ _ _ _ _ _) as [fc|] eqn:E5; [|discriminate].
  exists xs, ws, wexs, xtregs, fc. repeat split; assumption.
Qed.

(** The size checks a call of [sserrorer] on a series that is not empty
    passes. *)
Lemma sserrorer_conformant
    (matrixxt matrixF matrixw : mat R) (matyt : list R) (hor : nat)
    (lags : list nat) (wex xr : mat R) (maxlag : nat) (E : mat R) :
  sserrorer matrixxt matrixF matrixw matyt hor lags wex xr = Some E ->
  max_uvec lags = Some maxlag ->
  1 <= length matyt ->
  (Z.of_nat (n_rows matrixxt) < uword_modulus)%Z ->
  (Z.of_nat (n_cols matrixxt) < uword_modulus)%Z ->
  (Z.of_nat (n_rows matrixw) < uword_modulus)%Z ->
  (Z.of_nat (length matyt + maxlag) < uword_modulus)%Z ->
  let obs := length matyt in
  1 <= hor /\ 1 <= maxlag /\
  obs + maxlag - 1 <= n_rows matrixxt /\ 1 <= n_cols matrixxt /\
  n_rows matrixF = n_cols matrixxt /\ n_cols matrixF = length lags /\
  obs <= n_rows matrixw /\ n_cols matrixw = length lags /\
  obs <= n_rows wex /\ obs <= n_rows xr /\ n_cols wex = n_cols xr.
Proof.
  intros Hres Hmax Hobs Hsr Hsc Hsw Hsy obs.
  unfold sserrorer in Hres. rewrite Hmax in Hres. fold obs in Hres, Hobs, Hsy.
  set (body := sserrorer_step matrixxt matrixF matrixw matyt hor lags wex xr maxlag) in *.
  (* the first turn *)
  destruct (@loop_seq_split _ body maxlag obs maxlag _ _ ltac:(lia) Hres)
    as [s0 [s1 [_ [Hfirst _]]]].
  destruct (sserrorer_step_some _ _ _ _ _ _ _ _ _ _ _ Hfirst)
    as [xs [ws [_ [_ [_ [Hxs [Hws _]]]]]]].
  fold obs in Hws. rewrite Nat.sub_diag in Hxs, Hws. cbn [Z.of_nat] in Hxs, Hws.
  rewrite Z.add_0_l in Hws.
  destruct (rows_some _ _ _ Hxs) as [Sx _]. destruct (rows_some _ _ _ Hws) as [Sw _].
  apply span_ok_pred in Sx; [|assumption|lia].
  apply span_ok_pred in Sw; [|assumption|lia].
  assert (Hhor : 1 <= hor) by lia.
  assert (Hm1 : 1 <= maxlag) by lia.
  clear xs ws Hxs Hws Sx Sw s0 s1 Hfirst.
  (* the last turn *)
  destruct (@loop_seq_split _ body maxlag obs (obs + maxlag - 1) _ _ ltac:(lia) Hres)
    as [s0 [s1 [_ [Hlast _]]]].
  destruct (sserrorer_step_some _ _ _ _ _ _ _ _ _ _ _ Hlast)
    as [xs [ws [wexs [xtregs [fc [Hxs [Hws [Hwex [Hxr Hfc]]]]]]]]].
  fold obs in Hws, Hwex, Hxr, Hfc.
  replace (Nat.min hor (obs + maxlag - (obs + maxlag - 1))) with 1 in * by lia.
  replace (obs + maxlag - 1 - maxlag) with (obs - 1) in * by lia.
  replace (Z.of_nat (obs - 1) + Z.of_nat 1 - 1)%Z with (Z.of_nat (obs - 1)) in * by lia.
  rewrite (wrap_small (z := Z.of_nat (obs - 1))) in * by lia.
  replace (Z.of_nat (obs + maxlag - 1) - 1)%Z with (Z.of_nat (obs + maxlag - 2)) in Hxs
    by lia.
  rewrite (wrap_small (z := Z.of_nat (obs + maxlag - 2))) in Hxs by lia.
  destruct (rows_some _ _ _ Hxs) as [Sx [Rx Cx]].
  destruct (rows_some _ _ _ Hws) as [Sw [Rw Cw]].
  destruct (rows_some _ _ _ Hwex) as [Swex [_ Cwex]].
  destruct (rows_some _ _ _ Hxr) as [Sxr [_ Cxr]].
  apply span_ok_bounds in Sx, Sw, Swex, Sxr.
  assert (P1 : (Z.of_nat (n_rows xs) < uword_modulus)%Z) by (rewrite Rx; lia).
  assert (P2 : (Z.of_nat (n_cols xs) < uword_modulus)%Z) by (rewrite Cx; lia).
  assert (P3 : (Z.of_nat maxlag < uword_modulus)%Z) by lia.
  destruct (ssforecaster_conformant _ _ _ _ _ _ _ Hfc Hmax P1 P2 P3)
    as [_ [Hc1 [_ Hdims]]].
  destruct (Hdims (le_n 1)) as [D1 [D2 [_ [D4 [_ [_ D7]]]]]].
  rewrite Cx in *. rewrite Cw in *. rewrite Cwex, Cxr in *.
  repeat split; try assumption; lia.
Qed.

(** X7. [sserrorer] on a series that is not empty returns only when the
    horizon and the largest lag are at least one, the state history has at
    least [obs + maxlag - 1] rows, and the operands are conformant; in
    particular a horizon of zero raises.  The matrix it returns has [obs]
    rows and [hor] columns. *)
Theorem sserrorer_returns_only_conformant :
  forall (matrixxt matrixF matrixw : mat R) (matyt : list R) (hor : nat)
         (lags : list nat) (wex xr : mat R) (maxlag : nat) (E : mat R),
    sserrorer matrixxt matrixF matrixw matyt hor lags wex xr = Some E ->
    max_uvec lags = Some maxlag ->
    1 <= length matyt ->
    (Z.of_nat (n_rows matrixxt) < uword_modulus)%Z ->
    (Z.of_nat (n_cols matrixxt) < uword_modulus)%Z ->
    (Z.of_nat (n_rows matrixw) < uword_modulus)%Z ->
    (Z.of_nat (length matyt + maxlag) < uword_modulus)%Z ->
    let obs := length matyt in
    (n_rows E = obs /\ n_cols E = hor) /\
    1 <= hor /\ 1 <= maxlag /\
    obs + maxlag - 1 <= n_rows matrixxt /\ 1 <= n_cols matrixxt /\
    n_rows matrixF = n_cols matrixxt /\ n_cols matrixF = length lags /\
    obs <= n_rows matrixw /\ n_cols matrixw = length lags /\
    obs <= n_rows wex /\ obs <= n_rows xr /\ n_cols wex = n_cols xr.
Proof.
  intros matrixxt matrixF matrixw matyt hor lags wex xr maxlag E
         Hres Hmax Hobs Hsr Hsc Hsw Hsy obs.
  split.
  - exact (sserrorer_shape _ _ _ _ _ _ _ _ Hres).
  - exact (sserrorer_conformant _ _ _ _ _ _ _ _ Hres Hmax Hobs Hsr Hsc Hsw Hsy).
Qed.

Lemma build_ext (nr nc : nat) (f g : nat -> nat -> R) :
  (forall r c, r < nr -> c < nc -> f r c = g r c) -> build nr nc f = build nr nc g.
Proof.
  intros H. unfold build. f_equal.
  rewrite !flat_map_concat_map. f_equal.
  apply map_ext_in. intros c Hc. apply in_seq in Hc.
  apply map_ext_in. intros r Hr. apply in_seq in Hr. apply H; lia.
Qed.

(** Two matrices of one shape that agree on the rows of a span have the same
    view of it. *)
Lemma rows_ext (m m' : mat R) (a b : Z) :
  n_rows m = n_rows m' -> n_cols m = n_cols m' ->
  (span_ok a b (n_rows m) = true ->
   forall r c, (a <= Z.of_nat r <= b)%Z -> c < n_cols m -> at_ m r c = at_ m' r c) ->
  rows m a b = rows m' a b.
Proof.
  intros Hr Hc H. unfold rows. rewrite <- Hr, <- Hc.
  destruct (span_ok a b (n_rows m)) eqn:Hspan; [|reflexivity].
  specialize (H eq_refl).
  apply span_ok_bounds in Hspan. f_equal. apply build_ext.
  intros r c Hrr Hcc. apply H; [lia | exact Hcc].
Qed.

(** X8. The rolling-origin errors do not read the state history from row
    [obs + maxlag - 1] on: two state histories of one shape that agree on
    the rows before it give the same result, error or matrix. *)
Theorem sserrorer_ignores_last_state :
  forall (xt xt' matrixF matrixw : mat R) (matyt : list R) (hor : nat)
         (lags : list nat) (wex xr : mat R) (maxlag : nat),
    max_uvec lags = Some maxlag ->
    (Z.of_nat (n_rows xt) < uword_modulus)%Z ->
    n_rows xt = n_rows xt' -> n_cols xt = n_cols xt' ->
    (forall r c, r + 1 < length matyt + maxlag -> c < n_cols xt ->
       at_ xt r c = at_ xt' r c) ->
    sserrorer xt matrixF matrixw matyt hor lags wex xr
    = sserrorer xt' matrixF matrixw matyt hor lags wex xr.
Proof.
  intros xt xt' matrixF matrixw matyt hor lags wex xr maxlag Hmax Hsize Hr Hc Hagree.
  unfold sserrorer. rewrite Hmax.
  assert (Hstep : forall i, In i (seq maxlag (length matyt)) -> forall E,
            sserrorer_step xt matrixF matrixw matyt hor lags wex xr maxlag i E
            = sserrorer_step xt' matrixF matrixw matyt hor lags wex xr maxlag i E).
  { intros i Hi E. apply in_seq in Hi. unfold sserrorer_step.
    rewrite (@rows_ext xt xt' (Z.of_nat (i - maxlag)) (wrap (Z.of_nat i - 1)) Hr Hc);
      [reflexivity|].
    intros Hspan r c Hrr Hcc. apply Hagree; [|exact Hcc].
    apply span_ok_bounds in Hspan.
    destruct i as [|i].
    - (* the end of the span passed below zero: no row is in it *)
      change (wrap (Z.of_nat 0 - 1)) with (wrap (0 - 1)) in Hspan.
      rewrite wrap_minus_one in Hspan. lia.
    - assert (Hle : (wrap (Z.of_nat (S i) - 1) <= Z.of_nat (S i) - 1)%Z).
      { unfold wrap. apply Z.mod_le; [lia | apply uword_modulus_pos]. }
      lia. }
  generalize (build (length matyt) hor (fun _ _ => @NA_REAL R SR)).
  induction (seq maxlag (length matyt)) as [|i l IH]; intros E0; simpl.
  - reflexivity.
  - rewrite Hstep by (left; reflexivity).
    destruct (sserrorer_step xt' _ _ _ _ _ _ _ _ i E0); [|reflexivity].
    apply IH. intros j Hj. apply Hstep. right; exact Hj.
Qed.

End ErrorerReads.

Lemma sserrorer_returns_only_conformant_witness :
  length (@sc_matyt float _) <= n_rows (@sc_matrixw float _) /\
  n_cols (@sc_matrixw float _) = length sc_lags.
Proof.
  destruct (sserrorer (R := float) sc_matrixxt sc_matrixF sc_matrixw sc_matyt 2 sc_lags
              sc_wex sc_xtreg) as [E|] eqn:Hres;
    [|vm_compute in Hres; discriminate].
  assert (H0 : 1 <= length (@sc_matyt float _)) by (vm_compute; lia).
  assert (H1 : (Z.of_nat (n_rows (@sc_matrixxt float _)) < uword_modulus)%Z)
    by (vm_compute; reflexivity).
  assert (H2 : (Z.of_nat (n_cols (@sc_matrixxt float _)) < uword_modulus)%Z)
    by (vm_compute; reflexivity).
  assert (H3 : (Z.of_nat (n_rows (@sc_matrixw float _)) < uword_modulus)%Z)
    by (vm_compute; reflexivity).
  assert (H4 : (Z.of_nat (length (@sc_matyt float _) + 1) < uword_modulus)%Z)
    by (vm_compute; reflexivity).
  destruct (@sserrorer_returns_only_conformant float _ _ _ _ _ _ _ _ _ 1 E Hres
              eq_refl H0 H1 H2 H3 H4)
    as [_ [_ [_ [_ [_ [_ [_ [G1 [G2 _]]]]]]]]].
  split; assumption.
Defined.

Lemma sserrorer_ignores_last_state_witness :
  sserrorer sc_matrixxt sc_matrixF sc_matrixw sc_matyt 2 sc_lags sc_wex sc_xtreg
  = sserrorer sc_other_last sc_matrixF sc_matrixw sc_matyt 2 sc_lags sc_wex sc_xtreg.
Proof.
  assert (H1 : (Z.of_nat (n_rows (@sc_matrixxt float _)) < uword_modulus)%Z)
    by (vm_compute; reflexivity).
  apply (@sserrorer_ignores_last_state float _ sc_matrixxt sc_other_last sc_matrixF
           sc_matrixw sc_matyt 2 sc_lags sc_wex sc_xtreg 1 eq_refl H1 eq_refl eq_refl).
  intros r c Hr Hc. change (r + 1 < 6) in Hr. change (c < 1) in Hc.
  assert (Hc0 : c = 0) by lia. subst c.
  do 5 (destruct r as [|r]; [reflexivity|]). lia.
Defined.

(** ** What [ssfitterbackcast] returns beside the state history *)

Section BackcastVectors.
Context {R : Type} {SR : Scalar R}.

Lemma filter_update_residual
    (matrixF matrixw matrixv : mat R) (matyt matg : list R) (wex xr : mat R)
    (lagrows : list Z) (t i : nat) (xt : mat R) (fitv errv : list R)
    (xt' : mat R) (fitv' errv' : list R) :
  filter_update matrixF matrixw matrixv matyt matg wex xr lagrows t i (xt, fitv, errv)
    = Some (xt', fitv', errv') ->
  length fitv' = length fitv /\ length errv' = length errv /\
  residual_at matyt fitv' errv' t /\
  forall u, u <> t -> nth_error fitv' u = nth_error fitv u /\
                      nth_error errv' u = nth_error errv u.
Proof.
  intros H.
  destruct (filter_update_some _ _ _ _ _ _ _ _ _ _ _ _ _ H)
    as [x [y [_ [Hy [Htf [Hte [-> [-> _]]]]]]]].
  rewrite !upd_length. split; [reflexivity|]. split; [reflexivity|]. split.
  - exists y, (fitted_value matrixw wex xr x t).
    rewrite !upd_nth_error_same by assumption. auto.
  - intros u Hu. rewrite !upd_nth_error_other by congruence. auto.
Qed.

Lemma backcast_tail_step_vectors (matrixF : mat R) (offs : list Z) (maxlag i : nat)
    (st st' : fstate R) :
  backcast_tail_step matrixF offs maxlag i st = Some st' ->
  snd (fst st') = snd (fst st) /\ snd st' = snd st.
Proof.
  destruct st as [[xt fitv] errv]. unfold backcast_tail_step.
  destruct (propagate_update _ _ _ _) as [xt1|]; [|discriminate].
  destruct (subst_prev xt1); [|discriminate].
  intros H; inversion H; auto.
Qed.

Lemma backcast_head_step_vectors (matrixF : mat R) (backlags : list Z) (obsall i : nat)
    (st st' : fstate R) :
  backcast_head_step matrixF backlags obsall i st = Some st' ->
  snd (fst st') = snd (fst st) /\ snd st' = snd st.
Proof.
  destruct st as [[xt fitv] errv]. unfold backcast_head_step.
  destruct (propagate_update _ _ _ _) as [xt1|]; [|discriminate].
  destruct (subst_next xt1); [|discriminate].
  intros H; inversion H; auto.
Qed.

Lemma backcast_back_step_lengths
    (matrixF matrixw matrixv : mat R) (matyt matg : list R) (wex xr : mat R)
    (backlags : list Z) (obsall maxlag i : nat) (st st' : fstate R) :
  backcast_back_step matrixF matrixw matrixv matyt matg wex xr backlags obsall maxlag i st
    = Some st' ->
  length (snd (fst st')) = length (snd (fst st)) /\ length (snd st') = length (snd st).
Proof.
  destruct st as [[xt fitv] errv]. unfold backcast_back_step.
  destruct (filter_update _ _ _ _ _ _ _ _ _ _ _) as [[[xt1 f1] e1]|] eqn:Hu; [|discriminate].
  destruct (subst_next xt1); [|discriminate].
  intros H; inversion H; subst. cbn [fst snd].
  destruct (filter_update_residual _ _ _ _ _ _ _ _ _ _ _ _ _ Hu) as [H1 [H2 _]]. auto.
Qed.

(** The two checks that open a turn below zero are checks the update makes
    itself, on writing the fitted value and the state row: the turn is the
    update at the converted counter. *)
Lemma backcast_back_step_below_unchecked
    (matrixF matrixw matrixv : mat R) (matyt matg : list R) (wex xr : mat R)
    (backlags : list Z) (obsall maxlag : nat) (i : Z) (st : fstate R) :
  backcast_back_step_below matrixF matrixw matrixv matyt matg wex xr backlags obsall
    maxlag i st
  = ('(xt1, fitv, errv) <-
       filter_update matrixF matrixw matrixv matyt matg wex xr
         (map (fun b => wrap (wrap (b + i) - Z.of_nat obsall)) backlags)
         (Z.to_nat (wrap_uint (i - Z.of_nat maxlag))) (Z.to_nat (wrap i)) st ;;
     xt2 <- subst_next xt1 ;;
     Some (xt2, fitv, errv)).
Proof.
  destruct st as [[xt fitv] errv]. unfold backcast_back_step_below, checked.
  assert (Ht : (0 <= wrap_uint (i - Z.of_nat maxlag))%Z)
    by (apply Z.mod_pos_bound; reflexivity).
  assert (Hr : (0 <= wrap i)%Z) by (apply Z.mod_pos_bound; reflexivity).
  destruct (in_bounds (wrap_uint (i - Z.of_nat maxlag)) (length fitv)) eqn:Bt.
  - destruct (in_bounds (wrap i) (n_rows xt)) eqn:Br; [reflexivity|].
    destruct (filter_update _ _ _ _ _ _ _ _ _ _ _) as [[[xt1 f1] e1]|] eqn:Hu;
      [|reflexivity].
    exfalso.
    destruct (filter_update_some _ _ _ _ _ _ _ _ _ _ _ _ _ Hu)
      as [x [y [_ [_ [_ [_ [_ [_ Hset]]]]]]]].
    apply set_row_some in Hset. destruct Hset as [Hlt _].
    unfold in_bounds in Br. apply andb_false_iff in Br.
    destruct Br as [Br|Br]; [apply Z.leb_gt in Br | apply Z.ltb_ge in Br]; lia.
  - destruct (filter_update _ _ _ _ _ _ _ _ _ _ _) as [[[xt1 f1] e1]|] eqn:Hu;
      [|reflexivity].
    exfalso.
    destruct (filter_update_some _ _ _ _ _ _ _ _ _ _ _ _ _ Hu)
      as [x [y [_ [_ [Hlt _]]]]].
    unfold in_bounds in Bt. apply andb_false_iff in Bt.
    destruct Bt as [Bt|Bt]; [apply Z.leb_gt in Bt | apply Z.ltb_ge in Bt]; lia.
Qed.

Lemma backcast_back_step_below_lengths
    (matrixF matrixw matrixv : mat R) (matyt matg : list R) (wex xr : mat R)
    (backlags : list Z) (obsall maxlag : nat) (i : Z) (st st' : fstate R) :
  backcast_back_step_below matrixF matrixw matrixv matyt matg wex xr backlags obsall
    maxlag i st = Some st' ->
  same_lengths st st'.
Proof.
  destruct st as [[xt fitv] errv]. unfold backcast_back_step_below.
  destruct (checked _ (length fitv)) as [t|]; [|discriminate].
  destruct (checked _ (n_rows xt)) as [r|]; [|discriminate].
  destruct (filter_update _ _ _ _ _ _ _ _ _ _ _) as [[[xt1 f1] e1]|] eqn:Hu; [|discriminate].
  destruct (subst_next xt1); [|discriminate].
  intros H; inversion H; subst. unfold same_lengths. cbn [fst snd].
  destruct (filter_update_residual _ _ _ _ _ _ _ _ _ _ _ _ _ Hu) as [H1 [H2 _]]. auto.
Qed.

Lemma loop_same_lengths (body : nat -> fstate R -> option (fstate R)) (l : list nat) :
  (forall i s s', body i s = Some s' -> same_lengths s s') ->
  forall st st', loop body l st = Some st' -> same_lengths st st'.
Proof.
  intros Hb st st' H.
  apply (loop_invariant (fun s => same_lengths st s) body l) with (s := st); auto.
  - intros i s s' _ [H1 H2] Hs. destruct (Hb i s s' Hs) as [G1 G2].
    split; congruence.
  - split; reflexivity.
Qed.

Lemma backcast_back_loop_lengths
    (matrixF matrixw matrixv : mat R) (matyt matg : list R) (wex xr : mat R)
    (backlags : list Z) (obsall maxlag : nat) (st st' : fstate R) :
  backcast_back_loop matrixF matrixw matrixv matyt matg wex xr backlags obsall maxlag st
    = Some st' ->
  same_lengths st st'.
Proof.
  unfold backcast_back_loop. intros H.
  destruct (loop _ (rev _) st) as [st1|] eqn:L; [|discriminate].
  assert (S1 : same_lengths st st1).
  { apply loop_same_lengths in L; [exact L|].
    intros i s s' Hs. exact (backcast_back_step_lengths _ _ _ _ _ _ _ _ _ _ _ _ Hs). }
  destruct ((maxlag =? 0) || (obsall =? 0)).
  - apply (loop_below_invariant (fun s => same_lengths st s)) in H; [exact H | | exact S1].
    intros i t t' [G1 G2] Ht.
    destruct (backcast_back_step_below_lengths _ _ _ _ _ _ _ _ _ _ _ _ Ht) as [K1 K2].
    split; congruence.
  - inversion H; subst. exact S1.
Qed.

Lemma backcast_cycle_lengths
    (matrixF matrixw matrixv : mat R) (matyt matg : list R) (wex xr : mat R)
    (offs backlags : list Z) (obsall maxlag j : nat) (st st' : fstate R) :
  backcast_cycle matrixF matrixw matrixv matyt matg wex xr offs backlags obsall maxlag j st
    = Some st' ->
  same_lengths st st'.
Proof.
  unfold backcast_cycle. intros H.
  destruct (loop _ (seq maxlag _) st) as [st1|] eqn:L1; [|discriminate].
  destruct (loop _ (seq obsall maxlag) st1) as [st2|] eqn:L2; [|discriminate].
  assert (S1 : same_lengths st st1).
  { apply loop_same_lengths in L1; [exact L1|].
    intros i s s' Hs. destruct (ssfitter_step_shape _ _ _ _ _ _ _ _ _ _ _ Hs)
      as [_ [_ [G1 G2]]]. split; assumption. }
  assert (S2 : same_lengths st1 st2).
  { apply loop_same_lengths in L2; [exact L2|].
    intros i s s' Hs. destruct (backcast_tail_step_vectors _ _ _ _ _ Hs) as [G1 G2].
    split; congruence. }
  destruct (j <? 3).
  - destruct (backcast_back_loop _ _ _ _ _ _ _ _ _ _ st2) as [st3|] eqn:L3; [|discriminate].
    assert (S3 : same_lengths st2 st3) by exact (backcast_back_loop_lengths _ _ _ _ _ _ _ _ _ _ _ L3).
    assert (S4 : same_lengths st3 st').
    { apply loop_same_lengths in H; [exact H|].
      intros i s s' Hs. destruct (backcast_head_step_vectors _ _ _ _ _ Hs) as [G1 G2].
      split; congruence. }
    unfold same_lengths in *. split; lia.
  - inversion H; subst. unfold same_lengths in *. split; lia.
Qed.

(** After a forward pass every period it visited holds a fitted value and
    the residual that belongs to it. *)
Lemma forward_pass_residuals
    (matrixF matrixw matrixv : mat R) (matyt matg : list R) (wex xr : mat R)
    (offs : list Z) (maxlag n : nat) (st st' : fstate R) :
  loop (ssfitter_step matrixF matrixw matrixv matyt matg wex xr offs maxlag)
       (seq maxlag n) st = Some st' ->
  forall t, t < n -> residual_at matyt (snd (fst st')) (snd st') t.
Proof.
  intros H t Ht.
  pose proof (@loop_seq_invariant (fstate R)
                (fun i s => forall u, u + maxlag < i ->
                   residual_at matyt (snd (fst s)) (snd s) u)
                (ssfitter_step matrixF matrixw matrixv matyt matg wex xr offs maxlag)
                n maxlag st st') as Hinv.
  apply Hinv; [| intros u Hu; lia | exact H | lia].
  intros i [[sx sf] se] [[sx' sf'] se'] Hi Hs Hb u Hu. cbn [fst snd] in *.
  destruct (ssfitter_step_some _ _ _ _ _ _ _ _ _ _ _ Hb) as [w1 [Hu1 _]].
  cbn [fst snd] in Hu1.
  destruct (filter_update_residual _ _ _ _ _ _ _ _ _ _ _ _ _ Hu1) as [_ [_ [Hnew Hold]]].
  destruct (Nat.eq_dec u (i - maxlag)) as [->|Hne].
  - exact Hnew.
  - destruct (Hs u ltac:(lia)) as [y [f [H1 [H2 H3]]]].
    destruct (Hold u Hne) as [G1 G2].
    exists y, f. rewrite G1, G2. auto.
Qed.

(** X9. The vectors [ssfitterbackcast] returns.  Fitted values and residuals
    have one entry per observation, and for every period [t] the state
    history reaches ([t + maxlag] below its row count) the residual is the
    observation minus the fitted value returned beside it: both come from
    the forward pass of the fourth cycle, after which no backward pass
    runs. *)
Theorem ssfitterbackcast_residuals :
  forall (matrixxt matrixF matrixw matrixv : mat R) (matyt matg : list R)
         (lags : list nat) (wex xr : mat R) (maxlag : nat) (res : fit R),
    ssfitterbackcast matrixxt matrixF matrixw matrixv matyt matg lags wex xr = Some res ->
    max_uvec lags = Some maxlag ->
    length (yfit res) = length matyt /\
    length (errors res) = length matyt /\
    forall t, t + maxlag < n_rows matrixxt ->
      exists y f, nth_error matyt t = Some y /\
                  nth_error (yfit res) t = Some f /\
                  nth_error (errors res) t = Some (sub y f).
Proof.
  intros matrixxt matrixF matrixw matrixv matyt matg lags wex xr maxlag res Hres Hmax.
  unfold ssfitterbackcast in Hres.
  rewrite (@ssfitterbackcast_four_cycles _ _ matrixxt matrixF matrixw matrixv matyt matg
             lags wex xr maxlag Hmax) in Hres. cbv zeta in Hres.
  set (cycle := backcast_cycle matrixF matrixw matrixv matyt matg wex xr
                  (lag_offsets (n_rows matrixxt + maxlag) maxlag lags)
                  (backlag_offsets (n_rows matrixxt + maxlag) maxlag lags)
                  (n_rows matrixxt) maxlag) in *.
  set (init := (resize matrixxt (n_rows matrixxt + maxlag) (n_cols matrixxt),
                repeat zero (length matyt), repeat zero (length matyt))) in *.
  destruct (cycle 0 init) as [s1|] eqn:C0; [|discriminate].
  destruct (cycle 1 s1) as [s2|] eqn:C1; [|discriminate].
  destruct (cycle 2 s2) as [s3|] eqn:C2; [|discriminate].
  destruct (cycle 3 s3) as [[[xt fitv] errv]|] eqn:C3; [|discriminate].
  inversion Hres; subst res; clear Hres. cbn [yfit errors].
  destruct (backcast_cycle_lengths _ _ _ _ _ _ _ _ _ _ _ _ _ C0) as [A1 A2].
  destruct (backcast_cycle_lengths _ _ _ _ _ _ _ _ _ _ _ _ _ C1) as [B1 B2].
  destruct (backcast_cycle_lengths _ _ _ _ _ _ _ _ _ _ _ _ _ C2) as [D1 D2].
  destruct (backcast_cycle_lengths _ _ _ _ _ _ _ _ _ _ _ _ _ C3) as [E1 E2].
  cbn [fst snd init] in *. rewrite repeat_length in A1, A2.
  split; [lia|]. split; [lia|].
  intros t Ht.
  unfold cycle in C3. rewrite backcast_last_cycle_forward_only in C3.
  destruct (loop _ (seq maxlag _) s3) as [st1|] eqn:L1; [|discriminate].
  assert (Ht' : t < n_rows matrixxt - maxlag) by lia.
  pose proof (@forward_pass_residuals _ _ _ _ _ _ _ _ _ _ _ _ L1 t Ht') as Hr.
  assert (Hsame : snd (fst st1) = fitv /\ snd st1 = errv).
  { change fitv with (snd (fst (xt, fitv, errv))).
    change errv with (snd (xt, fitv, errv)) at 2.
    apply (loop_invariant
             (fun s : fstate R => snd (fst st1) = snd (fst s) /\ snd st1 = snd s)
             (backcast_tail_step matrixF
                (lag_offsets (n_rows matrixxt + maxlag) maxlag lags) maxlag)
             (seq (n_rows matrixxt) maxlag)) with (s := st1); auto.
    intros i s s' _ [G1 G2] Hs.
    destruct (backcast_tail_step_vectors _ _ _ _ _ Hs) as [K1 K2]. split; congruence. }
  destruct Hsame as [<- <-]. exact Hr.
Qed.

(** X10. [ssfitterbackcast] raises when the lags are all zero, and when the
    state history is empty (the counts fitting an [unsigned int]).  The
    counter of the first backward loop then arrives at [-1]; compared as an
    unsigned number it passes the guard [i >= maxlag], and the turn taken
    there asks for the period [2^32 - 1 - maxlag], beyond the [obs] fitted
    values: the access fails its bounds check. *)
Theorem ssfitterbackcast_zero_lags_raise :
  forall (matrixxt matrixF matrixw matrixv : mat R) (matyt matg : list R)
         (lags : list nat) (wex xr : mat R) (maxlag : nat),
    max_uvec lags = Some maxlag ->
    maxlag = 0 \/ n_rows matrixxt = 0 ->
    (Z.of_nat (length matyt + maxlag) < uint_modulus)%Z ->
    ssfitterbackcast matrixxt matrixF matrixw matrixv matyt matg lags wex xr = None.
Proof.
  intros matrixxt matrixF matrixw matrixv matyt matg lags wex xr maxlag Hmax Hzero Hsize.
  unfold ssfitterbackcast.
  rewrite (@ssfitterbackcast_four_cycles _ _ matrixxt matrixF matrixw matrixv matyt matg
             lags wex xr maxlag Hmax). cbv zeta.
  change uint_modulus with 4294967296%Z in Hsize.
  assert (H0 : forall st : fstate R, length (snd (fst st)) = length matyt ->
            backcast_cycle matrixF matrixw matrixv matyt matg wex xr
              (lag_offsets (n_rows matrixxt + maxlag) maxlag lags)
              (backlag_offsets (n_rows matrixxt + maxlag) maxlag lags)
              (n_rows matrixxt) maxlag 0 st
            = None).
  { intros st Hlen. unfold backcast_cycle. cbn [Nat.ltb Nat.leb].
    destruct (loop _ (seq maxlag _) st) as [st1|] eqn:L1; [|reflexivity].
    destruct (loop _ (seq (n_rows matrixxt) maxlag) st1) as [st2|] eqn:L2; [|reflexivity].
    assert (S1 : same_lengths st st1).
    { apply loop_same_lengths in L1; [exact L1|].
      intros i s s' Hs. destruct (ssfitter_step_shape _ _ _ _ _ _ _ _ _ _ _ Hs)
        as [_ [_ [G1 G2]]]. split; assumption. }
    assert (S2 : same_lengths st1 st2).
    { apply loop_same_lengths in L2; [exact L2|].
      intros i s s' Hs. destruct (backcast_tail_step_vectors _ _ _ _ _ Hs) as [G1 G2].
      split; congruence. }
    unfold backcast_back_loop.
    destruct (loop _ (rev _) st2) as [[[xt3 fitv3] errv3]|] eqn:L3; [|reflexivity].
    assert (S3 : same_lengths st2 (xt3, fitv3, errv3)).
    { apply loop_same_lengths in L3; [exact L3|].
      intros i s s' Hs. exact (backcast_back_step_lengths _ _ _ _ _ _ _ _ _ _ _ _ Hs). }
    assert (Hf : length fitv3 = length matyt).
    { destruct S1 as [A _], S2 as [B _], S3 as [C _]. cbn [fst snd] in C. congruence. }
    replace ((maxlag =? 0) || (n_rows matrixxt =? 0)) with true.
    2:{ symmetry. apply orb_true_iff.
        destruct Hzero as [->| ->]; [left | right]; reflexivity. }
    rewrite loop_below_raise; [reflexivity | |].
    - (* the guard at -1 *)
      apply Z.leb_le. change (wrap_uint (-1)) with 4294967295%Z. lia.
    - (* the turn at -1 *)
      unfold backcast_back_step_below.
      assert (E : wrap_uint (-1 - Z.of_nat maxlag) = (4294967295 - Z.of_nat maxlag)%Z).
      { unfold wrap_uint. symmetry.
        apply Z.mod_unique with (q := (-1)%Z); change uint_modulus with 4294967296%Z; lia. }
      unfold checked at 1. unfold in_bounds. rewrite E, Hf.
      replace (4294967295 - Z.of_nat maxlag <? Z.of_nat (length matyt))%Z with false
        by (symmetry; apply Z.ltb_ge; lia).
      rewrite andb_false_r. reflexivity. }
  rewrite H0; [reflexivity|]. cbn [fst snd]. apply repeat_length.
Qed.

End BackcastVectors.

Lemma ssfitterbackcast_residuals_witness :
  exists (res : fit float) (y f : float),
    ssfitterbackcast sc_matrixxt sc_matrixF sc_matrixw sc_matrixv sc_matyt sc_matg
                     sc_lags sc_wex sc_xtreg = Some res /\
    nth_error sc_matyt 4 = Some y /\
    nth_error (yfit res) 4 = Some f /\
    nth_error (errors res) 4 = Some (sub y f).
Proof.
  destruct (ssfitterbackcast (R := float) sc_matrixxt sc_matrixF sc_matrixw sc_matrixv
              sc_matyt sc_matg sc_lags sc_wex sc_xtreg) as [res|] eqn:Hres;
    [|vm_compute in Hres; discriminate].
  destruct (@ssfitterbackcast_residuals float _ _ _ _ _ _ _ _ _ _ 1 res Hres eq_refl)
    as [_ [_ H]].
  destruct (H 4 ltac:(vm_compute; lia)) as [y [f [H1 [H2 H3]]]].
  exists res, y, f. repeat split; assumption.
Defined.

Lemma ssfitterbackcast_zero_lags_raise_witness :
  (exists res : fit float,
     ssfitter sc_no_presample sc_matrixF sc_matrixw sc_matrixv sc_matyt sc_matg [0]
              sc_wex sc_xtreg = Some res) /\
  ssfitterbackcast (R := float) sc_no_presample sc_matrixF sc_matrixw sc_matrixv sc_matyt
                   sc_matg [0] sc_wex sc_xtreg = None.
Proof.
  split.
  - eexists. vm_compute. reflexivity.
  - apply (@ssfitterbackcast_zero_lags_raise float _ sc_no_presample sc_matrixF sc_matrixw
             sc_matrixv sc_matyt sc_matg [0] sc_wex sc_xtreg 0).
    + reflexivity.
    + left. reflexivity.
    + vm_compute. reflexivity.
Defined.

(** ** The other costs of [ssoptimizer] *)

Section OtherCosts.
Context {R : Type} {SR : Scalar R} (L : libm R).

(** Both filters return one fitted value and one residual per observation. *)
Lemma fit_lengths
    (matrixxt matrixF matrixw matrixv : mat R) (matyt matg : list R)
    (lags : list nat) (backcasting : bool) (wex xr : mat R) (fitting : fit R) :
  (if backcasting
   then ssfitterbackcast matrixxt matrixF matrixw matrixv matyt matg lags wex xr
   else ssfitter matrixxt matrixF matrixw matrixv matyt matg lags wex xr)
  = Some fitting ->
  length (yfit fitting) = length matyt /\ length (errors fitting) = length matyt.
Proof.
  destruct backcasting; intros H.
  - unfold ssfitterbackcast, ssfitterbackcast_cycles in H.
    destruct (max_uvec lags) as [maxlag|]; [|discriminate].
    destruct (loop _ (seq 0 4) _) as [[[xt fitv] errv]|] eqn:Hl; [|discriminate].
    inversion H; subst fitting; clear H. cbn [yfit errors].
    apply loop_same_lengths in Hl.
    + destruct Hl as [H1 H2]. cbn [fst snd] in H1, H2.
      rewrite repeat_length in H1, H2. auto.
    + intros j s s' Hs. exact (backcast_cycle_lengths _ _ _ _ _ _ _ _ _ _ _ _ _ Hs).
  - unfold ssfitter in H.
    destruct (max_uvec lags) as [maxlag|]; [|discriminate].
    destruct (loop _ _ _) as [[[xt fitv] errv]|] eqn:Hl; [|discriminate].
    inversion H; subst fitting; clear H. cbn [yfit errors].
    destruct (ssfitter_loop_shape _ _ _ _ _ _ _ _ _ _ _ Hl) as [_ [_ [H1 H2]]].
    cbn [fst snd] in H1, H2. rewrite repeat_length in H1, H2. auto.
Qed.

Lemma as_scalar_mean_nonempty (v : list R) :
  1 <= length v -> as_scalar_mean v = Some (mean v).
Proof. destruct v; simpl; [lia | reflexivity]. Qed.

(** X11. The cost [hsteps].  On operands [sserrorer] accepts and a horizon
    of at most [obs], [ssoptimizer] returns the mean of the squares of the
    first [obs - hor + 1] entries of the last column of the rolling-origin
    error matrix; each of them is an observation [hor - 1] periods after its
    origin minus the forecast of that step, none is the filler [NA_REAL]. *)
Theorem ssoptimizer_hsteps_cost :
  forall (matrixxt matrixF matrixw matrixv : mat R) (matyt matg : list R) (hor : nat)
         (lags : list nat) (normalize : R) (backcasting : bool) (wex xr : mat R)
         (fitting : fit R) (maxlag : nat),
    (if backcasting
     then ssfitterbackcast matrixxt matrixF matrixw matrixv matyt matg lags wex xr
     else ssfitter matrixxt matrixF matrixw matrixv matyt matg lags wex xr)
    = Some fitting ->
    errorer_ok (matxt fitting) matrixF matrixw matyt hor lags wex (xtreg fitting) maxlag ->
    hor <= length matyt ->
    let obs := length matyt in
    exists E,
      sserrorer (matxt fitting) matrixF matrixw matyt hor lags wex (xtreg fitting)
      = Some E /\
      ssoptimizer L matrixxt matrixF matrixw matrixv matyt matg hor lags "hsteps"
                  normalize backcasting wex xr
      = Some (column_mean_square L E (hor - 1) (obs - hor + 1)) /\
      forall r, r < obs - hor + 1 ->
        exists fc,
          origin_forecast (matxt fitting) matrixF matrixw matyt hor lags wex
            (xtreg fitting) maxlag (r + maxlag) = Some fc /\
          length fc = hor /\
          at_ E r (hor - 1)
          = sub (nth (r + (hor - 1)) matyt zero) (nth (hor - 1) fc zero).
Proof.
  intros matrixxt matrixF matrixw matrixv matyt matg hor lags normalize backcasting
         wex xr fitting maxlag Hfit Hok Hhor obs.
  pose proof (eok_hor Hok) as Hh1.
  destruct (sserrorer_entries Hok) as [E [HE [[Er [Ec _]] Hent]]]. fold obs in Er, Hent.
  assert (Hsize : (Z.of_nat obs < uword_modulus)%Z).
  { eapply Z.le_lt_trans; [|exact (eok_fit Hok)]. apply inj_le.
    rewrite (eok_xt_rows Hok). fold obs. nia. }
  exists E. split; [exact HE|]. split.
  - unfold ssoptimizer. rewrite Hfit. destruct fitting as [xt fitv errv xr'].
    cbn [matxt xtreg] in HE. cbn [String.eqb Ascii.eqb Bool.eqb]. rewrite HE.
    fold obs.
    rewrite (wrap_pred (n := hor)) by lia.
    replace (Z.of_nat obs - Z.of_nat hor)%Z with (Z.of_nat (obs - hor)) by lia.
    rewrite wrap_small by lia.
    change 0%Z with (Z.of_nat 0).
    rewrite submat_ok by lia.
    replace (obs - hor - 0 + 1) with (obs - hor + 1) by lia.
    replace (hor - 1 - (hor - 1) + 1) with 1 by lia.
    rewrite build_one_column, map_map.
    rewrite as_scalar_mean_nonempty by (rewrite length_map, length_seq; lia).
    unfold column_mean_square. f_equal. f_equal.
    apply map_ext. intros r. rewrite Nat.add_0_r. reflexivity.
  - intros r Hr.
    destruct (Hent r (hor - 1) ltac:(lia) ltac:(lia)) as [fc [Hfc [Hlen [_ Hat]]]].
    exists fc. split; [exact Hfc|].
    replace (Nat.min hor (obs + maxlag - (r + maxlag))) with hor in * by lia.
    split; [exact Hlen|].
    rewrite Hat. destruct (Nat.ltb_spec (hor - 1) hor); [reflexivity | lia].
Qed.

Lemma span_ok_wrapped (z : Z) (n : nat) :
  (- uword_modulus <= z < 0)%Z -> (Z.of_nat n <= uword_modulus + z)%Z ->
  span_ok 0 (wrap z) n = false.
Proof.
  intros Hz Hn. unfold span_ok.
  assert (E : wrap z = (z + uword_modulus)%Z).
  { unfold wrap. symmetry. apply Z.mod_unique with (q := (-1)%Z); lia. }
  rewrite E. apply andb_false_iff. right. apply Z.ltb_ge. lia.
Qed.

(** X12. A horizon longer than the series.  With [hor > obs] the costs
    [TLV], [TV] and [hsteps] raise (whatever the operands and with or without
    backcasting): the last row of the column they take, [obs - i - 1] or
    [obs - hor], passes below zero and the bounds check of [submat] fails. *)
Theorem ssoptimizer_long_horizon_raises :
  forall (matrixxt matrixF matrixw matrixv : mat R) (matyt matg : list R) (hor : nat)
         (lags : list nat) (CFtype : string) (normalize : R) (backcasting : bool)
         (wex xr : mat R),
    length matyt < hor ->
    (Z.of_nat hor < uword_modulus)%Z ->
    CFtype = "TLV"%string \/ CFtype = "TV"%string \/ CFtype = "hsteps"%string ->
    ssoptimizer L matrixxt matrixF matrixw matrixv matyt matg hor lags CFtype
                normalize backcasting wex xr
    = None.
Proof.
  intros matrixxt matrixF matrixw matrixv matyt matg hor lags CFtype normalize
         backcasting wex xr Hhor Hsize HCF.
  set (obs := length matyt) in *.
  assert (Htrace : forall f E, n_rows E = obs ->
            loop (trace_step L f E obs) (seq 0 hor) zero = None).
  { intros f E Er. apply loop_none with (i := obs).
    - apply in_seq. lia.
    - intros s. unfold trace_step, submat. rewrite Er.
      rewrite span_ok_wrapped by lia. reflexivity. }
  unfold ssoptimizer. fold obs.
  destruct (if backcasting then _ else _) as [[xt fitv errv xr']|]; [|reflexivity].
  destruct HCF as [-> | [-> | ->]]; cbn [String.eqb Ascii.eqb Bool.eqb];
    destruct (sserrorer xt matrixF matrixw matyt hor lags wex xr') as [E|] eqn:HE;
    try reflexivity;
    destruct (sserrorer_shape _ _ _ _ _ _ _ _ HE) as [Er Ec]; fold obs in Er.
  - apply Htrace. exact Er.
  - apply Htrace. exact Er.
  - unfold submat. rewrite Er. rewrite (span_ok_wrapped (z := _ - _)) by lia.
    reflexivity.
Qed.

(** X13. The costs computed from the residuals of the filter.  With a series
    that is not empty, whenever the filter (with or without backcasting)
    returns, [MSE] is the mean of the squared residuals, [MAE] the mean of
    their absolute values, and every name that is none of [GV], [TLV], [TV],
    [hsteps], [MSE], [MAE] gets the mean of the square roots of the absolute
    residuals.  The horizon and [normalize] play no part: these costs never
    call [sserrorer]. *)
Theorem ssoptimizer_residual_costs :
  forall (matrixxt matrixF matrixw matrixv : mat R) (matyt matg : list R) (hor : nat)
         (lags : list nat) (normalize : R) (backcasting : bool) (wex xr : mat R)
         (fitting : fit R),
    (if backcasting
     then ssfitterbackcast matrixxt matrixF matrixw matrixv matyt matg lags wex xr
     else ssfitter matrixxt matrixF matrixw matrixv matyt matg lags wex xr)
    = Some fitting ->
    1 <= length matyt ->
    let cost := fun CFtype =>
      ssoptimizer L matrixxt matrixF matrixw matrixv matyt matg hor lags CFtype
                  normalize backcasting wex xr in
    cost "MSE"%string = Some (mean (map (fun e => pow L e two) (errors fitting))) /\
    cost "MAE"%string = Some (mean (map (fabs L) (errors fitting))) /\
    forall CFtype,
      ~ In CFtype ["GV"; "TLV"; "TV"; "hsteps"; "MSE"; "MAE"]%string ->
      cost CFtype = Some (mean (map (fun e => pow L (fabs L e) half) (errors fitting))).
Proof.
  intros matrixxt matrixF matrixw matrixv matyt matg hor lags normalize backcasting
         wex xr fitting Hfit Hobs cost.
  destruct (fit_lengths _ _ _ _ _ _ _ _ _ _ Hfit) as [_ Hlen].
  unfold cost, ssoptimizer. rewrite Hfit. destruct fitting as [xt fitv errv xr'].
  cbn [errors] in *.
  split; [|split].
  - cbn [String.eqb Ascii.eqb Bool.eqb].
    apply as_scalar_mean_nonempty. rewrite length_map. lia.
  - cbn [String.eqb Ascii.eqb Bool.eqb].
    apply as_scalar_mean_nonempty. rewrite length_map. lia.
  - intros CFtype Hnot.
    repeat match goal with
           | |- context [String.eqb CFtype ?s] =>
               destruct (String.eqb_spec CFtype s) as [->|_];
               [exfalso; apply Hnot; simpl; tauto|]
           end.
    apply as_scalar_mean_nonempty. rewrite length_map. lia.
Qed.

End OtherCosts.

Lemma ssoptimizer_hsteps_cost_witness :
  exists E : mat xq,
    sc_rolling 2 = Some E /\
    ssoptimizer xq_libm sc_matrixxt sc_matrixF sc_matrixw sc_matrixv sc_matyt sc_matg
                2 sc_lags "hsteps" (num 1) false sc_wex sc_xtreg
    = Some (column_mean_square xq_libm E 1 4).
Proof.
  pose (fitting := match @sc_fit xq _ with
                   | Some f => f
                   | None => Fit sc_matrixxt [] [] sc_xtreg
                   end).
  assert (Hf : (if false
                then ssfitterbackcast sc_matrixxt sc_matrixF sc_matrixw sc_matrixv
                       sc_matyt sc_matg sc_lags sc_wex sc_xtreg
                else ssfitter sc_matrixxt sc_matrixF sc_matrixw sc_matrixv
                       sc_matyt sc_matg sc_lags sc_wex sc_xtreg) = Some fitting)
    by (vm_compute; reflexivity).
  assert (Hok : errorer_ok (matxt fitting) sc_matrixF sc_matrixw sc_matyt 2 sc_lags
                  sc_wex (xtreg fitting) 1) by shapes_ok.
  assert (Hhor : 2 <= length (@sc_matyt xq _)) by (vm_compute; lia).
  destruct (@ssoptimizer_hsteps_cost xq _ xq_libm sc_matrixxt sc_matrixF sc_matrixw
              sc_matrixv sc_matyt sc_matg 2 sc_lags (num 1) false sc_wex sc_xtreg
              fitting 1 Hf Hok Hhor)
    as [E [H1 [H2 _]]].
  exists E. split; [|exact H2].
  unfold sc_rolling. change (@sc_fit xq _) with (Some fitting) in |- *. exact H1.
Defined.

Lemma ssoptimizer_long_horizon_raises_witness :
  ssoptimizer xq_libm sc_matrixxt sc_matrixF sc_matrixw sc_matrixv sc_matyt sc_matg
              6 sc_lags "TV" (num 1) false sc_wex sc_xtreg
  = None.
Proof.
  apply ssoptimizer_long_horizon_raises.
  - vm_compute. lia.
  - vm_compute. reflexivity.
  - right. left. reflexivity.
Defined.

Lemma ssoptimizer_residual_costs_witness :
  exists fitting : fit xq,
    sc_fit = Some fitting /\
    ssoptimizer xq_libm sc_matrixxt sc_matrixF sc_matrixw sc_matrixv sc_matyt sc_matg
                0 sc_lags "MSE" (num 1) false sc_wex sc_xtreg
    = Some (mean (map (fun e => pow xq_libm e two) (errors fitting))).
Proof.
  destruct (@sc_fit xq _) as [fitting|] eqn:Hres; [|vm_compute in Hres; discriminate].
  exists fitting. split; [reflexivity|].
  assert (Hobs : 1 <= length (@sc_matyt xq _)) by (vm_compute; lia).
  destruct (@ssoptimizer_residual_costs xq _ xq_libm sc_matrixxt sc_matrixF sc_matrixw
              sc_matrixv sc_matyt sc_matg 0 sc_lags (num 1) false sc_wex sc_xtreg
              fitting Hres Hobs)
    as [H _].
  exact H.
Defined.

(** ** The two repairs, read by rows and columns *)

Section RepairByRows.
Context {R : Type} {SR : Scalar R}.

(** A non-finite entry at the last position sends the backward repair one
    position past the buffer. *)
Lemma subst_next_overflow (m : mat R) :
  1 <= length (mem m) ->
  (Z.of_nat (length (mem m)) < uword_modulus)%Z ->
  is_finite (nth (length (mem m) - 1) (mem m) zero) = false ->
  subst_next m = None.
Proof.
  intros Hne Hsize Hnf. unfold subst_next.
  set (p := length (mem m) - 1) in *.
  assert (Hin : In (Z.of_nat p) (find_nonfinite m)).
  { apply find_nonfinite_in. split; [unfold p; lia | exact Hnf]. }
  unfold elem. rewrite mapM_none with (a := wrap (Z.of_nat p + 1)); [reflexivity | |].
  - apply (in_map (fun q => wrap (q + 1))) in Hin. exact Hin.
  - unfold elem1, in_bounds. rewrite wrap_small by (unfold p; lia).
    replace (Z.of_nat p + 1 <? Z.of_nat (length (mem m)))%Z with false.
    + rewrite andb_false_r. reflexivity.
    + symmetry. apply Z.ltb_ge. unfold p. lia.
Qed.

(** X14. The forward repair (line 40, and lines 116 and 123 of the
    backcasting filter) on a matrix.  If the entry of row 0, column 0 is
    finite the repair returns a matrix of the same shape in which every
    finite entry is kept and every non-finite entry is replaced by the entry
    one row up in its column, or, in row 0, by the last entry of the column
    before; the values read are those before the repair.  If that first
    entry is not finite the repair raises. *)
Theorem subst_prev_by_rows :
  forall (m : mat R),
    wf_mat m -> 1 <= n_rows m -> 1 <= n_cols m ->
    (Z.of_nat (length (mem m)) < uword_modulus)%Z ->
    (is_finite (at_ m 0 0) = true ->
     exists m',
       subst_prev m = Some m' /\ n_rows m' = n_rows m /\ n_cols m' = n_cols m /\
       forall r c, r < n_rows m -> c < n_cols m ->
         at_ m' r c =
         if is_finite (at_ m r c) then at_ m r c
         else if r =? 0 then at_ m (n_rows m - 1) (c - 1) else at_ m (r - 1) c) /\
    (is_finite (at_ m 0 0) = false -> subst_prev m = None).
Proof.
  intros m Hwf Hr Hc Hsize. unfold wf_mat in Hwf.
  assert (Hlen : 1 <= length (mem m)) by (rewrite Hwf; nia).
  assert (Hhead : nth_error (mem m) 0 = Some (at_ m 0 0)).
  { unfold at_. change (0 + 0 * n_rows m) with 0. apply nth_error_nth'. lia. }
  split.
  - intros Hfin.
    destruct (subst_prev_spec m) as [m' [Hsub [Hr' [Hc' [Hlen' Hnth]]]]].
    + lia.
    + intros x Hx. rewrite Hhead in Hx. inversion Hx; subst x. exact Hfin.
    + exists m'. split; [exact Hsub|]. split; [exact Hr'|]. split; [exact Hc'|].
      intros r c Hrr Hcc. unfold at_ at 1. rewrite Hr'.
      rewrite Hnth by (rewrite Hwf; apply position_bound; assumption).
      fold (at_ m r c).
      destruct (is_finite (at_ m r c)) eqn:F; [reflexivity|].
      destruct (Nat.eqb_spec r 0) as [->|Hr0].
      * assert (Hc0 : c <> 0) by (intros ->; congruence).
        unfold at_. f_equal. nia.
      * unfold at_. f_equal. lia.
  - intros Hnf. apply (subst_prev_underflow m Hsize Hhead Hnf).
Qed.

(** X15. The backward repair (lines 135 and 142) on a matrix.  If the last
    entry (last row, last column) is finite the repair returns a matrix of
    the same shape in which every finite entry is kept and every non-finite
    entry is replaced by the entry one row down in its column, or, in the
    last row, by the first entry of the column after; the values read are
    those before the repair.  If that last entry is not finite the repair
    raises. *)
Theorem subst_next_by_rows :
  forall (m : mat R),
    wf_mat m -> 1 <= n_rows m -> 1 <= n_cols m ->
    (Z.of_nat (length (mem m)) < uword_modulus)%Z ->
    let last_r := n_rows m - 1 in
    let last_c := n_cols m - 1 in
    (is_finite (at_ m last_r last_c) = true ->
     exists m',
       subst_next m = Some m' /\ n_rows m' = n_rows m /\ n_cols m' = n_cols m /\
       forall r c, r < n_rows m -> c < n_cols m ->
         at_ m' r c =
         if is_finite (at_ m r c) then at_ m r c
         else if r =? last_r then at_ m 0 (c + 1) else at_ m (r + 1) c) /\
    (is_finite (at_ m last_r last_c) = false -> subst_next m = None).
Proof.
  intros m Hwf Hr Hc Hsize last_r last_c. unfold wf_mat in Hwf.
  assert (Hlen : 1 <= length (mem m)) by (rewrite Hwf; nia).
  assert (Hlast : at_ m last_r last_c = nth (length (mem m) - 1) (mem m) zero).
  { unfold at_, last_r, last_c. f_equal. rewrite Hwf. nia. }
  rewrite Hlast. split.
  - intros Hfin.
    destruct (subst_next_spec m) as [m' [Hsub [Hr' [Hc' [Hlen' Hnth]]]]].
    + lia.
    + exact Hfin.
    + exists m'. split; [exact Hsub|]. split; [exact Hr'|]. split; [exact Hc'|].
      intros r c Hrr Hcc. unfold at_ at 1. rewrite Hr'.
      rewrite Hnth by (rewrite Hwf; apply position_bound; assumption).
      fold (at_ m r c).
      destruct (is_finite (at_ m r c)) eqn:F; [reflexivity|].
      destruct (Nat.eqb_spec r last_r) as [->|Hrl].
      * unfold at_, last_r. f_equal. nia.
      * unfold at_. f_equal. lia.
  - intros Hnf. apply (subst_next_overflow m Hlen Hsize Hnf).
Qed.

End RepairByRows.

Lemma subst_prev_by_rows_witness :
  exists m' : mat float,
    subst_prev gap_matrix = Some m' /\ at_ m' 1 0 = 1%float /\
    at_ m' 0 1 = at_ gap_matrix 1 0.
Proof.
  assert (Hwf : wf_mat gap_matrix) by reflexivity.
  assert (Hr : 1 <= n_rows gap_matrix) by (vm_compute; lia).
  assert (Hc : 1 <= n_cols gap_matrix) by (vm_compute; lia).
  assert (Hs : (Z.of_nat (length (mem gap_matrix)) < uword_modulus)%Z)
    by (vm_compute; reflexivity).
  destruct (subst_prev_by_rows Hwf Hr Hc Hs) as [H _].
  destruct (H eq_refl) as [m' [H1 [_ [_ H2]]]].
  exists m'. split; [exact H1|]. split.
  - rewrite (H2 1 0) by (vm_compute; lia). reflexivity.
  - rewrite (H2 0 1) by (vm_compute; lia). reflexivity.
Defined.

Lemma subst_next_by_rows_witness :
  exists m' : mat float,
    subst_next gap_matrix = Some m' /\ at_ m' 0 1 = 4%float /\
    at_ m' 1 0 = at_ gap_matrix 0 1.
Proof.
  assert (Hwf : wf_mat gap_matrix) by reflexivity.
  assert (Hr : 1 <= n_rows gap_matrix) by (vm_compute; lia).
  assert (Hc : 1 <= n_cols gap_matrix) by (vm_compute; lia).
  assert (Hs : (Z.of_nat (length (mem gap_matrix)) < uword_modulus)%Z)
    by (vm_compute; reflexivity).
  destruct (subst_next_by_rows Hwf Hr Hc Hs) as [H _].
  destruct (H eq_refl) as [m' [H1 [_ [_ H2]]]].
  exists m'. split; [exact H1|]. split.
  - rewrite (H2 0 1) by (vm_compute; lia). reflexivity.
  - rewrite (H2 1 0) by (vm_compute; lia). reflexivity.
Defined.

(** ** Forecasts and the horizon *)

Section Horizon.
Context {R : Type} {SR : Scalar R}.

Lemma rowv_nth (m : mat R) (r c : nat) :
  c < n_cols m -> nth c (rowv m r) zero = at_ m r c.
Proof.
  intros Hc. unfold rowv.
  rewrite nth_indep with (d' := at_ m r 0) by (rewrite length_map, length_seq; exact Hc).
  rewrite (map_nth (at_ m r) (seq 0 (n_cols m)) 0 c). rewrite seq_nth by exact Hc.
  reflexivity.
Qed.

Lemma rowv_ext (m m' : mat R) (r r' : nat) :
  n_cols m = n_cols m' ->
  (forall c, c < n_cols m -> at_ m r c = at_ m' r' c) ->
  rowv m r = rowv m' r'.
Proof.
  intros Hc H. unfold rowv. rewrite <- Hc. apply map_ext_in.
  intros c Hin. apply in_seq in Hin. apply H. lia.
Qed.

(** Two state matrices that start from the same [maxlag] rows and follow the
    recurrence of the forecaster agree as far as both go. *)
Lemma forecast_states_agree (matrixF : mat R) (lags : list nat) (maxlag n n' : nat)
    (X X' : mat R) :
  (forall l, In l lags -> 1 <= l <= maxlag) ->
  n_cols X = length lags -> n_cols X' = length lags ->
  (forall r c, r < maxlag -> c < length lags -> at_ X r c = at_ X' r c) ->
  (forall h, h < n ->
     rowv X (maxlag + h) = transition_row matrixF (lagged X lags (maxlag + h))) ->
  (forall h, h < n' ->
     rowv X' (maxlag + h) = transition_row matrixF (lagged X' lags (maxlag + h))) ->
  forall j, j < maxlag + Nat.min n n' ->
    forall c, c < length lags -> at_ X j c = at_ X' j c.
Proof.
  intros Hl Hc Hc' Hpre Hrec Hrec' j.
  induction j as [j IH] using lt_wf_ind. intros Hj c Hcc.
  destruct (Nat.lt_ge_cases j maxlag) as [Hlt|Hge].
  - apply Hpre; assumption.
  - rewrite <- (rowv_nth X j) by lia. rewrite <- (rowv_nth X' j) by lia.
    replace j with (maxlag + (j - maxlag)) by lia.
    rewrite Hrec by lia. rewrite Hrec' by lia.
    replace (maxlag + (j - maxlag)) with j by lia.
    f_equal. f_equal. apply lagged_ext. intros k l Hk.
    assert (Hkl : k < length lags) by (apply nth_error_Some; congruence).
    assert (Hll : 1 <= l <= maxlag) by (apply Hl; eapply nth_error_In; eauto).
    apply IH; lia.
Qed.

(** X16. A longer horizon does not change the earlier forecasts.  Two calls
    of [ssforecaster] on conformant operands that differ only in the horizon
    return forecasts that agree at every step both have, although the two
    calls gather the lagged states at different linear indices (the state
    matrix each builds has [hor + maxlag] rows). *)
Theorem ssforecaster_horizon_prefix :
  forall (xs matrixF ws : mat R) (hor hor' : nat) (lags : list nat) (wexs xtregs : mat R)
         (maxlag : nat),
    forecaster_ok xs matrixF ws hor lags wexs xtregs maxlag ->
    forecaster_ok xs matrixF ws hor' lags wexs xtregs maxlag ->
    exists fc fc',
      ssforecaster xs matrixF ws hor lags wexs xtregs = Some fc /\
      ssforecaster xs matrixF ws hor' lags wexs xtregs = Some fc' /\
      length fc = hor /\ length fc' = hor' /\
      forall h, h < hor -> h < hor' -> nth_error fc h = nth_error fc' h.
Proof.
  intros xs matrixF ws hor hor' lags wexs xtregs maxlag Hok Hok'.
  destruct (forecaster_ok_lags Hok) as [_ [_ Hl]].
  destruct (ssforecaster_states Hok) as [fc [X [Hfc [Hlen [[_ [Hc _]] [Hpre Hrec]]]]]].
  destruct (ssforecaster_states Hok') as [fc' [X' [Hfc' [Hlen' [[_ [Hc' _]] [Hpre' Hrec']]]]]].
  exists fc, fc'. repeat split; try assumption.
  intros h Hh Hh'.
  destruct (Hrec h Hh) as [_ ->]. destruct (Hrec' h Hh') as [_ ->].
  f_equal. f_equal. apply lagged_ext. intros k l Hk.
  assert (Hkl : k < length lags) by (apply nth_error_Some; congruence).
  assert (Hll : 1 <= l <= maxlag) by (apply Hl; eapply nth_error_In; eauto).
  apply (@forecast_states_agree matrixF lags maxlag hor hor' X X' Hl Hc Hc'); try lia.
  - intros r c Hr Hcc. rewrite Hpre, Hpre' by assumption. reflexivity.
  - intros h0 Hh0. apply Hrec. exact Hh0.
  - intros h0 Hh0. apply Hrec'. exact Hh0.
Qed.

End Horizon.

Lemma ssforecaster_horizon_prefix_witness :
  exists fc fc' : list float,
    ssforecaster sc_origin sc_matrixF sc_matrixw 2 sc_lags sc_wex sc_xtreg = Some fc /\
    ssforecaster sc_origin sc_matrixF sc_matrixw 3 sc_lags sc_wex sc_xtreg = Some fc' /\
    nth_error fc 1 = nth_error fc' 1.
Proof.
  assert (Hok : forecaster_ok (R := float) sc_origin sc_matrixF sc_matrixw 2 sc_lags
                  sc_wex sc_xtreg 1) by shapes_ok.
  assert (Hok' : forecaster_ok (R := float) sc_origin sc_matrixF sc_matrixw 3 sc_lags
                   sc_wex sc_xtreg 1) by shapes_ok.
  destruct (ssforecaster_horizon_prefix Hok Hok') as [fc [fc' [H1 [H2 [_ [_ H3]]]]]].
  exists fc, fc'. split; [exact H1|]. split; [exact H2|]. apply H3; lia.
Defined.

(** ** The rolling-origin errors, step by step *)

Section MultiStep.
Context {R : Type} {SR : Scalar R}.

(** The forecast from origin [i], step by step. *)
Lemma origin_forecast_states
    (matrixxt matrixF matrixw : mat R) (matyt : list R) (hor : nat)
    (lags : list nat) (wex xr : mat R) (maxlag i : nat) :
  errorer_ok matrixxt matrixF matrixw matyt hor lags wex xr maxlag ->
  maxlag <= i < length matyt + maxlag ->
  let hh := Nat.min hor (length matyt + maxlag - i) in
  exists fc X,
    origin_forecast matrixxt matrixF matrixw matyt hor lags wex xr maxlag i = Some fc /\
    length fc = hh /\
    extrapolated matrixxt matrixF lags maxlag i hh X /\
    forall h, h < hh ->
      nth_error fc h
      = Some (fitted_value matrixw wex xr (lagged X lags (maxlag + h)) (i - maxlag + h)).
Proof.
  intros Hok Hi hh.
  destruct (errorer_ok_lags Hok) as [Hm1 [Hn1 Hl]].
  pose proof (eok_fit Hok) as Hfit. pose proof (eok_hor Hok) as Hhor.
  pose proof (eok_xt_rows Hok) as Hxr.
  set (obs := length matyt) in *.
  set (t := i - maxlag).
  assert (Hhh : 1 <= hh /\ hh <= hor /\ t + hh <= obs) by (unfold hh, t; lia).
  assert (Hbig : (Z.of_nat (obs + maxlag) < uword_modulus)%Z).
  { eapply Z.le_lt_trans; [|exact Hfit]. apply inj_le. rewrite Hxr. nia. }
  unfold origin_forecast. fold obs hh t. cbv zeta.
  rewrite (wrap_pred (n := i)) by lia.
  replace (Z.of_nat t + Z.of_nat hh - 1)%Z with (Z.of_nat (t + hh) - 1)%Z by lia.
  rewrite (wrap_pred (n := t + hh)) by lia.
  rewrite rows_ok by (unfold t; lia).
  rewrite (rows_ok matrixw) by (rewrite (eok_w_rows Hok); fold obs; lia).
  rewrite (rows_ok wex) by (rewrite (eok_wex_rows Hok); fold obs; lia).
  rewrite (rows_ok xr) by (rewrite (eok_xr_rows Hok); fold obs; lia).
  replace (i - 1 - t + 1) with maxlag by (unfold t; lia).
  replace (t + hh - 1 - t + 1) with hh by lia.
  set (xs := build maxlag (n_cols matrixxt) (fun r c => at_ matrixxt (t + r) c)).
  set (ws := build hh (n_cols matrixw) (fun r c => at_ matrixw (t + r) c)).
  set (wexs := build hh (n_cols wex) (fun r c => at_ wex (t + r) c)).
  set (xtregs := build hh (n_cols xr) (fun r c => at_ xr (t + r) c)).
  assert (Hfok : forecaster_ok xs matrixF ws hh lags wexs xtregs maxlag).
  { constructor; unfold xs, ws, wexs, xtregs; rewrite ?build_rows, ?build_cols;
      try first [ exact (eok_maxlag Hok) | exact (eok_lags Hok)
                | exact (eok_xt_cols Hok) | exact (eok_F_rows Hok)
                | exact (eok_F_cols Hok) | exact (eok_w_cols Hok)
                | exact (eok_ex_cols Hok) | lia ].
    eapply Z.le_lt_trans; [|exact Hfit]. apply inj_le. rewrite Hxr. fold obs. nia. }
  destruct (ssforecaster_states Hfok) as [fc [X [Hfc [Hlen [[_ [Hc _]] [Hpre Hrec]]]]]].
  exists fc, X. split; [exact Hfc|]. split; [exact Hlen|]. split.
  - split; [exact Hc|]. split.
    + intros r c Hr Hcc. rewrite Hpre by assumption. unfold xs.
      rewrite build_at by (rewrite ?(eok_xt_cols Hok); lia). reflexivity.
    + intros h Hh. apply Hrec. exact Hh.
  - intros h Hh. destruct (Hrec h Hh) as [_ ->]. f_equal.
    unfold fitted_value, ws, wexs, xtregs.
    rewrite !rowv_rows_view by (reflexivity || lia). reflexivity.
Qed.

(** The entries of the error matrix, step by step. *)
Lemma sserrorer_steps
    (matrixxt matrixF matrixw : mat R) (matyt : list R) (hor : nat)
    (lags : list nat) (wex xr : mat R) (maxlag : nat) :
  errorer_ok matrixxt matrixF matrixw matyt hor lags wex xr maxlag ->
  exists E,
    sserrorer matrixxt matrixF matrixw matyt hor lags wex xr = Some E /\
    forall r c, c < hor -> r + c < length matyt ->
      exists X,
        extrapolated matrixxt matrixF lags maxlag (r + maxlag) (c + 1) X /\
        at_ E r c
        = sub (nth (r + c) matyt zero)
              (fitted_value matrixw wex xr (lagged X lags (maxlag + c)) (r + c)).
Proof.
  intros Hok.
  destruct (sserrorer_entries Hok) as [E [HE [_ Hent]]].
  exists E. split; [exact HE|].
  intros r c Hc Hrc.
  destruct (Hent r c ltac:(lia) Hc) as [fc [Hfc [_ [_ Hat]]]].
  destruct (@origin_forecast_states matrixxt matrixF matrixw matyt hor lags wex xr maxlag
              (r + maxlag) Hok ltac:(lia))
    as [fc' [X [Hfc' [_ [[HXc [HXpre HXrec]] Hval]]]]].
  rewrite Hfc in Hfc'. inversion Hfc'; subst fc'. clear Hfc'.
  exists X. split.
  - split; [exact HXc|]. split; [exact HXpre|].
    intros h Hh. apply HXrec. lia.
  - rewrite Hat.
    destruct (Nat.ltb_spec c (Nat.min hor (length matyt + maxlag - (r + maxlag))));
      [|lia].
    f_equal. rewrite (nth_error_nth _ _ zero (Hval c ltac:(lia))).
    f_equal. lia.
Qed.

(** C6. On inputs of the expected shapes, with [1 <= hor <= obs],
    [sserrorer] returns an [obs x hor] matrix; its row [r] (origin
    [i = r + maxlag]) holds, in the columns below
    [hh = min(hor, obs + maxlag - i)], the observations [r .. r + hh - 1]
    minus the forecast from that origin, and [NA_REAL] in the other columns.
    So [obs - hor + 1] rows are full ([hh = hor]) and the other [hor - 1]
    rows are partly filled ([1 <= hh < hor]).  The forecast that is
    subtracted is the one the routine computes: the entry of row [r] and
    column [c] (with [r + c < obs]) is the observation of period [r + c]
    minus the measurement and exogenous rows [r + c] applied to the lagged
    rows of a state matrix that starts with rows [r .. r + maxlag - 1] of
    the state history and is carried forward [c + 1] steps by the
    transition. *)
Theorem sserrorer_populated :
  forall (matrixxt matrixF matrixw : mat R) (matyt : list R) (hor : nat)
         (lags : list nat) (wex xr : mat R) (maxlag : nat),
    errorer_ok matrixxt matrixF matrixw matyt hor lags wex xr maxlag ->
    hor <= length matyt ->
    let obs := length matyt in
    let hh := fun r => Nat.min hor (obs + maxlag - (r + maxlag)) in
    exists E,
      sserrorer matrixxt matrixF matrixw matyt hor lags wex xr = Some E /\
      n_rows E = obs /\ n_cols E = hor /\
      (forall r c, r < obs -> c < hor ->
         exists fc,
           origin_forecast matrixxt matrixF matrixw matyt hor lags wex xr maxlag
             (r + maxlag) = Some fc /\
           length fc = hh r /\
           at_ E r c = if c <? hh r then sub (nth (r + c) matyt zero) (nth c fc zero)
                       else NA_REAL) /\
      length (filter (fun r => hh r =? hor) (seq 0 obs)) = obs - hor + 1 /\
      length (filter (fun r => negb (hh r =? hor)) (seq 0 obs)) = hor - 1 /\
      (forall r, r < obs -> 1 <= hh r <= hor) /\
      (forall r c, c < hor -> r + c < obs ->
         exists X,
           extrapolated matrixxt matrixF lags maxlag (r + maxlag) (c + 1) X /\
           at_ E r c
           = sub (nth (r + c) matyt zero)
                 (fitted_value matrixw wex xr (lagged X lags (maxlag + c)) (r + c))).
Proof.
  intros matrixxt matrixF matrixw matyt hor lags wex xr maxlag Hok Hhor obs hh.
  pose proof (eok_hor Hok) as Hh1.
  destruct (sserrorer_entries Hok) as [E [Hloop [[Hr [Hc _]] Hent]]].
  fold obs in Hr, Hent. fold hh in Hent.
  exists E. split; [exact Hloop|]. split; [exact Hr|]. split; [exact Hc|]. split.
  - intros r c Hrr Hcc. destruct (Hent r c Hrr Hcc) as [fc [H1 [H2 [_ H3]]]].
    exists fc. auto.
  - destruct (@count_below (fun r => hh r =? hor) obs (obs - hor + 1)) as [C1 C2].
    + lia.
    + intros r Hrr. unfold hh.
      destruct (Nat.eqb_spec (Nat.min hor (obs + maxlag - (r + maxlag))) hor);
        destruct (Nat.ltb_spec r (obs - hor + 1)); try reflexivity; lia.
    + split; [exact C1|]. split; [rewrite C2; lia|]. split.
      * intros r Hrr. unfold hh. lia.
      * destruct (sserrorer_steps Hok) as [E' [HE' Hsteps]].
        rewrite Hloop in HE'. inversion HE'; subst E'. exact Hsteps.
Qed.

(** X17. What an entry of the error matrix is.  On operands [sserrorer]
    accepts, the entry of row [r] and column [c] (with [r + c < obs]) is the
    observation of period [r + c] minus the fitted value of that period, the
    measurement and exogenous rows [r + c] applied to the lagged rows of a
    state matrix that starts with rows [r .. r + maxlag - 1] of the state
    history and is carried forward [c + 1] steps by the transition alone. *)
Theorem sserrorer_multi_step :
  forall (matrixxt matrixF matrixw : mat R) (matyt : list R) (hor : nat)
         (lags : list nat) (wex xr : mat R) (maxlag : nat),
    errorer_ok matrixxt matrixF matrixw matyt hor lags wex xr maxlag ->
    exists E,
      sserrorer matrixxt matrixF matrixw matyt hor lags wex xr = Some E /\
      forall r c, c < hor -> r + c < length matyt ->
        exists X,
          n_cols X = length lags /\
          (forall k j, k < maxlag -> j < length lags ->
             at_ X k j = at_ matrixxt (r + k) j) /\
          (forall h, h <= c ->
             rowv X (maxlag + h) = transition_row matrixF (lagged X lags (maxlag + h))) /\
          at_ E r c
          = sub (nth (r + c) matyt zero)
                (fitted_value matrixw wex xr (lagged X lags (maxlag + c)) (r + c)).
Proof.
  intros matrixxt matrixF matrixw matyt hor lags wex xr maxlag Hok.
  destruct (sserrorer_steps Hok) as [E [HE Hent]].
  exists E. split; [exact HE|].
  intros r c Hc Hrc. destruct (Hent r c Hc Hrc) as [X [[HXc [HXpre HXrec]] Hat]].
  exists X. split; [exact HXc|]. split.
  - intros k j Hk Hj. rewrite HXpre by assumption. f_equal. lia.
  - split; [|exact Hat]. intros h Hh. apply HXrec. lia.
Qed.

(** X18. The horizon does not change the errors it shares.  Two calls of
    [sserrorer] that differ only in the horizon return matrices that agree
    at every origin and step both of them fill: the first column, for one,
    is the same for every horizon. *)
Theorem sserrorer_horizon_independent :
  forall (matrixxt matrixF matrixw : mat R) (matyt : list R) (hor hor' : nat)
         (lags : list nat) (wex xr : mat R) (maxlag : nat),
    errorer_ok matrixxt matrixF matrixw matyt hor lags wex xr maxlag ->
    errorer_ok matrixxt matrixF matrixw matyt hor' lags wex xr maxlag ->
    exists E E',
      sserrorer matrixxt matrixF matrixw matyt hor lags wex xr = Some E /\
      sserrorer matrixxt matrixF matrixw matyt hor' lags wex xr = Some E' /\
      forall r c, c < hor -> c < hor' -> r + c < length matyt ->
        at_ E r c = at_ E' r c.
Proof.
  intros matrixxt matrixF matrixw matyt hor hor' lags wex xr maxlag Hok Hok'.
  destruct (errorer_ok_lags Hok) as [_ [_ Hl]].
  destruct (sserrorer_steps Hok) as [E [HE Hent]].
  destruct (sserrorer_steps Hok') as [E' [HE' Hent']].
  exists E, E'. split; [exact HE|]. split; [exact HE'|].
  intros r c Hc Hc' Hrc.
  destruct (Hent r c Hc Hrc) as [X [[HXc [HXpre HXrec]] ->]].
  destruct (Hent' r c Hc' Hrc) as [X' [[HXc' [HXpre' HXrec']] ->]].
  f_equal. f_equal. apply lagged_ext. intros k l Hk.
  assert (Hkl : k < length lags) by (apply nth_error_Some; congruence).
  assert (Hll : 1 <= l <= maxlag) by (apply Hl; eapply nth_error_In; eauto).
  apply (@forecast_states_agree _ _ matrixF lags maxlag (c + 1) (c + 1) X X' Hl HXc HXc');
    try lia.
  - intros r0 c0 Hr0 Hc0. rewrite HXpre, HXpre' by assumption. reflexivity.
  - exact HXrec.
  - exact HXrec'.
Qed.

End MultiStep.

Lemma sserrorer_populated_witness :
  exists E : mat float,
    sserrorer sc_matrixxt sc_matrixF sc_matrixw sc_matyt 2 sc_lags sc_wex sc_xtreg
    = Some E /\ n_rows E = 5 /\ n_cols E = 2.
Proof.
  assert (Hok : errorer_ok (R := float) sc_matrixxt sc_matrixF sc_matrixw sc_matyt 2
                  sc_lags sc_wex sc_xtreg 1) by shapes_ok.
  assert (Hhor : 2 <= length (@sc_matyt float _)) by (vm_compute; lia).
  destruct (sserrorer_populated Hok Hhor) as [E [H1 [H2 [H3 _]]]].
  exists E. repeat split; assumption.
Defined.

Lemma sserrorer_multi_step_witness :
  exists (E X : mat float),
    sserrorer sc_matrixxt sc_matrixF sc_matrixw sc_matyt 2 sc_lags sc_wex sc_xtreg
    = Some E /\
    at_ E 1 1
    = sub (nth 2 sc_matyt zero)
          (fitted_value sc_matrixw sc_wex sc_xtreg (lagged X sc_lags 2) 2).
Proof.
  assert (Hok : errorer_ok (R := float) sc_matrixxt sc_matrixF sc_matrixw sc_matyt 2
                  sc_lags sc_wex sc_xtreg 1) by shapes_ok.
  destruct (sserrorer_multi_step Hok) as [E [H1 H2]].
  destruct (H2 1 1 ltac:(lia) ltac:(vm_compute; lia)) as [X [_ [_ [_ H3]]]].
  exists E, X. split; [exact H1 | exact H3].
Defined.

Lemma sserrorer_horizon_independent_witness :
  exists (E E' : mat float),
    sserrorer sc_matrixxt sc_matrixF sc_matrixw sc_matyt 1 sc_lags sc_wex sc_xtreg
    = Some E /\
    sserrorer sc_matrixxt sc_matrixF sc_matrixw sc_matyt 2 sc_lags sc_wex sc_xtreg
    = Some E' /\
    at_ E 2 0 = at_ E' 2 0.
Proof.
  assert (Hok : errorer_ok (R := float) sc_matrixxt sc_matrixF sc_matrixw sc_matyt 1
                  sc_lags sc_wex sc_xtreg 1) by shapes_ok.
  assert (Hok' : errorer_ok (R := float) sc_matrixxt sc_matrixF sc_matrixw sc_matyt 2
                   sc_lags sc_wex sc_xtreg 1) by shapes_ok.
  destruct (sserrorer_horizon_independent Hok Hok') as [E [E' [H1 [H2 H3]]]].
  exists E, E'. split; [exact H1|]. split; [exact H2|].
  apply H3; try lia. vm_compute. lia.
Defined.

(** ** What the cost [GV] is computed from *)

Section GeneralisedVariance.
Context {R : Type} {SR : Scalar R} (L : libm R).

Lemma resize_at (m : mat R) (nr nc r c : nat) :
  r < nr -> c < nc -> r < n_rows m -> c < n_cols m ->
  at_ (resize m nr nc) r c = at_ m r c.
Proof.
  intros Hr Hc Hr' Hc'. unfold resize. rewrite build_at by assumption.
  destruct (Nat.ltb_spec r (n_rows m)); [|lia].
  destruct (Nat.ltb_spec c (n_cols m)); [reflexivity | lia].
Qed.

(** X19. The cost [GV].  On operands [sserrorer] accepts and a horizon of at
    most [obs], the decomposition is computed on the error matrix cut down
    to its first [matobs = obs - hor + 1] rows, and in those rows every
    horizon is filled: each entry is an observation minus its forecast, none
    is the filler [NA_REAL]. *)
Theorem ssoptimizer_GV_operand :
  forall (matrixxt matrixF matrixw matrixv : mat R) (matyt matg : list R) (hor : nat)
         (lags : list nat) (normalize : R) (backcasting : bool) (wex xr : mat R)
         (fitting : fit R) (maxlag : nat),
    (if backcasting
     then ssfitterbackcast matrixxt matrixF matrixw matrixv matyt matg lags wex xr
     else ssfitter matrixxt matrixF matrixw matrixv matyt matg lags wex xr)
    = Some fitting ->
    errorer_ok (matxt fitting) matrixF matrixw matyt hor lags wex (xtreg fitting) maxlag ->
    hor <= length matyt ->
    let matobs := length matyt - hor + 1 in
    exists E,
      sserrorer (matxt fitting) matrixF matrixw matyt hor lags wex (xtreg fitting)
      = Some E /\
      ssoptimizer L matrixxt matrixF matrixw matrixv matyt matg hor lags "GV"
                  normalize backcasting wex xr
      = Some (gv_cost L (resize E matobs hor) normalize matobs hor) /\
      n_rows (resize E matobs hor) = matobs /\ n_cols (resize E matobs hor) = hor /\
      forall r c, r < matobs -> c < hor ->
        exists fc,
          origin_forecast (matxt fitting) matrixF matrixw matyt hor lags wex
            (xtreg fitting) maxlag (r + maxlag) = Some fc /\
          length fc = hor /\
          at_ (resize E matobs hor) r c
          = sub (nth (r + c) matyt zero) (nth c fc zero).
Proof.
  intros matrixxt matrixF matrixw matrixv matyt matg hor lags normalize backcasting
         wex xr fitting maxlag Hfit Hok Hhor matobs.
  destruct (sserrorer_entries Hok) as [E [HE [[Er [Ec _]] Hent]]].
  exists E. split; [exact HE|]. split.
  - unfold ssoptimizer. rewrite Hfit. destruct fitting as [xt fitv errv xr'].
    cbn [matxt xtreg] in HE. cbn [String.eqb Ascii.eqb Bool.eqb]. rewrite HE.
    destruct (Nat.ltb_spec (length matyt + 1) hor); [lia|].
    replace (length matyt + 1 - hor) with matobs by (unfold matobs; lia).
    reflexivity.
  - split; [reflexivity|]. split; [reflexivity|].
    intros r c Hr Hc.
    destruct (Hent r c ltac:(unfold matobs in Hr; lia) Hc) as [fc [Hfc [Hlen [_ Hat]]]].
    exists fc. split; [exact Hfc|].
    replace (Nat.min hor (length matyt + maxlag - (r + maxlag))) with hor in *
      by (unfold matobs in Hr; lia).
    split; [exact Hlen|].
    rewrite resize_at by (unfold matobs in Hr; lia).
    rewrite Hat. destruct (Nat.ltb_spec c hor); [reflexivity | lia].
Qed.

End GeneralisedVariance.

Lemma ssoptimizer_GV_operand_witness :
  exists E : mat xq,
    sc_rolling 2 = Some E /\
    ssoptimizer xq_libm sc_matrixxt sc_matrixF sc_matrixw sc_matrixv sc_matyt sc_matg
                2 sc_lags "GV" (num 1) false sc_wex sc_xtreg
    = Some (gv_cost xq_libm (resize E 4 2) (num 1) 4 2).
Proof.
  pose (fitting := match @sc_fit xq _ with
                   | Some f => f
                   | None => Fit sc_matrixxt [] [] sc_xtreg
                   end).
  assert (Hf : (if false
                then ssfitterbackcast sc_matrixxt sc_matrixF sc_matrixw sc_matrixv
                       sc_matyt sc_matg sc_lags sc_wex sc_xtreg
                else ssfitter sc_matrixxt sc_matrixF sc_matrixw sc_matrixv
                       sc_matyt sc_matg sc_lags sc_wex sc_xtreg) = Some fitting)
    by (vm_compute; reflexivity).
  assert (Hok : errorer_ok (matxt fitting) sc_matrixF sc_matrixw sc_matyt 2 sc_lags
                  sc_wex (xtreg fitting) 1) by shapes_ok.
  assert (Hhor : 2 <= length (@sc_matyt xq _)) by (vm_compute; lia).
  destruct (@ssoptimizer_GV_operand xq _ xq_libm sc_matrixxt sc_matrixF sc_matrixw
              sc_matrixv sc_matyt sc_matg 2 sc_lags (num 1) false sc_wex sc_xtreg
              fitting 1 Hf Hok Hhor)
    as [E [H1 [H2 _]]].
  exists E. split; [|exact H2].
  unfold sc_rolling. change (@sc_fit xq _) with (Some fitting) in |- *. exact H1.
Defined.

(** ** One turn of the backward pass *)

Section BackwardTurn.
Context {R : Type} {SR : Scalar R}.

(** The linear indices of the backward gather: row [i + lag_k] of column [k]
    of the extended state history. *)
Lemma backward_lagrows_eq (obsall maxlag : nat) (lags : list nat) (i : nat) :
  (forall l, In l lags -> l <= maxlag) ->
  i < obsall ->
  (Z.of_nat ((obsall + maxlag) * (length lags + 1)) < uword_modulus)%Z ->
  backward_lagrows (backlag_offsets (obsall + maxlag) maxlag lags) obsall i
  = mapi (fun k l => Z.of_nat ((i + l) + k * (obsall + maxlag))) lags.
Proof.
  intros Hl Hi Hfit. unfold backward_lagrows, backlag_offsets, mapi.
  rewrite map_mapi_from. apply mapi_from_ext. intros j a Hj. simpl.
  assert (Hjl : j < length lags) by (apply nth_error_Some; congruence).
  assert (Ha : a <= maxlag) by (apply Hl; eapply nth_error_In; eauto).
  assert (Hb : (Z.of_nat ((obsall + maxlag) * (j + 2)) < uword_modulus)%Z).
  { eapply Z.le_lt_trans; [|exact Hfit]. apply inj_le. nia. }
  rewrite wrap_sub_l.
  match goal with
  | |- wrap (wrap ?u + ?n - ?m) = _ =>
      replace (wrap u + n - m)%Z with (wrap u + (n - m))%Z by lia
  end.
  rewrite wrap_add_l.
  match goal with
  | |- wrap (?u - wrap ?v + ?n) = _ =>
      replace (u - wrap v + n)%Z with ((u + n) - wrap v)%Z by lia
  end.
  rewrite wrap_sub_r.
  etransitivity; [|apply wrap_small; nia]. f_equal. nia.
Qed.

Lemma gather_leading (m : mat R) (lags : list nat) (rc i : nat) (x : list R) :
  n_rows m = rc ->
  elem m (mapi (fun k l => Z.of_nat ((i + l) + k * rc)) lags) = Some x ->
  x = leading m lags i.
Proof.
  intros <-. unfold elem, mapi, leading, mapi. intros H.
  apply (mapM_mapi_from (elem1 m) (fun k l => Z.of_nat ((i + l) + k * n_rows m))
           (fun k l => at_ m (i + l) k) lags 0); [|exact H].
  intros j c Hj b Hb. apply elem1_some in Hb. destruct Hb as [_ ->]. reflexivity.
Qed.

(** X20. One turn of the backward filter pass of [ssfitterbackcast] (lines
    130-135) at row [i] of the extended state history.  Whenever it
    completes, it used the leading state [x] (component [k] read at row
    [i + lag_k]) where the forward pass uses the lagged one, and the same
    three formulas: the fitted value of period [t = i - maxlag] is
    [matrixw[t] . x + wex[t] . xtreg[t]], the residual is [matyt[t]] minus
    it, and row [i] is written with
    [matrixF . x + (matg / matrixv[t]) * residual] before the repair from the
    next buffer position. *)
Theorem backcast_backward_turn :
  forall (matrixF matrixw matrixv : mat R) (matyt matg : list R) (wex xr : mat R)
         (lags : list nat) (obsall maxlag i : nat)
         (xt : mat R) (fitv errv : list R) (xt' : mat R) (fitv' errv' : list R),
    max_uvec lags = Some maxlag ->
    (Z.of_nat ((obsall + maxlag) * (length lags + 1)) < uword_modulus)%Z ->
    n_rows xt = obsall + maxlag ->
    maxlag <= i < obsall ->
    backcast_back_step matrixF matrixw matrixv matyt matg wex xr
      (backlag_offsets (obsall + maxlag) maxlag lags) obsall maxlag i (xt, fitv, errv)
    = Some (xt', fitv', errv') ->
    let t := i - maxlag in
    let x := leading xt lags i in
    let f := fitted_value matrixw wex xr x t in
    exists (y : R) (xt_w : mat R),
      nth_error matyt t = Some y /\
      fitv' = upd t f fitv /\
      errv' = upd t (sub y f) errv /\
      set_row xt i (new_state_row matrixF matrixv matg x t (sub y f)) = Some xt_w /\
      rowv xt_w i = new_state_row matrixF matrixv matg x t (sub y f) /\
      subst_next xt_w = Some xt'.
Proof.
  intros matrixF matrixw matrixv matyt matg wex xr lags obsall maxlag i
         xt fitv errv xt' fitv' errv' Hmax Hfit Hrows Hi Hstep t x f.
  unfold backcast_back_step in Hstep. fold t in Hstep.
  destruct (filter_update _ _ _ _ _ _ _ _ _ _ _) as [[[xt_w f1] e1]|] eqn:Hu;
    [|discriminate].
  destruct (subst_next xt_w) as [xt2|] eqn:Hsub; [|discriminate].
  inversion Hstep; subst xt2 f1 e1. clear Hstep.
  destruct (filter_update_some _ _ _ _ _ _ _ _ _ _ _ _ _ Hu)
    as [x0 [y [Hx [Hy [_ [_ [Hf' [He' Hset]]]]]]]].
  assert (Hx0 : x0 = x).
  { rewrite backward_lagrows_eq in Hx; try lia.
    - apply (gather_leading _ _ _ Hrows) in Hx. exact Hx.
    - intros l Hl. apply (max_uvec_ge _ Hmax l Hl). }
  subst x0. fold f in Hf', He', Hset.
  exists y, xt_w. repeat split; try assumption.
  apply (set_row_rowv _ _ _ Hset).
Qed.

End BackwardTurn.

Lemma backcast_backward_turn_witness :
  exists (xt' : mat float) (fitv' errv' : list float),
    backcast_back_step tc_matrixF tc_matrixw tc_matrixv tc_matyt tc_matg tc_wex tc_xtreg
      (backlag_offsets 4 1 tc_lags) 3 1 2 (resize tc_matrixxt 4 2, [0; 0], [0; 0])%float
    = Some (xt', fitv', errv') /\
    fitv' = upd 1 (fitted_value tc_matrixw tc_wex tc_xtreg
                     (leading (resize tc_matrixxt 4 2) tc_lags 2) 1) [0; 0]%float.
Proof.
  destruct (backcast_back_step (R := float) tc_matrixF tc_matrixw tc_matrixv tc_matyt
              tc_matg tc_wex tc_xtreg (backlag_offsets 4 1 tc_lags) 3 1 2
              (resize tc_matrixxt 4 2, [0; 0], [0; 0])%float)
    as [[[xt' fitv'] errv']|] eqn:Hs; [|vm_compute in Hs; discriminate].
  exists xt', fitv', errv'. split; [reflexivity|].
  assert (Hfit : (Z.of_nat ((3 + 1) * (length tc_lags + 1)) < uword_modulus)%Z)
    by (vm_compute; reflexivity).
  destruct (@backcast_backward_turn float _ tc_matrixF tc_matrixw tc_matrixv tc_matyt
              tc_matg tc_wex tc_xtreg tc_lags 3 1 2 (resize tc_matrixxt 4 2)
              [0; 0]%float [0; 0]%float xt' fitv' errv' eq_refl Hfit eq_refl
              ltac:(lia) Hs)
    as [y [xt_w [_ [H _]]]].
  exact H.
Defined.

(** ** The backcasting filter returns *)

Section BackcastTotal.
Context {R : Type} {SR : Scalar R}.

Lemma loop_in_total {St} (P : St -> Prop) (body : nat -> St -> option St) (l : list nat) :
  (forall i s, In i l -> P s -> exists s', body i s = Some s' /\ P s') ->
  forall s, P s -> exists s', loop body l s = Some s' /\ P s'.
Proof.
  induction l as [|i l IH]; intros Hb s Hs; simpl.
  - exists s. auto.
  - destruct (Hb i s (or_introl eq_refl) Hs) as [s1 [E1 P1]]. rewrite E1.
    apply IH; [|exact P1]. intros j t Hj. apply Hb. right; exact Hj.
Qed.

(** A row is written and the matrix repaired from the row above. *)
Lemma write_then_repair_prev (rc nc i : nat) (xt xt_w : mat R) (v : list R) :
  shape_ok xt rc nc -> 1 <= i < rc -> 1 <= nc ->
  (Z.of_nat (rc * nc) < uword_modulus)%Z ->
  set_row xt i v = Some xt_w ->
  is_finite (at_ xt 0 0) = true ->
  exists xt', subst_prev xt_w = Some xt' /\ turn_ok rc nc xt xt' i (i - 1).
Proof.
  intros [Hr [Hc Hlen]] Hi Hnc Hsize Hset Hhead.
  destruct (set_row_shape _ _ _ Hset) as [Hrw [Hcw Hlenw]].
  rewrite Hr in Hrw. rewrite Hc in Hcw. rewrite Hr, Hc in Hlenw.
  assert (Hold : forall r c, r < rc -> c < nc -> r <> i ->
                   nth (r + c * rc) (mem xt_w) zero = at_ xt r c).
  { intros r c Hrr Hcc Hne.
    pose proof (@set_row_at _ _ xt xt_w i _ r c Hset) as Hat. unfold at_ at 1 in Hat.
    rewrite Hrw in Hat. rewrite Hat by lia.
    destruct (Nat.eqb_spec r i); [contradiction | reflexivity]. }
  destruct (subst_prev_spec xt_w) as [xt' [Hsub [Hr' [Hc' [Hlen' Hnth]]]]].
  - rewrite Hlenw. lia.
  - intros x Hx. apply nth_error_nth with (d := zero) in Hx. subst x.
    change 0 with (0 + 0 * rc) at 1. rewrite Hold by lia. exact Hhead.
  - exists xt'. split; [exact Hsub|]. split; [|split].
    + unfold shape_ok. rewrite Hr', Hc', Hlen'. auto.
    + intros r c Hrr Hcc Hne Hfin. unfold at_ at 1. rewrite Hr', Hrw.
      rewrite Hnth by (rewrite Hlenw; apply position_bound; lia).
      rewrite Hold by assumption. rewrite Hfin. reflexivity.
    + intros c Hcc Hfin. unfold at_. rewrite Hr', Hrw.
      rewrite Hnth by (rewrite Hlenw; apply position_bound; lia).
      destruct (is_finite (nth (i + c * rc) (mem xt_w) zero)) eqn:F; [exact F|].
      replace (i + c * rc - 1) with ((i - 1) + c * rc) by lia.
      rewrite Hold by lia. exact Hfin.
Qed.

(** A row is written and the matrix repaired from the row below. *)
Lemma write_then_repair_next (rc nc i : nat) (xt xt_w : mat R) (v : list R) :
  shape_ok xt rc nc -> i + 1 < rc -> 1 <= nc ->
  (Z.of_nat (rc * nc) < uword_modulus)%Z ->
  set_row xt i v = Some xt_w ->
  is_finite (at_ xt (rc - 1) (nc - 1)) = true ->
  exists xt', subst_next xt_w = Some xt' /\ turn_ok rc nc xt xt' i (i + 1).
Proof.
  intros [Hr [Hc Hlen]] Hi Hnc Hsize Hset Hlast.
  destruct (set_row_shape _ _ _ Hset) as [Hrw [Hcw Hlenw]].
  rewrite Hr in Hrw. rewrite Hc in Hcw. rewrite Hr, Hc in Hlenw.
  assert (Hold : forall r c, r < rc -> c < nc -> r <> i ->
                   nth (r + c * rc) (mem xt_w) zero = at_ xt r c).
  { intros r c Hrr Hcc Hne.
    pose proof (@set_row_at _ _ xt xt_w i _ r c Hset) as Hat. unfold at_ at 1 in Hat.
    rewrite Hrw in Hat. rewrite Hat by lia.
    destruct (Nat.eqb_spec r i); [contradiction | reflexivity]. }
  destruct (subst_next_spec xt_w) as [xt' [Hsub [Hr' [Hc' [Hlen' Hnth]]]]].
  - rewrite Hlenw. lia.
  - rewrite Hlenw. replace (rc * nc - 1) with ((rc - 1) + (nc - 1) * rc) by nia.
    rewrite Hold by lia. exact Hlast.
  - exists xt'. split; [exact Hsub|]. split; [|split].
    + unfold shape_ok. rewrite Hr', Hc', Hlen'. auto.
    + intros r c Hrr Hcc Hne Hfin. unfold at_ at 1. rewrite Hr', Hrw.
      rewrite Hnth by (rewrite Hlenw; apply position_bound; lia).
      rewrite Hold by assumption. rewrite Hfin. reflexivity.
    + intros c Hcc Hfin. unfold at_. rewrite Hr', Hrw.
      rewrite Hnth by (rewrite Hlenw; apply position_bound; lia).
      destruct (is_finite (nth (i + c * rc) (mem xt_w) zero)) eqn:F; [exact F|].
      replace (i + c * rc + 1) with ((i + 1) + c * rc) by lia.
      rewrite Hold by lia. exact Hfin.
Qed.

Lemma gather_leading_ok (m : mat R) (lags : list nat) (rc i : nat) :
  n_rows m = rc ->
  (forall l, In l lags -> i + l < rc) ->
  rc * length lags <= length (mem m) ->
  elem m (mapi (fun k l => Z.of_nat ((i + l) + k * rc)) lags)
  = Some (leading m lags i).
Proof.
  intros <- Hl Hlen. unfold elem, mapi, leading, mapi.
  apply mapM_mapi_from_total. intros j c Hj. simpl.
  assert (Hjl : j < length lags) by (apply nth_error_Some; congruence).
  assert (Hc : i + c < n_rows m) by (apply Hl; eapply nth_error_In; eauto).
  rewrite elem1_of_nat; [reflexivity|]. nia.
Qed.

Lemma leading_length (m : mat R) (lags : list nat) (i : nat) :
  length (leading m lags i) = length lags.
Proof. unfold leading. apply mapi_length. Qed.

Section Operands.
Variables (matrixxt matrixF matrixw matrixv : mat R) (matyt matg : list R)
          (lags : list nat) (wex xr : mat R) (maxlag : nat).
Hypothesis Hok : inputs_ok matrixxt matrixF matrixw matrixv matyt matg lags wex xr maxlag.

Let obsall := n_rows matrixxt.
Let rc := n_rows matrixxt + maxlag.
Let nl := length lags.
Let offs := lag_offsets rc maxlag lags.
Let backlags := backlag_offsets rc maxlag lags.

(** The state of a loop: the extended state history and the two vectors. *)
Let sized (st : fstate R) : Prop :=
  shape_ok (fst (fst st)) rc nl /\
  length (snd (fst st)) = length matyt /\ length (snd st) = length matyt.

Let finite_where (D : nat -> Prop) (st : fstate R) : Prop :=
  forall r c, r < rc -> c < nl -> D r -> is_finite (at_ (fst (fst st)) r c) = true.

Ltac sizes := unfold rc, obsall, nl in *; lia.

Lemma operands_facts :
  1 <= maxlag /\ 1 <= nl /\ (forall l, In l lags -> 1 <= l <= maxlag) /\
  obsall = length matyt + maxlag /\
  (Z.of_nat (rc * (nl + 1)) < uword_modulus)%Z /\
  (Z.of_nat (rc * nl) < uword_modulus)%Z.
Proof.
  destruct (inputs_ok_maxlag_pos Hok) as [Hm1 [Hn1 Hl]].
  pose proof (ok_fit Hok) as Hfit.
  repeat split; try assumption; try (apply Hl; assumption).
  - exact (ok_xt_rows Hok).
  - eapply Z.le_lt_trans; [|exact Hfit]. apply inj_le. unfold rc, nl. nia.
Qed.

(** The filter update on gathered states [x] of the right length. *)
Lemma filter_turn_writes (lagrows : list Z) (x : list R) (i : nat)
    (xt : mat R) (fitv errv : list R) :
  shape_ok xt rc nl -> length fitv = length matyt -> length errv = length matyt ->
  maxlag <= i < obsall ->
  elem xt lagrows = Some x -> length x = nl ->
  exists xt_w v fitv' errv',
    filter_update matrixF matrixw matrixv matyt matg wex xr lagrows (i - maxlag) i
      (xt, fitv, errv) = Some (xt_w, fitv', errv') /\
    length fitv' = length matyt /\ length errv' = length matyt /\
    set_row xt i v = Some xt_w.
Proof.
  intros [Hr [Hc Hlen]] Hlf Hle Hi Ex Hx.
  destruct operands_facts as [Hm1 [Hn1 [Hl [Hobs _]]]].
  set (t := i - maxlag).
  assert (Ht : t < length matyt) by (unfold t; lia).
  assert (Ey : nth_error matyt t = Some (nth t matyt zero))
    by (apply nth_error_nth'; exact Ht).
  destruct (@filter_update_ok R SR matrixF matrixw matrixv matyt matg wex xr lagrows
              t i xt fitv errv x (nth t matyt zero) Ex Ey)
    as [xt_w [Hset Hupd]];
    try (rewrite ?Hx, ?Hr, ?Hc; unfold nl, rc;
         first [ rewrite (ok_w_rows Hok) | rewrite (ok_w_cols Hok)
               | rewrite (ok_v_rows Hok) | rewrite (ok_v_cols Hok)
               | rewrite (ok_wex_rows Hok) | rewrite (ok_xr_rows Hok)
               | rewrite (ok_F_rows Hok) | rewrite (ok_F_cols Hok)
               | idtac ];
         first [ exact (ok_ex_cols Hok) | exact (ok_g Hok)
               | symmetry; exact (ok_g Hok) | lia ]).
  eexists xt_w, _, _, _. split; [exact Hupd|].
  rewrite !upd_length. split; [exact Hlf|]. split; [exact Hle|]. exact Hset.
Qed.

(** The propagation on gathered states [x] of the right length. *)
Lemma propagate_turn_writes (lagrows : list Z) (x : list R) (i : nat) (xt : mat R) :
  shape_ok xt rc nl -> i < rc ->
  elem xt lagrows = Some x -> length x = nl ->
  exists xt_w v,
    propagate_update matrixF lagrows i xt = Some xt_w /\ set_row xt i v = Some xt_w.
Proof.
  intros [Hr [Hc Hlen]] Hi Ex Hx.
  unfold propagate_update. rewrite Ex.
  rewrite matvec_ok by (rewrite Hx; exact (ok_F_cols Hok)).
  set (v := map _ (seq 0 (n_rows matrixF))).
  assert (E : set_row xt i v
              = Some (build (n_rows xt) (n_cols xt)
                        (fun r c => if r =? i then nth c v zero else at_ xt r c))).
  { apply set_row_ok.
    - lia.
    - unfold v. rewrite length_map, length_seq, Hc. exact (ok_F_rows Hok). }
  rewrite E. eexists _, v. split; [reflexivity | exact E].
Qed.

Lemma forward_gather (i : nat) (xt : mat R) :
  shape_ok xt rc nl -> maxlag <= i < rc ->
  elem xt (forward_lagrows offs maxlag i) = Some (lagged xt lags i).
Proof.
  intros [Hr [Hc Hlen]] Hi.
  destruct operands_facts as [Hm1 [Hn1 [Hl [Hobs [_ Hfit]]]]].
  unfold offs.
  rewrite forward_lagrows_eq;
    [ | intros l Hlin; specialize (Hl l Hlin); lia | lia | exact Hfit ].
  apply gather_ok.
  - exact Hr.
  - intros l Hlin. lia.
  - rewrite Hlen. unfold nl. lia.
Qed.

Lemma backward_gather (i : nat) (xt : mat R) :
  shape_ok xt rc nl -> i < obsall ->
  elem xt (backward_lagrows backlags obsall i) = Some (leading xt lags i).
Proof.
  intros [Hr [Hc Hlen]] Hi.
  destruct operands_facts as [Hm1 [Hn1 [Hl [Hobs [Hfit _]]]]].
  unfold backlags, rc. fold obsall.
  rewrite backward_lagrows_eq;
    [ | intros l Hlin; specialize (Hl l Hlin); lia | lia | exact Hfit ].
  apply gather_leading_ok.
  - exact Hr.
  - intros l Hlin. specialize (Hl l Hlin). unfold rc. fold obsall. lia.
  - rewrite Hlen. unfold nl, rc. fold obsall. lia.
Qed.

(** The four kinds of turn, on a state of the right sizes whose first and
    last entries are finite. *)
Lemma forward_turn_total (i : nat) (st : fstate R) :
  sized st -> maxlag <= i < obsall ->
  is_finite (at_ (fst (fst st)) 0 0) = true ->
  exists st',
    ssfitter_step matrixF matrixw matrixv matyt matg wex xr offs maxlag i st = Some st' /\
    sized st' /\ turn_ok rc nl (fst (fst st)) (fst (fst st')) i (i - 1).
Proof.
  destruct st as [[xt fitv] errv]. cbn [fst snd]. intros [Hs [Hlf Hle]] Hi Hhead.
  destruct operands_facts as [Hm1 [Hn1 [Hl [Hobs [_ Hfit]]]]].
  assert (Hg : elem xt (forward_lagrows offs maxlag i) = Some (lagged xt lags i))
    by (apply forward_gather; [exact Hs | sizes]).
  destruct (@filter_turn_writes _ _ i xt fitv errv Hs Hlf Hle Hi Hg
              (lagged_length xt lags i))
    as [xt_w [v [fitv' [errv' [Hupd [Hlf' [Hle' Hset]]]]]]].
  assert (Hi' : 1 <= i < rc) by sizes.
  destruct (@write_then_repair_prev rc nl i xt xt_w v Hs Hi' Hn1 Hfit Hset Hhead)
    as [xt' [Hsub Hturn]].
  exists (xt', fitv', errv'). unfold ssfitter_step. rewrite Hupd, Hsub.
  split; [reflexivity|]. cbn [fst snd].
  split; [|exact Hturn]. split; [apply Hturn | split; assumption].
Qed.

Lemma tail_turn_total (i : nat) (st : fstate R) :
  sized st -> obsall <= i < rc ->
  is_finite (at_ (fst (fst st)) 0 0) = true ->
  exists st',
    backcast_tail_step matrixF offs maxlag i st = Some st' /\
    sized st' /\ turn_ok rc nl (fst (fst st)) (fst (fst st')) i (i - 1).
Proof.
  destruct st as [[xt fitv] errv]. cbn [fst snd]. intros [Hs [Hlf Hle]] Hi Hhead.
  destruct operands_facts as [Hm1 [Hn1 [Hl [Hobs [_ Hfit]]]]].
  assert (Hg : elem xt (forward_lagrows offs maxlag i) = Some (lagged xt lags i))
    by (apply forward_gather; [exact Hs | sizes]).
  assert (Hi1 : i < rc) by sizes.
  destruct (@propagate_turn_writes _ _ i xt Hs Hi1 Hg (lagged_length xt lags i))
    as [xt_w [v [Hprop Hset]]].
  assert (Hi' : 1 <= i < rc) by sizes.
  destruct (@write_then_repair_prev rc nl i xt xt_w v Hs Hi' Hn1 Hfit Hset Hhead)
    as [xt' [Hsub Hturn]].
  exists (xt', fitv, errv). unfold backcast_tail_step. rewrite Hprop, Hsub.
  split; [reflexivity|]. cbn [fst snd].
  split; [|exact Hturn]. split; [apply Hturn | split; assumption].
Qed.

Lemma back_turn_total (i : nat) (st : fstate R) :
  sized st -> maxlag <= i < obsall ->
  is_finite (at_ (fst (fst st)) (rc - 1) (nl - 1)) = true ->
  exists st',
    backcast_back_step matrixF matrixw matrixv matyt matg wex xr backlags obsall maxlag i st
    = Some st' /\
    sized st' /\ turn_ok rc nl (fst (fst st)) (fst (fst st')) i (i + 1).
Proof.
  destruct st as [[xt fitv] errv]. cbn [fst snd]. intros [Hs [Hlf Hle]] Hi Hlast.
  destruct operands_facts as [Hm1 [Hn1 [Hl [Hobs [_ Hfit]]]]].
  assert (Hg : elem xt (backward_lagrows backlags obsall i) = Some (leading xt lags i))
    by (apply backward_gather; [exact Hs | sizes]).
  destruct (@filter_turn_writes _ _ i xt fitv errv Hs Hlf Hle Hi Hg
              (leading_length xt lags i))
    as [xt_w [v [fitv' [errv' [Hupd [Hlf' [Hle' Hset]]]]]]].
  assert (Hi' : i + 1 < rc) by sizes.
  destruct (@write_then_repair_next rc nl i xt xt_w v Hs Hi' Hn1 Hfit Hset Hlast)
    as [xt' [Hsub Hturn]].
  exists (xt', fitv', errv'). unfold backcast_back_step. rewrite Hupd, Hsub.
  split; [reflexivity|]. cbn [fst snd].
  split; [|exact Hturn]. split; [apply Hturn | split; assumption].
Qed.

Lemma head_turn_total (i : nat) (st : fstate R) :
  sized st -> i < maxlag ->
  is_finite (at_ (fst (fst st)) (rc - 1) (nl - 1)) = true ->
  exists st',
    backcast_head_step matrixF backlags obsall i st = Some st' /\
    sized st' /\ turn_ok rc nl (fst (fst st)) (fst (fst st')) i (i + 1).
Proof.
  destruct st as [[xt fitv] errv]. cbn [fst snd]. intros [Hs [Hlf Hle]] Hi Hlast.
  destruct operands_facts as [Hm1 [Hn1 [Hl [Hobs [_ Hfit]]]]].
  assert (Hg : elem xt (backward_lagrows backlags obsall i) = Some (leading xt lags i))
    by (apply backward_gather; [exact Hs | sizes]).
  assert (Hi1 : i < rc) by sizes.
  destruct (@propagate_turn_writes _ _ i xt Hs Hi1 Hg (leading_length xt lags i))
    as [xt_w [v [Hprop Hset]]].
  assert (Hi' : i + 1 < rc) by sizes.
  destruct (@write_then_repair_next rc nl i xt xt_w v Hs Hi' Hn1 Hfit Hset Hlast)
    as [xt' [Hsub Hturn]].
  exists (xt', fitv, errv). unfold backcast_head_step. rewrite Hprop, Hsub.
  split; [reflexivity|]. cbn [fst snd].
  split; [|exact Hturn]. split; [apply Hturn | split; assumption].
Qed.

(** A turn keeps the finiteness of a region that contains the neighbour. *)
Lemma turn_keeps_finite (D D' : nat -> Prop) (st st' : fstate R) (i nb : nat) :
  turn_ok rc nl (fst (fst st)) (fst (fst st')) i nb ->
  nb < rc -> D nb ->
  (forall r, D' r -> r <> i -> D r) ->
  finite_where D st -> finite_where D' st'.
Proof.
  intros [_ [Hkeep Hnew]] Hnb HDnb Hsub Hfin r c Hr Hc HD'.
  destruct (Nat.eq_dec r i) as [->|Hne].
  - apply Hnew; [exact Hc|]. apply Hfin; assumption.
  - rewrite Hkeep; try assumption; apply Hfin; try assumption; apply Hsub; assumption.
Qed.

(** One cycle, from a state whose pre-sample rows and appended rows are
    finite to a state that is finite throughout. *)
Lemma backcast_cycle_total (j : nat) (st : fstate R) :
  sized st ->
  finite_where (fun r => r < maxlag \/ obsall <= r) st ->
  exists st',
    backcast_cycle matrixF matrixw matrixv matyt matg wex xr offs backlags obsall maxlag j st
    = Some st' /\
    sized st' /\ finite_where (fun _ => True) st'.
Proof.
  intros Hsz Hfin.
  destruct operands_facts as [Hm1 [Hn1 [Hl [Hobs [_ Hfit]]]]].
  unfold backcast_cycle.
  (* the filter pass *)
  destruct (@loop_seq_total _
              (fun (i : nat) (s : fstate R) =>
                 sized s /\ finite_where (fun r => r < i \/ obsall <= r) s)
              (ssfitter_step matrixF matrixw matrixv matyt matg wex xr offs maxlag)
              (obsall - maxlag) maxlag st)
    as [st1 [L1 [Hsz1 Hfin1]]].
  { intros i s Hi [Hs Hf].
    destruct (@forward_turn_total i s Hs ltac:(sizes)) as [s' [E [Hs' Ht]]].
    - apply Hf; [sizes | sizes | left; sizes].
    - exists s'. split; [exact E|]. split; [exact Hs'|].
      apply (@turn_keeps_finite (fun r => r < i \/ obsall <= r) _ s s' i (i - 1) Ht).
      + sizes.
      + left. sizes.
      + cbv beta. intros r Hr Hne. sizes.
      + exact Hf. }
  { split; assumption. }
  rewrite L1.
  assert (Hall1 : finite_where (fun _ => True) st1).
  { intros r c Hr Hc _. apply Hfin1; try assumption. lia. }
  (* the appended rows *)
  destruct (@loop_seq_total _
              (fun (_ : nat) (s : fstate R) => sized s /\ finite_where (fun _ => True) s)
              (backcast_tail_step matrixF offs maxlag) maxlag obsall st1)
    as [st2 [L2 [Hsz2 Hall2]]].
  { intros i s Hi [Hs Hf].
    destruct (@tail_turn_total i s Hs ltac:(sizes))
      as [s' [E [Hs' Ht]]].
    - apply Hf; [sizes | sizes | exact I].
    - exists s'. split; [exact E|]. split; [exact Hs'|].
      apply (@turn_keeps_finite (fun _ => True) _ s s' i (i - 1) Ht); auto.
      sizes. }
  { split; assumption. }
  rewrite L2.
  destruct (j <? 3).
  - (* the backward filter pass *)
    destruct (@loop_in_total _
                (fun s : fstate R => sized s /\ finite_where (fun _ => True) s)
                (backcast_back_step matrixF matrixw matrixv matyt matg wex xr backlags
                   obsall maxlag)
                (rev (seq maxlag (obsall - maxlag))))
      with (s := st2) as [st3 [L3 [Hsz3 Hall3]]].
    { intros i s Hin [Hs Hf]. apply in_rev, in_seq in Hin.
      destruct (@back_turn_total i s Hs ltac:(sizes)) as [s' [E [Hs' Ht]]].
      - apply Hf; [sizes | sizes | exact I].
      - exists s'. split; [exact E|]. split; [exact Hs'|].
        apply (@turn_keeps_finite (fun _ => True) _ s s' i (i + 1) Ht); auto.
        sizes. }
    { split; assumption. }
    unfold backcast_back_loop. rewrite L3.
    replace ((maxlag =? 0) || (obsall =? 0)) with false.
    2:{ symmetry. apply orb_false_iff. split; apply Nat.eqb_neq; sizes. }
    (* the pre-sample rows *)
    apply (@loop_in_total _
             (fun s : fstate R => sized s /\ finite_where (fun _ => True) s)
             (backcast_head_step matrixF backlags obsall) (rev (seq 0 maxlag))).
    + intros i s Hin [Hs Hf]. apply in_rev, in_seq in Hin.
      destruct (@head_turn_total i s Hs ltac:(sizes)) as [s' [E [Hs' Ht]]].
      * apply Hf; [sizes | sizes | exact I].
      * exists s'. split; [exact E|]. split; [exact Hs'|].
        apply (@turn_keeps_finite (fun _ => True) _ s s' i (i + 1) Ht); auto.
        sizes.
    + split; assumption.
  - exists st2. auto.
Qed.

(** The four cycles, from a state history whose pre-sample rows are
    finite. *)
Lemma backcast_cycles_total :
  rows_finite matrixxt maxlag -> is_finite (@zero R SR) = true ->
  exists st,
    ssfitterbackcast_cycles matrixxt matrixF matrixw matrixv matyt matg lags wex xr
    = Some st /\
    shape_ok (fst (fst st)) (n_rows matrixxt + maxlag) (length lags) /\
    length (snd (fst st)) = length matyt /\ length (snd st) = length matyt /\
    forall r c, r < n_rows matrixxt + maxlag -> c < length lags ->
      is_finite (at_ (fst (fst st)) r c) = true.
Proof.
  intros Hpre Hzero.
  destruct operands_facts as [Hm1 [Hn1 [Hl [Hobs [_ Hfit]]]]].
  rewrite (@ssfitterbackcast_four_cycles _ _ matrixxt matrixF matrixw matrixv matyt matg
             lags wex xr maxlag (ok_maxlag Hok)).
  cbv zeta. fold rc offs backlags obsall.
  set (st0 := (resize matrixxt rc (n_cols matrixxt),
               repeat zero (length matyt), repeat zero (length matyt))).
  assert (Hsz0 : sized st0).
  { unfold sized, st0, shape_ok, resize. cbn [fst snd].
    rewrite build_rows, build_cols, build_length, !repeat_length.
    rewrite (ok_xt_cols Hok). auto. }
  assert (Hfin0 : finite_where (fun r => r < maxlag \/ obsall <= r) st0).
  { intros r c Hr Hc HD. unfold st0, resize. cbn [fst snd].
    rewrite build_at by (rewrite ?(ok_xt_cols Hok); assumption).
    fold obsall. destruct HD as [HD|HD].
    - destruct (Nat.ltb_spec r obsall); [|sizes].
      destruct (Nat.ltb_spec c (n_cols matrixxt)); [|rewrite (ok_xt_cols Hok) in *; sizes].
      apply Hpre; assumption.
    - destruct (Nat.ltb_spec r obsall); [lia | exact Hzero]. }
  assert (Hweak : forall st, finite_where (fun _ => True) st ->
                             finite_where (fun r => r < maxlag \/ obsall <= r) st).
  { intros st H r c Hr Hc _. apply H; auto. }
  destruct (backcast_cycle_total 0 Hsz0 Hfin0) as [s1 [C0 [Hsz1 Hall1]]]. rewrite C0.
  destruct (backcast_cycle_total 1 Hsz1 (Hweak _ Hall1)) as [s2 [C1 [Hsz2 Hall2]]].
  rewrite C1.
  destruct (backcast_cycle_total 2 Hsz2 (Hweak _ Hall2)) as [s3 [C2 [Hsz3 Hall3]]].
  rewrite C2.
  destruct (backcast_cycle_total 3 Hsz3 (Hweak _ Hall3)) as [s4 [C3 [Hsz4 Hall4]]].
  exists s4. split; [exact C3|].
  destruct Hsz4 as [H1 [H2 H3]].
  split; [exact H1|]. split; [exact H2|]. split; [exact H3|].
  intros r c Hr Hc. apply Hall4; auto.
Qed.

End Operands.

(** X21. [ssfitterbackcast] returns.  On inputs of the expected shapes whose
    pre-sample state rows are finite (and with a finite zero, as in both
    arithmetics), none of the gathers, products, row assignments and repairs
    of the four cycles raises: the call returns, the vectors have [obs]
    entries, and the state history as the cycles leave it, [obsall + maxlag]
    rows before the final [set_size], has no non-finite entry. *)
Theorem ssfitterbackcast_returns :
  forall (matrixxt matrixF matrixw matrixv : mat R) (matyt matg : list R)
         (lags : list nat) (wex xr : mat R) (maxlag : nat),
    inputs_ok matrixxt matrixF matrixw matrixv matyt matg lags wex xr maxlag ->
    presample_finite matrixxt maxlag = true ->
    is_finite (@zero R SR) = true ->
    exists (xt : mat R) (fitv errv : list R),
      ssfitterbackcast_cycles matrixxt matrixF matrixw matrixv matyt matg lags wex xr
      = Some (xt, fitv, errv) /\
      ssfitterbackcast matrixxt matrixF matrixw matrixv matyt matg lags wex xr
      = Some (Fit (set_size xt (n_rows matrixxt) (n_cols xt)) fitv errv xr) /\
      n_rows xt = n_rows matrixxt + maxlag /\ n_cols xt = n_cols matrixxt /\
      length fitv = length matyt /\ length errv = length matyt /\
      forall r c, r < n_rows xt -> c < n_cols xt -> is_finite (at_ xt r c) = true.
Proof.
  intros matrixxt matrixF matrixw matrixv matyt matg lags wex xr maxlag Hok Hfin Hzero.
  destruct (backcast_cycles_total Hok (@presample_finite_rows _ _ matrixxt maxlag Hfin)
              Hzero)
    as [[[xt fitv] errv] [Hc [[Hr [Hcn _]] [Hlf [Hle Hall]]]]].
  cbn [fst snd] in *.
  exists xt, fitv, errv. split; [exact Hc|]. split.
  - unfold ssfitterbackcast. rewrite Hc. reflexivity.
  - split; [exact Hr|]. split; [rewrite Hcn; symmetry; exact (ok_xt_cols Hok)|].
    split; [exact Hlf|]. split; [exact Hle|].
    intros r c Hrr Hcc. apply Hall; [rewrite <- Hr | rewrite <- Hcn]; assumption.
Qed.

(** X22. The two propagation loops of a cycle (lines 119-124 and 138-143).
    Whenever a turn of the loop over the appended rows completes, it wrote
    row [i] with [matrixF] times the lagged state (component [k] read at row
    [i - lag_k]) and repaired from the previous buffer position; whenever a
    turn of the loop over the pre-sample rows completes, it wrote row [i]
    with [matrixF] times the leading state (component [k] read at row
    [i + lag_k]) and repaired from the next one.  Neither touches the fitted
    values or the residuals. *)
Theorem backcast_propagation_turns :
  forall (matrixF : mat R) (lags : list nat) (obsall maxlag i : nat)
         (xt : mat R) (fitv errv : list R) (xt' : mat R) (fitv' errv' : list R),
    max_uvec lags = Some maxlag ->
    (Z.of_nat ((obsall + maxlag) * (length lags + 1)) < uword_modulus)%Z ->
    n_rows xt = obsall + maxlag ->
    (obsall <= i < obsall + maxlag -> maxlag <= i ->
     backcast_tail_step matrixF (lag_offsets (obsall + maxlag) maxlag lags) maxlag i
       (xt, fitv, errv) = Some (xt', fitv', errv') ->
     fitv' = fitv /\ errv' = errv /\
     exists xt_w,
       set_row xt i (transition_row matrixF (lagged xt lags i)) = Some xt_w /\
       subst_prev xt_w = Some xt') /\
    (i < maxlag -> i < obsall ->
     backcast_head_step matrixF (backlag_offsets (obsall + maxlag) maxlag lags) obsall i
       (xt, fitv, errv) = Some (xt', fitv', errv') ->
     fitv' = fitv /\ errv' = errv /\
     exists xt_w,
       set_row xt i (transition_row matrixF (leading xt lags i)) = Some xt_w /\
       subst_next xt_w = Some xt').
Proof.
  intros matrixF lags obsall maxlag i xt fitv errv xt' fitv' errv' Hmax Hfit Hrows.
  assert (Hl : forall l, In l lags -> l <= maxlag) by (apply (max_uvec_ge _ Hmax)).
  assert (Hfit' : (Z.of_nat ((obsall + maxlag) * length lags) < uword_modulus)%Z).
  { eapply Z.le_lt_trans; [|exact Hfit]. apply inj_le. nia. }
  split.
  - intros Hi Hm Hstep. unfold backcast_tail_step, propagate_update in Hstep.
    destruct (elem xt _) as [x|] eqn:Ex; [|discriminate].
    destruct (matvec matrixF x) as [Fx|] eqn:EFx; [|discriminate].
    destruct (set_row xt i Fx) as [xt_w|] eqn:Eset; [|discriminate].
    destruct (subst_prev xt_w) as [xt2|] eqn:Esub; [|discriminate].
    inversion Hstep; subst xt2 fitv' errv'. clear Hstep.
    rewrite forward_lagrows_eq in Ex;
      [ | intros l Hlin; specialize (Hl l Hlin); lia | lia | exact Hfit' ].
    apply (gather_some _ _ _ Hrows) in Ex. subst x.
    destruct (matvec_some _ _ EFx) as [_ ->].
    split; [reflexivity|]. split; [reflexivity|].
    exists xt_w. split; [exact Eset | exact Esub].
  - intros Hi Hio Hstep. unfold backcast_head_step, propagate_update in Hstep.
    destruct (elem xt _) as [x|] eqn:Ex; [|discriminate].
    destruct (matvec matrixF x) as [Fx|] eqn:EFx; [|discriminate].
    destruct (set_row xt i Fx) as [xt_w|] eqn:Eset; [|discriminate].
    destruct (subst_next xt_w) as [xt2|] eqn:Esub; [|discriminate].
    inversion Hstep; subst xt2 fitv' errv'. clear Hstep.
    rewrite backward_lagrows_eq in Ex; [ | exact Hl | lia | exact Hfit ].
    apply (gather_leading _ _ _ Hrows) in Ex. subst x.
    destruct (matvec_some _ _ EFx) as [_ ->].
    split; [reflexivity|]. split; [reflexivity|].
    exists xt_w. split; [exact Eset | exact Esub].
Qed.

End BackcastTotal.

Lemma ssfitterbackcast_returns_witness :
  exists (xt : mat float) (fitv errv : list float),
    ssfitterbackcast sc_matrixxt sc_matrixF sc_matrixw sc_matrixv sc_matyt sc_matg
                     sc_lags sc_wex sc_xtreg
    = Some (Fit (set_size xt 6 (n_cols xt)) fitv errv sc_xtreg) /\
    n_rows xt = 7 /\
    forall r c, r < n_rows xt -> c < n_cols xt -> is_finite (at_ xt r c) = true.
Proof.
  assert (Hok : inputs_ok (R := float) sc_matrixxt sc_matrixF sc_matrixw sc_matrixv
                  sc_matyt sc_matg sc_lags sc_wex sc_xtreg 1) by shapes_ok.
  assert (Hfin : presample_finite (@sc_matrixxt float _) 1 = true)
    by (vm_compute; reflexivity).
  assert (Hzero : is_finite (@zero float _) = true) by reflexivity.
  destruct (ssfitterbackcast_returns Hok Hfin Hzero)
    as [xt [fitv [errv [_ [H1 [H2 [_ [_ [_ H3]]]]]]]]].
  exists xt, fitv, errv. split; [exact H1|]. split; [exact H2 | exact H3].
Defined.

Lemma backcast_propagation_turns_witness :
  backcast_tail_step pt_matrixF (lag_offsets 4 1 [1; 1]) 1 3
    (pt_matrixxt, [7]%float, [8]%float)
  = Some (Mat 4 2 [1; 2; 3; 3; 4; 5; 6; 9]%float, [7]%float, [8]%float) /\
  (exists xt_w,
     set_row pt_matrixxt 3 (transition_row pt_matrixF (lagged pt_matrixxt [1; 1] 3))
     = Some xt_w /\
     subst_prev xt_w = Some (Mat 4 2 [1; 2; 3; 3; 4; 5; 6; 9]%float)) /\
  backcast_head_step pt_matrixF (backlag_offsets 4 1 [1; 1]) 3 0
    (pt_matrixxt, [7]%float, [8]%float)
  = Some (Mat 4 2 [2; 2; 3; 0; 7; 5; 6; 0]%float, [7]%float, [8]%float) /\
  (exists xt_w,
     set_row pt_matrixxt 0 (transition_row pt_matrixF (leading pt_matrixxt [1; 1] 0))
     = Some xt_w /\
     subst_next xt_w = Some (Mat 4 2 [2; 2; 3; 0; 7; 5; 6; 0]%float)).
Proof.
  assert (Ht : backcast_tail_step pt_matrixF (lag_offsets 4 1 [1; 1]) 1 3
                 (pt_matrixxt, [7]%float, [8]%float)
               = Some (Mat 4 2 [1; 2; 3; 3; 4; 5; 6; 9]%float, [7]%float, [8]%float))
    by (vm_compute; reflexivity).
  assert (Hh : backcast_head_step pt_matrixF (backlag_offsets 4 1 [1; 1]) 3 0
                 (pt_matrixxt, [7]%float, [8]%float)
               = Some (Mat 4 2 [2; 2; 3; 0; 7; 5; 6; 0]%float, [7]%float, [8]%float))
    by (vm_compute; reflexivity).
  assert (Hfit : (Z.of_nat ((3 + 1) * (length [1; 1] + 1)) < uword_modulus)%Z)
    by (vm_compute; reflexivity).
  destruct (@backcast_propagation_turns float _ pt_matrixF [1; 1] 3 1 3 pt_matrixxt
              [7]%float [8]%float (Mat 4 2 [1; 2; 3; 3; 4; 5; 6; 9]%float)
              [7]%float [8]%float eq_refl Hfit eq_refl) as [Tail _].
  destruct (Tail ltac:(lia) ltac:(lia) Ht) as [_ [_ Hw1]].
  destruct (@backcast_propagation_turns float _ pt_matrixF [1; 1] 3 1 0 pt_matrixxt
              [7]%float [8]%float (Mat 4 2 [2; 2; 3; 0; 7; 5; 6; 0]%float)
              [7]%float [8]%float eq_refl Hfit eq_refl) as [_ Head].
  destruct (Head ltac:(lia) ltac:(lia) Hh) as [_ [_ Hw2]].
  split; [exact Ht|]. split; [exact Hw1|]. split; [exact Hh | exact Hw2].
Defined.

(** ** The cost function returns *)

Section CostTotal.
Context {R : Type} {SR : Scalar R} (L : libm R).

(** Either filter, on inputs of the expected shapes: it returns a state
    history of the shape it was given, the exogenous coefficients as given,
    and one residual per observation. *)
Lemma fit_returns
    (matrixxt matrixF matrixw matrixv : mat R) (matyt matg : list R)
    (lags : list nat) (backcasting : bool) (wex xr : mat R) (maxlag : nat) :
  inputs_ok matrixxt matrixF matrixw matrixv matyt matg lags wex xr maxlag ->
  presample_finite matrixxt maxlag = true ->
  is_finite (@zero R SR) = true ->
  exists fitting,
    (if backcasting
     then ssfitterbackcast matrixxt matrixF matrixw matrixv matyt matg lags wex xr
     else ssfitter matrixxt matrixF matrixw matrixv matyt matg lags wex xr)
    = Some fitting /\
    n_rows (matxt fitting) = n_rows matrixxt /\
    n_cols (matxt fitting) = length lags /\
    xtreg fitting = xr /\
    length (errors fitting) = length matyt.
Proof.
  intros Hok Hfin Hzero. destruct backcasting.
  - destruct (backcast_cycles_total Hok (@presample_finite_rows _ _ matrixxt maxlag Hfin)
                Hzero)
      as [[[xt fitv] errv] [Hc [[Hr [Hcn _]] [Hlf [Hle _]]]]].
    cbn [fst snd] in *.
    eexists. split.
    + unfold ssfitterbackcast. rewrite Hc. reflexivity.
    + cbn [matxt xtreg errors set_size n_rows n_cols]. auto.
  - assert (Hhead : finite_head matrixxt).
    { destruct (inputs_ok_maxlag_pos Hok) as [Hm1 [Hn1 _]].
      apply (rows_finite_head (n := maxlag)); try assumption.
      - rewrite (ok_xt_cols Hok). exact Hn1.
      - apply presample_finite_rows. exact Hfin. }
    destruct (ssfitter_total Hok Hhead) as [res [Hres [[Hr [Hc _]] [_ Hle]]]].
    exists res. split; [exact Hres|]. split; [exact Hr|]. split; [exact Hc|].
    split; [|exact Hle].
    unfold ssfitter in Hres. destruct (max_uvec lags); [|discriminate].
    destruct (loop _ _ _) as [[[a b] c]|]; [|discriminate].
    inversion Hres. reflexivity.
Qed.

(** X23. [ssoptimizer] returns a cost.  On inputs of the expected shapes
    whose pre-sample state rows are finite, with a horizon between 1 and
    [obs], the call returns for every cost name other than GV, with and
    without backcasting: the filter, the rolling-origin errors and the
    column extractions all pass their checks.  (The value may still be a
    NaN, if the arithmetic produced one; the GV cost is left out because it
    rests on the eigenvalue and determinant routines.) *)
Theorem ssoptimizer_returns :
  forall (matrixxt matrixF matrixw matrixv : mat R) (matyt matg : list R) (hor : nat)
         (lags : list nat) (CFtype : string) (normalize : R) (backcasting : bool)
         (wex xr : mat R) (maxlag : nat),
    inputs_ok matrixxt matrixF matrixw matrixv matyt matg lags wex xr maxlag ->
    presample_finite matrixxt maxlag = true ->
    is_finite (@zero R SR) = true ->
    1 <= hor <= length matyt ->
    CFtype <> "GV"%string ->
    exists cost,
      ssoptimizer L matrixxt matrixF matrixw matrixv matyt matg hor lags CFtype
                  normalize backcasting wex xr
      = Some cost.
Proof.
  intros matrixxt matrixF matrixw matrixv matyt matg hor lags CFtype normalize
         backcasting wex xr maxlag Hok Hfin Hzero Hhor HGV.
  destruct (fit_returns backcasting Hok Hfin Hzero)
    as [[xt fitv errv xr'] [Hfit [Hr [Hc [Hx Hle]]]]].
  cbn [matxt xtreg errors] in Hr, Hc, Hx, Hle. subst xr'.
  assert (Heok : errorer_ok xt matrixF matrixw matyt hor lags wex xr maxlag).
  { constructor; try solve [apply Hok]; try lia.
    - rewrite Hr. apply (ok_xt_rows Hok).
    - rewrite Hr. eapply Z.le_lt_trans; [|exact (ok_fit Hok)]. apply inj_le. nia. }
  destruct (sserrorer_entries Heok) as [E [HE [[Er [Ec _]] _]]].
  assert (Hsize : (Z.of_nat (length matyt) < uword_modulus)%Z).
  { eapply Z.le_lt_trans; [|exact (ok_fit Hok)]. apply inj_le.
    rewrite (ok_xt_rows Hok). nia. }
  assert (Hmean : forall f : R -> R, exists m, as_scalar_mean (map f errv) = Some m).
  { intros f. destruct errv as [|e errv]; [simpl in Hle; lia|].
    simpl. eexists. reflexivity. }
  unfold ssoptimizer. rewrite Hfit.
  destruct (String.eqb_spec CFtype "GV") as [HG|_]; [contradiction|].
  destruct (String.eqb CFtype "TLV").
  { rewrite HE. eexists. apply trace_loop_ok; try assumption.
    intros c Hin. apply in_seq in Hin. lia. }
  destruct (String.eqb CFtype "TV").
  { rewrite HE. eexists. apply (trace_loop_ok L (fun x => x)); try assumption.
    intros c Hin. apply in_seq in Hin. lia. }
  destruct (String.eqb CFtype "hsteps").
  { rewrite HE.
    rewrite (wrap_pred (n := hor)) by lia.
    replace (Z.of_nat (length matyt) - Z.of_nat hor)%Z
      with (Z.of_nat (length matyt - hor)) by lia.
    rewrite wrap_small by lia.
    change 0%Z with (Z.of_nat 0).
    rewrite submat_ok by lia.
    replace (hor - 1 - (hor - 1) + 1) with 1 by lia.
    rewrite build_one_column.
    replace (length matyt - hor - 0 + 1) with (S (length matyt - hor)) by lia.
    cbn [seq map as_scalar_mean]. eexists. reflexivity. }
  destruct (String.eqb CFtype "MSE"); [apply Hmean|].
  destruct (String.eqb CFtype "MAE"); apply Hmean.
Qed.

End CostTotal.

Lemma ssoptimizer_returns_witness :
  exists cost : xq,
    ssoptimizer xq_libm sc_matrixxt sc_matrixF sc_matrixw sc_matrixv sc_matyt sc_matg
                2 sc_lags "hsteps" (num 1) true sc_wex sc_xtreg
    = Some cost.
Proof.
  assert (Hok : inputs_ok (R := xq) sc_matrixxt sc_matrixF sc_matrixw sc_matrixv
                  sc_matyt sc_matg sc_lags sc_wex sc_xtreg 1) by shapes_ok.
  assert (Hfin : presample_finite (@sc_matrixxt xq _) 1 = true)
    by (vm_compute; reflexivity).
  assert (Hzero : is_finite (@zero xq _) = true) by reflexivity.
  assert (Hhor : 1 <= 2 <= length (@sc_matyt xq _)) by (vm_compute; lia).
  assert (HGV : "hsteps"%string <> "GV"%string) by discriminate.
  exact (@ssoptimizer_returns xq _ xq_libm _ _ _ _ _ _ 2 _ "hsteps" (num 1) true
           _ _ _ Hok Hfin Hzero Hhor HGV).
Defined.
